(** * rslite: row-based synchronisation of two SQLite databases

    A shallow embedding of [sync/sync.go].  The Go code talks to the storage
    engine through [database/sql]; here the engine is an explicit model (one
    write transaction with a working copy, a fault oracle that decides which
    calls return an error), and the functions of [sync.go] are written over
    it in a state-and-error monad, one definition per Go function.

    The functions are embedded twice.  The first embedding is over keyed
    tables (finite maps from the value of the key column to the row) and
    serves the statements about query text, descriptors, the order of the
    run and the order of enumeration.  The second, the module [General], is
    over tables as SQLite has them (lists of rows, NULL keys, further
    uniqueness constraints, triggers, cursors that stop early) and serves the
    statements about which rows a run leaves in the target. *)

From Stdlib Require Import ZArith Ascii String List.
From stdpp Require Import base option list strings gmap fin_maps.

Local Open Scope string_scope.
Local Open Scope Z_scope.

(** ** Configuration and table descriptors (sync.go, lines 12-19 and 67-71) *)

Record Config := mkConfig {
  Filter : string;
  Value : string;
  NoDelete : bool;
  Tables : list string;
  SrcDbPath : string;
  DstDbPath : string
}.

Record Table := mkTable {
  name : string;
  columns : list string;
  pkCol : string
}.

(** One row of [PRAGMA table_info(t)], as scanned at lines 107-115. *)
Record ColumnInfo := mkColumnInfo {
  cid : Z;
  col_name : string;
  type_ : string;
  notnull : Z;
  dflt_val : option string;
  pk : Z
}.

(** The configuration with another allowlist. *)
Definition withTables (cfg : Config) (names : list string) : Config :=
  mkConfig (Filter cfg) (Value cfg) (NoDelete cfg) names (SrcDbPath cfg) (DstDbPath cfg).

(** ** Schema inspection: the pure part of [getTableInfo] (lines 103-128) *)

(** The body of the [for rows.Next()] loop, lines 118-121. *)
Definition scanColumn (table : Table) (c : ColumnInfo) : Table :=
  let table := mkTable (name table) (columns table ++ [col_name c])%list (pkCol table) in
  if 0 <? pk c
  then mkTable (name table) (columns table) (col_name c)
  else table.

(** Lines 124-126. *)
Definition defaultPk (table : Table) : Table :=
  if String.eqb (pkCol table) ""
  then mkTable (name table) (columns table) "rowid"
  else table.

Definition buildTable (tableName : string) (info : list ColumnInfo) : Table :=
  defaultPk (fold_left scanColumn info (mkTable tableName [] "")).

(** ** Query builder (lines 215-250) *)

(** The [switch cfg.Filter] of lines 220-230; [op] stays empty otherwise. *)
Definition filterOp (filter : string) : string :=
  if String.eqb filter "gt" then ">"
  else if String.eqb filter "lt" then "<"
  else if String.eqb filter "gte" then ">="
  else if String.eqb filter "lte" then "<="
  else "".

(** [cols := append([]string{table.pkCol}, table.columns...)] *)
Definition selectCols (table : Table) : list string :=
  pkCol table :: columns table.

Definition buildSelectQuery (table : Table) (cfg : Config) : string :=
  let cols := selectCols table in
  let query := "SELECT " +:+ String.concat ", " cols +:+ " FROM " +:+ name table in
  if negb (String.eqb (Filter cfg) "") && negb (String.eqb (Value cfg) "")
  then
    let op := filterOp (Filter cfg) in
    if negb (String.eqb op "")
    then query +:+ " WHERE " +:+ pkCol table +:+ " " +:+ op +:+ " ?"
    else query
  else query.

Definition buildInsertQuery (table : Table) : string :=
  let cols := selectCols table in
  let placeholders := map (fun _ => "?") cols in
  "INSERT OR REPLACE INTO " +:+ name table +:+ " (" +:+ String.concat ", " cols
    +:+ ") VALUES (" +:+ String.concat ", " placeholders +:+ ")".

(** Line 146. *)
Definition buildDeleteQuery (table : Table) : string :=
  "DELETE FROM " +:+ name table +:+ " WHERE " +:+ pkCol table +:+ " = ?".

(** Line 185. *)
Definition buildSourceIDsQuery (table : Table) : string :=
  "SELECT " +:+ pkCol table +:+ " FROM " +:+ name table.

(** [strings.Repeat("?,", n)] with the trailing comma cut off (lines 201-202);
    only reached with [0 < n]. *)
Fixpoint repeatString (s : string) (n : nat) : string :=
  match n with
  | O => ""
  | S n' => s +:+ repeatString s n'
  end.

Definition dropLast (s : string) : string :=
  substring 0 (String.length s - 1) s.

Definition buildOrphanDeleteQuery (table : Table) (n : nat) : string :=
  let placeholders := dropLast (repeatString "?," n) in
  "DELETE FROM " +:+ name table +:+ " WHERE " +:+ pkCol table
    +:+ " NOT IN (" +:+ placeholders +:+ ")".

(** ** SQL statements in parsed form

    The engine below is handed statements in parsed form; [sql] gives their
    text, and the lemmas [sql_selectStmt] ... show that it is the text the Go
    code builds. *)

Inductive Stmt :=
| Select (cols : list string) (from : string) (cond : option (string * string))
| InsertOrReplace (into : string) (cols : list string)
| DeleteEq (from col : string)
| DeleteNotIn (from col : string) (n : nat).

Definition sql (s : Stmt) : string :=
  match s with
  | Select cols from cond =>
      let query := "SELECT " +:+ String.concat ", " cols +:+ " FROM " +:+ from in
      match cond with
      | Some (col, op) => query +:+ " WHERE " +:+ col +:+ " " +:+ op +:+ " ?"
      | None => query
      end
  | InsertOrReplace into cols =>
      "INSERT OR REPLACE INTO " +:+ into +:+ " (" +:+ String.concat ", " cols
        +:+ ") VALUES (" +:+ String.concat ", " (map (fun _ => "?") cols) +:+ ")"
  | DeleteEq from col =>
      "DELETE FROM " +:+ from +:+ " WHERE " +:+ col +:+ " = ?"
  | DeleteNotIn from col n =>
      "DELETE FROM " +:+ from +:+ " WHERE " +:+ col
        +:+ " NOT IN (" +:+ dropLast (repeatString "?," n) +:+ ")"
  end.

Definition stmtTable (s : Stmt) : string :=
  match s with
  | Select _ from _ => from
  | InsertOrReplace into _ => into
  | DeleteEq from _ => from
  | DeleteNotIn from _ _ => from
  end.

(** Number of [?] placeholders. *)
Definition numInput (s : Stmt) : nat :=
  match s with
  | Select _ _ (Some _) => 1
  | Select _ _ None => 0
  | InsertOrReplace _ cols => length cols
  | DeleteEq _ _ => 1
  | DeleteNotIn _ _ n => n
  end.

(** The condition appended at lines 219-234, if any: column and operator. *)
Definition filterCond (table : Table) (cfg : Config) : option (string * string) :=
  if negb (String.eqb (Filter cfg) "") && negb (String.eqb (Value cfg) "")
  then
    let op := filterOp (Filter cfg) in
    if negb (String.eqb op "") then Some (pkCol table, op) else None
  else None.

Definition selectStmt (table : Table) (cfg : Config) : Stmt :=
  Select (selectCols table) (name table) (filterCond table cfg).

Definition insertStmt (table : Table) : Stmt :=
  InsertOrReplace (name table) (selectCols table).

Definition deleteStmt (table : Table) : Stmt :=
  DeleteEq (name table) (pkCol table).

Definition sourceIDsStmt (table : Table) : Stmt :=
  Select [pkCol table] (name table) None.

Definition orphanDeleteStmt (table : Table) (n : nat) : Stmt :=
  DeleteNotIn (name table) (pkCol table) n.

(** ** Errors

    A Go [error] is either one returned by a [database/sql] call or one
    wrapped by [fmt.Errorf("<context>: %w", err)]. *)

Inductive error :=
| EngineError (call : string)
| Wrapped (context : string) (cause : error).

Fixpoint Error (e : error) : string :=
  match e with
  | EngineError call => call
  | Wrapped context cause => context +:+ ": " +:+ Error cause
  end.

(** ** The storage engine

    [Datum] is a column value as [database/sql] hands it over ([interface{}] in
    the Go code); the synchroniser never looks inside one.  A table's rows are
    a finite map from the value of the key column ([pkCol]) to the values of
    [columns], so a key names at most one row, as a single-column primary key
    or the rowid does.  A database is its catalog ([sqlite_master] with the
    [table_info] of each table, in the order the catalog query returns them)
    and the rows of each table.

    What the engine is free to choose is a parameter: the order in which a
    query enumerates rows, and how [key op ?] compares a stored key with the
    bound text (the engine's own type coercion).

    This is the engine on tables whose key column is unique and never NULL
    and is the only uniqueness constraint, without triggers, with cursors
    that are read to their end; source and target are two databases.  The
    module [General] below models the engine without the assumptions on keys,
    constraints, triggers and cursors. *)

Section Model.
Context {Datum : Type} `{Countable Datum}.

Record Database := mkDatabase {
  catalog : list (string * list ColumnInfo);
  data : gmap string (gmap Datum (list Datum))
}.

Record Engine := mkEngine {
  enumerate : gmap Datum (list Datum) -> list (Datum * list Datum);
  enumerate_perm : forall m, enumerate m ≡ₚ map_to_list m;
  compare_key : string -> Datum -> string -> bool
}.

(** The state a run of [Sync] acts on: the fault oracle (one entry is consumed
    by each call that can return an error: [true] makes it fail; an exhausted
    oracle never fails), the target database as committed, and the working
    copy of the open transaction, if any. *)
Record World := mkWorld {
  oracle : list bool;
  target : Database;
  txn : option (gmap string (gmap Datum (list Datum)))
}.

Definition M (A : Type) : Type := World -> (error + A) * World.

Definition ret {A} (a : A) : M A := fun w => (inr a, w).

Definition fail {A} (e : error) : M A := fun w => (inl e, w).

Definition bind {A B} (m : M A) (f : A -> M B) : M B :=
  fun w =>
    match m w with
    | (inl e, w') => (inl e, w')
    | (inr a, w') => f a w'
    end.

(** [fmt.Errorf("<context>: %w", err)] on the error path. *)
Definition wrap {A} (context : string) (m : M A) : M A :=
  fun w =>
    match m w with
    | (inl e, w') => (inl (Wrapped context e), w')
    | (inr a, w') => (inr a, w')
    end.

(** [defer cleanup()]: runs on every exit of [m]. *)
Definition defer {A} (cleanup : World -> World) (m : M A) : M A :=
  fun w => let (r, w') := m w in (r, cleanup w').

End Model.

Arguments Database Datum {_ _}.
Arguments Engine Datum {_ _}.
Arguments World Datum {_ _}.
Arguments M Datum {_ _} A.

Declare Scope sync_scope.
Delimit Scope sync_scope with sync.
Notation "'let*' x ':=' m 'in' k" := (bind m (fun x => k))
  (at level 10, x name, m at level 100, k at level 200) : sync_scope.
Local Open Scope sync_scope.

Section Operations.
Context {Datum : Type} `{Countable Datum}.
Variable E : Engine Datum.

Local Abbreviation Rows := (gmap Datum (list Datum)).

(** *** Calls into [database/sql] *)

(** Every call that returns an [error] asks the oracle first. *)
Definition call (op : string) : M Datum unit :=
  fun w =>
    match oracle w with
    | [] => (inr tt, w)
    | false :: o => (inr tt, mkWorld o (target w) (txn w))
    | true :: o => (inl (EngineError op), mkWorld o (target w) (txn w))
    end.

(** [dst.Begin()]: the transaction starts from the committed rows. *)
Definition dst_Begin : M Datum unit :=
  let* _ := call "begin" in
  fun w => (inr tt, mkWorld (oracle w) (target w) (Some (data (target w)))).

(** [tx.Prepare(query)]: fails when the table does not exist in the target. *)
Definition tx_Prepare (s : Stmt) : M Datum unit :=
  let* _ := call "prepare" in
  fun w =>
    match txn w with
    | None => (inl (EngineError "transaction has already been committed or rolled back"), w)
    | Some d =>
        match d !! stmtTable s with
        | None => (inl (EngineError "no such table"), w)
        | Some _ => (inr tt, w)
        end
    end.

(** Whether a stored key passes the statement's condition, the placeholder
    bound to the first argument. *)
Definition keyInScope (cond : option (string * string)) (args : list string) (k : Datum) : bool :=
  match cond, args with
  | Some (_, op), arg :: _ => compare_key E op k arg
  | _, _ => true
  end.

Definition selectCond (s : Stmt) : option (string * string) :=
  match s with
  | Select _ _ cond => cond
  | _ => None
  end.

Definition selectRows (s : Stmt) (args : list string) (rows : Rows) : Rows :=
  filter (fun kv => keyInScope (selectCond s) args kv.1 = true) rows.

(** [src.Query(query, args...)]: a cursor over the rows in scope.  The driver
    refuses a call with fewer arguments than placeholders and leaves surplus
    arguments unused. *)
Definition src_Query (src : Database Datum) (s : Stmt) (args : list string)
  : M Datum (list (Datum * list Datum)) :=
  let* _ := call "query" in
  match data src !! stmtTable s with
  | None => fail (EngineError "no such table")
  | Some rows =>
      if (length args <? numInput s)%nat
      then fail (EngineError "not enough args to execute query")
      else ret (enumerate E (selectRows s args rows))
  end.

(** [rows.Scan(scanPtrs...)] for the select of [pkCol] followed by [columns]:
    the key comes first. *)
Definition rows_Scan (r : Datum * list Datum) : M Datum (list Datum) :=
  let* _ := call "scan" in
  ret (r.1 :: r.2).

(** [srcRows.Scan(&id)] for the select of [pkCol] alone. *)
Definition srcRows_Scan (r : Datum * list Datum) : M Datum Datum :=
  let* _ := call "scan" in
  ret r.1.

(** [insert.Exec(values...)]: insert, or replace the row with the same key. *)
Definition insert_Exec (s : Stmt) (values : list Datum) : M Datum unit :=
  let* _ := call "exec" in
  fun w =>
    match txn w, values with
    | Some d, k :: cells =>
        match d !! stmtTable s with
        | Some rows =>
            (inr tt, mkWorld (oracle w) (target w) (Some (<[stmtTable s := <[k := cells]> rows]> d)))
        | None => (inl (EngineError "no such table"), w)
        end
    | Some _, [] => (inl (EngineError "not enough args to execute query"), w)
    | None, _ => (inl (EngineError "transaction has already been committed or rolled back"), w)
    end.

(** [tx.Exec("DELETE ... WHERE pk NOT IN (?,...)", sourceIDs...)]. *)
Definition tx_Exec (s : Stmt) (ids : list Datum) : M Datum unit :=
  let* _ := call "exec" in
  fun w =>
    match txn w with
    | Some d =>
        match d !! stmtTable s with
        | Some rows =>
            (inr tt, mkWorld (oracle w) (target w)
               (Some (<[stmtTable s := filter (fun kv => kv.1 ∈ ids) rows]> d)))
        | None => (inl (EngineError "no such table"), w)
        end
    | None => (inl (EngineError "transaction has already been committed or rolled back"), w)
    end.

(** [tx.Commit()]: the working copy becomes the committed state; when the
    commit fails the driver rolls the transaction back. *)
Definition tx_Commit : M Datum unit :=
  fun w =>
    match txn w with
    | None => (inl (EngineError "transaction has already been committed or rolled back"), w)
    | Some d =>
        match oracle w with
        | true :: o => (inl (EngineError "commit"), mkWorld o (target w) None)
        | false :: o => (inr tt, mkWorld o (mkDatabase (catalog (target w)) d) None)
        | [] => (inr tt, mkWorld [] (mkDatabase (catalog (target w)) d) None)
        end
    end.

(** [tx.Rollback()], deferred: drops the working copy; after a commit there
    is none left and the call changes nothing. *)
Definition tx_Rollback (w : World Datum) : World Datum :=
  mkWorld (oracle w) (target w) None.

(** *** [syncTable] (lines 131-213) *)

(** Lines 172-179. *)
Fixpoint copyRows (insert : Stmt) (rows : list (Datum * list Datum)) : M Datum unit :=
  match rows with
  | [] => ret tt
  | r :: rows' =>
      let* values := rows_Scan r in
      let* _ := insert_Exec insert values in
      copyRows insert rows'
  end.

(** Lines 191-197. *)
Fixpoint collectIDs (srcRows : list (Datum * list Datum)) (sourceIDs : list Datum)
  : M Datum (list Datum) :=
  match srcRows with
  | [] => ret sourceIDs
  | r :: srcRows' =>
      let* id := wrap "scanning source ID" (srcRows_Scan r) in
      collectIDs srcRows' (sourceIDs ++ [id])%list
  end.

(** Lines 181-210. *)
Definition deleteOrphaned (src : Database Datum) (table : Table) (cfg : Config) : M Datum unit :=
  if negb (NoDelete cfg)
  then
    let* srcRows := wrap "querying source IDs" (src_Query src (sourceIDsStmt table) []) in
    let* sourceIDs := collectIDs srcRows [] in
    if (0 <? length sourceIDs)%nat
    then wrap "deleting orphaned rows"
           (tx_Exec (orphanDeleteStmt table (length sourceIDs)) sourceIDs)
    else ret tt
  else ret tt.

(** Lines 138-212, everything after [defer tx.Rollback()]. *)
Definition syncTable_body (src : Database Datum) (table : Table) (cfg : Config) : M Datum unit :=
  let insertQuery := insertStmt table in
  let* _ := tx_Prepare insertQuery in
  let* _ := tx_Prepare (deleteStmt table) in
  let selectQuery := selectStmt table cfg in
  let* rows :=
    (if negb (String.eqb (Value cfg) "")
     then src_Query src selectQuery [Value cfg]
     else src_Query src selectQuery []) in
  let* _ := copyRows insertQuery rows in
  let* _ := deleteOrphaned src table cfg in
  tx_Commit.

Definition syncTable (src : Database Datum) (table : Table) (cfg : Config) : M Datum unit :=
  let* _ := dst_Begin in
  defer tx_Rollback (syncTable_body src table cfg).

(** *** [getTableInfo] and [getTables] (lines 73-129) *)

(** [PRAGMA table_info(t)]: no rows for a table the catalog does not have. *)
Fixpoint table_info (cat : list (string * list ColumnInfo)) (tableName : string)
  : list ColumnInfo :=
  match cat with
  | [] => []
  | (n, info) :: cat' => if String.eqb n tableName then info else table_info cat' tableName
  end.

(** Lines 106-122. *)
Fixpoint scanColumns (rows : list ColumnInfo) (table : Table) : M Datum Table :=
  match rows with
  | [] => ret table
  | c :: rows' =>
      let* _ := call "scan" in
      scanColumns rows' (scanColumn table c)
  end.

Definition getTableInfo (db : Database Datum) (tableName : string) : M Datum Table :=
  let* _ := call "query" in
  let* table := scanColumns (table_info (catalog db) tableName) (mkTable tableName [] "") in
  ret (defaultPk table).

(** Lines 81-92. *)
Fixpoint scanTables (db : Database Datum) (names : list string) (tables : list Table)
  : M Datum (list Table) :=
  match names with
  | [] => ret tables
  | n :: names' =>
      let* _ := call "scan" in
      let* table := getTableInfo db n in
      scanTables db names' (tables ++ [table])%list
  end.

Definition getTables (db : Database Datum) : M Datum (list Table) :=
  let* _ := call "query" in
  scanTables db (map fst (catalog db)) [].

(** *** [Sync] (lines 25-65) *)

(** Lines 45-48: [tableMap[t] = true] for every allowlisted name. *)
Definition buildTableMap (names : list string) : gmap string bool :=
  fold_left (fun m t => <[t := true]> m) names ∅.

(** Lines 50-56; a missing key reads as [false]. *)
Definition filterTables (tableMap : gmap string bool) (tables : list Table) : list Table :=
  fold_left
    (fun (filteredTables : list Table) (table : Table) =>
       if default false (tableMap !! name table)
       then (filteredTables ++ [table])%list
       else filteredTables)
    tables [].

(** Lines 59-63. *)
Fixpoint syncTables (src : Database Datum) (cfg : Config) (tables : list Table) : M Datum unit :=
  match tables with
  | [] => ret tt
  | table :: tables' =>
      let* _ := wrap ("syncing table " +:+ name table) (syncTable src table cfg) in
      syncTables src cfg tables'
  end.

(** Lines 44-57. *)
Definition retainTables (cfg : Config) (tables : list Table) : list Table :=
  if (0 <? length (Tables cfg))%nat
  then filterTables (buildTableMap (Tables cfg)) tables
  else tables.

(** [src] is the database opened from [cfg.SrcDbPath]; the one opened from
    [cfg.DstDbPath] is the [target] of the world. *)
Definition Sync (src : Database Datum) (cfg : Config) : M Datum unit :=
  let* _ := wrap "opening source db" (call "open") in
  let* _ := wrap "opening target db" (call "open") in
  let* tables := getTables src in
  let tables := retainTables cfg tables in
  syncTables src cfg tables.

End Operations.

(** ** What one table's synchronisation computes

    The rows a successful [syncTable] leaves in the target table, as a function
    of the source rows and the target rows before: the rows in the scope of
    the select replace or extend the target's, and, unless deletion is
    suppressed or no source key was collected, rows whose key is not a source
    key go.  The section also names the parts of [Sync] and [syncTable] the
    proofs speak about, and the relations between worlds they use. *)

Section Specification.
Context {Datum : Type} `{Countable Datum}.
Variable E : Engine Datum.

(** The argument list of [src.Query] at lines 155-159. *)
Definition copyArgs (cfg : Config) : list string :=
  if negb (String.eqb (Value cfg) "") then [Value cfg] else [].

Definition copyScope (table : Table) (cfg : Config) (srcRows : gmap Datum (list Datum))
  : gmap Datum (list Datum) :=
  selectRows E (selectStmt table cfg) (copyArgs cfg) srcRows.

Definition upsertAll (rows : list (Datum * list Datum)) (dstRows : gmap Datum (list Datum))
  : gmap Datum (list Datum) :=
  fold_left (fun m r => <[r.1 := r.2]> m) rows dstRows.

(** Lines 181-210 on the target rows: nothing goes when deletion is suppressed
    or when no source key was collected. *)
Definition deleteScope (cfg : Config) (srcRows rows : gmap Datum (list Datum))
  : gmap Datum (list Datum) :=
  if NoDelete cfg then rows
  else if decide (srcRows = ∅) then rows
  else filter (fun kv => kv.1 ∈ dom srcRows) rows.

Definition reconcile (table : Table) (cfg : Config) (srcRows dstRows : gmap Datum (list Datum))
  : gmap Datum (list Datum) :=
  deleteScope cfg srcRows (copyScope table cfg srcRows ∪ dstRows).

(** The rows of a table, none when the database has no such table. *)
Definition rowsOf (db : Database Datum) (t : string) : gmap Datum (list Datum) :=
  default ∅ (data db !! t).

(** Everything [syncTable] does between [Begin] and [Commit]. *)
Definition syncTable_work (src : Database Datum) (table : Table) (cfg : Config) : M Datum unit :=
  let* _ := tx_Prepare (insertStmt table) in
  let* _ := tx_Prepare (deleteStmt table) in
  let* rows := src_Query E src (selectStmt table cfg) (copyArgs cfg) in
  let* _ := copyRows (insertStmt table) rows in
  deleteOrphaned E src table cfg.

(** A computation that leaves a component of the world alone. *)
Definition keeps {A B} (part : World Datum -> B) (m : M Datum A) : Prop :=
  forall w, part (m w).2 = part w.

Definition keeps_target {A} (m : M Datum A) : Prop := keeps target m.

(** The committed target and the working copy: all but the oracle. *)
Definition store (w : World Datum) : Database Datum * option (gmap string (gmap Datum (list Datum))) :=
  (target w, txn w).

(** Lines 26-41 of [Sync]: both handles opened and the tables listed. *)
Definition discover (src : Database Datum) : M Datum (list Table) :=
  let* _ := wrap "opening source db" (call "open") in
  let* _ := wrap "opening target db" (call "open") in
  getTables src.

(** The descriptors [getTables] builds, in catalog order. *)
Definition describe (src : Database Datum) : list Table :=
  map (fun n => buildTable n (table_info (catalog src) n)) (map fst (catalog src)).

(** One table synchronised by an engine that never fails: the target after,
    or nothing when the table is missing on either side. *)
Definition syncStep (src : Database Datum) (cfg : Config) (table : Table) (dst : Database Datum)
  : option (Database Datum) :=
  match data dst !! name table, data src !! name table with
  | Some dstRows, Some srcRows =>
      Some (mkDatabase (catalog dst)
              (<[name table := reconcile table cfg srcRows dstRows]> (data dst)))
  | _, _ => None
  end.




(** A world with no transaction open and an engine that never fails. *)
Definition quiet (dst : Database Datum) : World Datum := mkWorld [] dst None.

End Specification.

(** ** A concrete engine, for running the model

    Cells as tagged values; keys compare numerically with a decimal
    argument, as SQLite does for an integer key column. *)

Inductive cell :=
| CNull
| CInt (n : Z)
| CReal (mantissa exponent : Z)
| CText (s : string).

Definition cell_encode (c : cell) : unit + Z + (Z * Z) + string :=
  match c with
  | CNull => inl (inl (inl tt))
  | CInt n => inl (inl (inr n))
  | CReal m e => inl (inr (m, e))
  | CText s => inr s
  end.

Definition cell_decode (x : unit + Z + (Z * Z) + string) : cell :=
  match x with
  | inl (inl (inl _)) => CNull
  | inl (inl (inr n)) => CInt n
  | inl (inr (m, e)) => CReal m e
  | inr s => CText s
  end.

#[global] Instance cell_eq_dec : EqDecision cell.
Proof. solve_decision. Defined.

#[global] Instance cell_countable : Countable cell.
Proof.
  apply (inj_countable' cell_encode cell_decode).
  intros []; reflexivity.
Defined.

Definition digitValue (a : Ascii.ascii) : option Z :=
  let n := Z.of_nat (Ascii.nat_of_ascii a) in
  if (48 <=? n) && (n <=? 57) then Some (n - 48) else None.

Fixpoint parseDigits (s : string) (acc : Z) : option Z :=
  match s with
  | EmptyString => Some acc
  | String a s' =>
      match digitValue a with
      | Some d => parseDigits s' (10 * acc + d)
      | None => None
      end
  end.

Definition parseInt (s : string) : option Z :=
  match s with
  | EmptyString => None
  | String "045"%char s' => Z.opp <$> parseDigits s' 0
  | _ => parseDigits s 0
  end.

Definition cellCompare (op : string) (k : cell) (arg : string) : bool :=
  match k, parseInt arg with
  | CInt n, Some v =>
      if String.eqb op ">" then v <? n
      else if String.eqb op "<" then n <? v
      else if String.eqb op ">=" then v <=? n
      else if String.eqb op "<=" then n <=? v
      else false
  | _, _ => false
  end.

Definition sqliteEngine : Engine cell :=
  mkEngine map_to_list (fun m => reflexivity (map_to_list m)) cellCompare.


Definition tableOf (rows : list (list cell)) : gmap cell (list cell) :=
  list_to_map (omap (fun r => match r with k :: _ => Some (k, r) | [] => None end) rows).

Definition intKeyInfo (key : string) (others : list string) : list ColumnInfo :=
  mkColumnInfo 0 key "INTEGER" 0 None 1
  :: imap (fun i c => mkColumnInfo (Z.of_nat (S i)) c "" 0 None 0) others.

(** The fixtures of [TestSync]. *)

Definition users_info : list ColumnInfo := intKeyInfo "id" ["name"; "email"].
Definition orders_info : list ColumnInfo := intKeyInfo "order_id" ["user_id"; "amount"].
Definition products_info : list ColumnInfo := intKeyInfo "id" ["name"; "price"].
Definition categories_info : list ColumnInfo := intKeyInfo "id" ["name"].

Definition users_src : list (list cell) :=
  [ [CInt 1; CText "Alice"; CText "alice@test.com"];
    [CInt 2; CText "Bob"; CText "bob@test.com"] ].
Definition users_tgt : list (list cell) :=
  [ [CInt 1; CText "Alice Old"; CText "alice.old@test.com"];
    [CInt 3; CText "Charlie"; CText "charlie@test.com"] ].
Definition orders_src : list (list cell) :=
  [ [CInt 101; CInt 1; CReal 9999 (-2)];
    [CInt 102; CInt 2; CReal 14999 (-2)] ].
Definition orders_tgt : list (list cell) :=
  [ [CInt 101; CInt 1; CReal 8999 (-2)];
    [CInt 103; CInt 3; CReal 19999 (-2)] ].
Definition products_src : list (list cell) :=
  [ [CInt 1; CText "Item 1"; CReal 100 (-1)];
    [CInt 2; CText "Item 2"; CReal 200 (-1)];
    [CInt 3; CText "Item 3"; CReal 300 (-1)] ].
Definition products_tgt : list (list cell) :=
  [ [CInt 1; CText "Old Item 1"; CReal 90 (-1)];
    [CInt 2; CText "Old Item 2"; CReal 190 (-1)];
    [CInt 3; CText "Old Item 3"; CReal 290 (-1)] ].
Definition categories_src : list (list cell) :=
  [ [CInt 1; CText "Category 1"]; [CInt 2; CText "Category 2"] ].
Definition categories_tgt : list (list cell) :=
  [ [CInt 1; CText "Old Category 1"]; [CInt 3; CText "Category 3"] ].

Definition testDb (tables : list (string * list ColumnInfo * list (list cell))) : Database cell :=
  mkDatabase (map fst tables)
             (list_to_map (map (fun t => (t.1.1, tableOf t.2)) tables)).

Definition shop_src : Database cell :=
  testDb [ ("users", users_info, users_src); ("orders", orders_info, orders_src) ].
Definition shop_tgt : Database cell :=
  testDb [ ("users", users_info, users_tgt); ("orders", orders_info, orders_tgt) ].
Definition products_src_db : Database cell := testDb [ ("products", products_info, products_src) ].
Definition products_tgt_db : Database cell := testDb [ ("products", products_info, products_tgt) ].
Definition categories_src_db : Database cell :=
  testDb [ ("categories", categories_info, categories_src) ].
Definition categories_tgt_db : Database cell :=
  testDb [ ("categories", categories_info, categories_tgt) ].

Definition testConfig (filter value : string) (nodelete : bool) (tables : list string) : Config :=
  mkConfig filter value nodelete tables "test_src.db" "test_tgt.db".

Definition runSync (E : Engine cell) (faults : list bool) (src dst : Database cell) (cfg : Config)
  : option error * Database cell :=
  match Sync E src cfg (mkWorld faults dst None) with
  | (inl e, w) => (Some e, target w)
  | (inr _, w) => (None, target w)
  end.

(** Further fixtures: a source table without rows, a table with a two-column
    primary key, and a target that lacks one of the source's tables. *)

Definition categories_empty_db : Database cell :=
  testDb [ ("categories", categories_info, []) ].

Definition pairs_info : list ColumnInfo :=
  [ mkColumnInfo 0 "a" "INTEGER" 1 None 1;
    mkColumnInfo 1 "b" "INTEGER" 1 None 2;
    mkColumnInfo 2 "v" "TEXT" 0 None 0 ].

Definition pairs_db : Database cell := testDb [ ("pairs", pairs_info, []) ].

Definition notes_info : list ColumnInfo :=
  [ mkColumnInfo 0 "body" "TEXT" 0 None 0 ].

Definition notes_db : Database cell := testDb [ ("notes", notes_info, []) ].

Definition three_src : Database cell :=
  testDb [ ("users", users_info, users_src);
           ("orders", orders_info, orders_src);
           ("categories", categories_info, categories_src) ].

Definition three_tgt : Database cell :=
  testDb [ ("users", users_info, users_tgt);
           ("categories", categories_info, categories_tgt) ].

(** [three_tgt] after the first table of [three_src] was synchronised. *)
Definition three_mid : Database cell :=
  testDb [ ("users", users_info, users_src);
           ("categories", categories_info, categories_tgt) ].

Definition products_tgt4 : list (list cell) :=
  (products_tgt ++ [ [CInt 4; CText "Old Item 4"; CReal 390 (-1)] ])%list.

Definition products_tgt4_db : Database cell :=
  testDb [ ("products", products_info, products_tgt4) ].

(** Faults that let [syncTable] reach the second row and fail its upsert:
    Begin, two Prepares, the select, Scan and Exec of the first row, Scan of
    the second row succeed, then Exec fails. *)
Definition second_upsert_fails : list bool :=
  [false; false; false; false; false; false; false; true].

Definition users_table : Table := mkTable "users" ["id"; "name"; "email"] "id".
Definition orders_table : Table := mkTable "orders" ["order_id"; "user_id"; "amount"] "order_id".
Definition categories_table : Table := mkTable "categories" ["id"; "name"] "id".

(** [joinStrings] of the test file (lines 644-653 of the unnamed part). *)
Definition joinStrings (strs : list string) (sep : string) : string :=
  match strs with
  | [] => ""
  | first :: rest => fold_left (fun result s => result +:+ (sep +:+ s)) rest first
  end.

(** An error as a call into [database/sql] returned it, wrapped by nobody. *)
Definition unwrapped (e : error) : Prop := exists op, e = EngineError op.

(** A computation whose every error satisfies [P]. *)
Definition raises {Datum : Type} `{Countable Datum} {A} (P : error -> Prop) (m : M Datum A)
  : Prop :=
  forall w e w', m w = (inl e, w') -> P e.

(** ** The engine in full

    The model above keeps a table as a finite map from key to row and lets
    the engine replace and delete by key.  SQLite behaves so on a table whose
    key column is its only uniqueness constraint and is never NULL, that has
    no trigger, whose name is a plain identifier, and as long as every cursor
    is read to its end.  [General] embeds the same functions of [sync.go]
    over an engine that makes none of these assumptions:

    - a table is the list of its rows, each the value of the key column
      ([pkCol]) and the values of [columns]; a key value may occur in
      several rows (the last column of a composite primary key, a NULL);
    - [INSERT OR REPLACE] deletes every row that conflicts with the new one
      on any uniqueness constraint of the table, then inserts; a NULL
      conflicts with nothing;
    - [NOT IN] follows SQL's three-valued logic: for a NULL key, or with a
      NULL among the bound values, the condition is not true and the row
      stays;
    - executing a statement may write more than the statement says (triggers,
      the [sqlite_sequence] bookkeeping of AUTOINCREMENT);
    - the Go code splices table names into the statement text unquoted, and
      the engine reads the text: a name may be read as another table or not
      be readable at all;
    - a statement binds at most [max_vars] values;
    - a cursor may stop before the last row: [rows.Next()] returns false on
      an error as it does at the end, and the Go code never calls
      [rows.Err()].

    Below the rows (hidden rowids, pages, the values' storage classes)
    nothing is modelled. *)

Module General.

Section Model.
Context {Datum : Type}.

(** A database: the catalog as before, the rows of each table, and what the
    schema says beyond the columns.  [uniques t] lists the uniqueness
    constraints of table [t], the primary key included, each as the
    positions it covers in a row laid out as the select returns it (the key
    column at position 0, then [columns]).  [hooks s args before d] is the
    database after the engine has done all that executing statement [s] on
    [args] entails, [d] being the rows after the statement's own effect on
    [before]. *)
Record Db := mkDb {
  catalog : list (string * list ColumnInfo);
  data : gmap string (list (Datum * list Datum));
  uniques : string -> list (list nat);
  hooks : Stmt -> list Datum -> gmap string (list (Datum * list Datum))
          -> gmap string (list (Datum * list Datum))
          -> gmap string (list (Datum * list Datum))
}.

(** What the engine decides: which values are NULL, how [key op ?] compares
    a stored key with the bound text, which table an unquoted name in a
    statement denotes (none when the text does not parse), and how many
    values a statement may bind. *)
Record Sqlite := mkSqlite {
  null : Datum -> bool;
  compares : string -> Datum -> string -> bool;
  parse_name : string -> option string;
  max_vars : N
}.

(** The state of a run: the fault oracle as before; for each cursor opened,
    in order, after how many rows it breaks off ([None], or no entry: it is
    read to its end); the committed target; the working copy of the open
    transaction. *)
Record State := mkState {
  oracle : list bool;
  cursors : list (option nat);
  target : Db;
  txn : option (gmap string (list (Datum * list Datum)))
}.

Definition M (A : Type) : Type := State -> (error + A) * State.

Definition ret {A} (a : A) : M A := fun w => (inr a, w).

Definition fail {A} (e : error) : M A := fun w => (inl e, w).

Definition bind {A B} (m : M A) (f : A -> M B) : M B :=
  fun w =>
    match m w with
    | (inl e, w') => (inl e, w')
    | (inr a, w') => f a w'
    end.

Definition wrap {A} (context : string) (m : M A) : M A :=
  fun w =>
    match m w with
    | (inl e, w') => (inl (Wrapped context e), w')
    | (inr a, w') => (inr a, w')
    end.

Definition defer {A} (cleanup : State -> State) (m : M A) : M A :=
  fun w => let (r, w') := m w in (r, cleanup w').

(** The database with other rows. *)
Definition withData (db : Db) (d : gmap string (list (Datum * list Datum))) : Db :=
  mkDb (catalog db) d (uniques db) (hooks db).

End Model.

Arguments Db Datum : clear implicits.
Arguments Sqlite Datum : clear implicits.
Arguments State Datum : clear implicits.
Arguments M Datum A : clear implicits.

Declare Scope general_scope.
Delimit Scope general_scope with general.
Notation "'let*' x ':=' m 'in' k" := (bind m (fun x => k))
  (at level 10, x name, m at level 100, k at level 200) : general_scope.
Local Open Scope general_scope.

Section Operations.
Context {Datum : Type} `{EqDecision Datum}.
Variable E : Sqlite Datum.

Local Abbreviation Data := (gmap string (list (Datum * list Datum))).

(** *** The engine's statements on rows *)

(** Two rows agree on a constraint when they hold the same non-NULL value at
    each of its positions. *)
Definition agree (c : list nat) (r r' : list Datum) : bool :=
  forallb (fun i => match r !! i, r' !! i with
                    | Some x, Some y => negb (null E x) && bool_decide (x = y)
                    | _, _ => false
                    end) c.

Definition conflict (cs : list (list nat)) (r r' : Datum * list Datum) : bool :=
  existsb (fun c => agree c (r.1 :: r.2) (r'.1 :: r'.2)) cs.

(** [INSERT OR REPLACE] of one row. *)
Definition replaceInto (cs : list (list nat)) (r : Datum * list Datum)
    (rows : list (Datum * list Datum)) : list (Datum * list Datum) :=
  (filter (fun r' => conflict cs r r' = false) rows ++ [r])%list.

(** Whether [k NOT IN (ids)] is true. *)
Definition notIn (k : Datum) (ids : list Datum) : bool :=
  negb (null E k) && forallb (fun i => negb (null E i) && negb (bool_decide (k = i))) ids.

(** [DELETE ... WHERE pk NOT IN (ids)]. *)
Definition deleteNotIn (ids : list Datum) (rows : list (Datum * list Datum))
  : list (Datum * list Datum) :=
  filter (fun r => notIn r.1 ids = false) rows.

(** The table a statement is about, as the engine reads its name. *)
Definition tableOf (s : Stmt) : option string := parse_name E (stmtTable s).

(** Executing the insert on a database. *)
Definition insertRow (db : Db Datum) (s : Stmt) (values : list Datum) (d : Data) : error + Data :=
  match values, tableOf s with
  | _, None => inl (EngineError "syntax error")
  | [], _ => inl (EngineError "not enough args to execute query")
  | k :: cells, Some t =>
      match d !! t with
      | Some rows => inr (hooks db s values d (<[t := replaceInto (uniques db t) (k, cells) rows]> d))
      | None => inl (EngineError "no such table")
      end
  end.

(** Executing the batched delete on a database. *)
Definition deleteRows (db : Db Datum) (s : Stmt) (ids : list Datum) (d : Data) : error + Data :=
  match tableOf s with
  | None => inl (EngineError "syntax error")
  | Some t =>
      match d !! t with
      | Some rows =>
          if (max_vars E <? N.of_nat (length ids))%N
          then inl (EngineError "too many SQL variables")
          else inr (hooks db s ids d (<[t := deleteNotIn ids rows]> d))
      | None => inl (EngineError "no such table")
      end
  end.

(** *** Calls into [database/sql] *)

Definition call (op : string) : M Datum unit :=
  fun w =>
    match oracle w with
    | [] => (inr tt, w)
    | false :: o => (inr tt, mkState o (cursors w) (target w) (txn w))
    | true :: o => (inl (EngineError op), mkState o (cursors w) (target w) (txn w))
    end.

(** A cursor over [rows]: what the loop [for rows.Next()] gets to see. *)
Definition deliver {A} (rows : list A) : M Datum (list A) :=
  fun w =>
    match cursors w with
    | [] => (inr rows, w)
    | None :: cs => (inr rows, mkState (oracle w) cs (target w) (txn w))
    | Some n :: cs => (inr (take n rows), mkState (oracle w) cs (target w) (txn w))
    end.

Definition dst_Begin : M Datum unit :=
  let* _ := call "begin" in
  fun w => (inr tt, mkState (oracle w) (cursors w) (target w) (Some (data (target w)))).

Definition tx_Prepare (s : Stmt) : M Datum unit :=
  let* _ := call "prepare" in
  fun w =>
    match txn w with
    | None => (inl (EngineError "transaction has already been committed or rolled back"), w)
    | Some d =>
        match tableOf s with
        | None => (inl (EngineError "syntax error"), w)
        | Some t =>
            match d !! t with
            | None => (inl (EngineError "no such table"), w)
            | Some _ => (inr tt, w)
            end
        end
    end.

Definition keyInScope (cond : option (string * string)) (args : list string) (k : Datum) : bool :=
  match cond, args with
  | Some (_, op), arg :: _ => compares E op k arg
  | _, _ => true
  end.

Definition selectRows (s : Stmt) (args : list string) (rows : list (Datum * list Datum))
  : list (Datum * list Datum) :=
  filter (fun r => keyInScope (selectCond s) args r.1 = true) rows.

Definition src_Query (src : Db Datum) (s : Stmt) (args : list string)
  : M Datum (list (Datum * list Datum)) :=
  let* _ := call "query" in
  match tableOf s with
  | None => fail (EngineError "syntax error")
  | Some t =>
      match data src !! t with
      | None => fail (EngineError "no such table")
      | Some rows =>
          if (length args <? numInput s)%nat
          then fail (EngineError "not enough args to execute query")
          else deliver (selectRows s args rows)
      end
  end.

Definition rows_Scan (r : Datum * list Datum) : M Datum (list Datum) :=
  let* _ := call "scan" in
  ret (r.1 :: r.2).

Definition srcRows_Scan (r : Datum * list Datum) : M Datum Datum :=
  let* _ := call "scan" in
  ret r.1.

(** A statement executed in the transaction. *)
Definition tx_write (f : Db Datum -> Data -> error + Data) : M Datum unit :=
  fun w =>
    match txn w with
    | None => (inl (EngineError "transaction has already been committed or rolled back"), w)
    | Some d =>
        match f (target w) d with
        | inl e => (inl e, w)
        | inr d' => (inr tt, mkState (oracle w) (cursors w) (target w) (Some d'))
        end
    end.

(** [insert.Exec(values...)]. *)
Definition insert_Exec (s : Stmt) (values : list Datum) : M Datum unit :=
  let* _ := call "exec" in
  tx_write (fun db => insertRow db s values).

(** [tx.Exec("DELETE ... WHERE pk NOT IN (?,...)", sourceIDs...)]. *)
Definition tx_Exec (s : Stmt) (ids : list Datum) : M Datum unit :=
  let* _ := call "exec" in
  tx_write (fun db => deleteRows db s ids).

Definition tx_Commit : M Datum unit :=
  fun w =>
    match txn w with
    | None => (inl (EngineError "transaction has already been committed or rolled back"), w)
    | Some d =>
        match oracle w with
        | true :: o => (inl (EngineError "commit"), mkState o (cursors w) (target w) None)
        | false :: o => (inr tt, mkState o (cursors w) (withData (target w) d) None)
        | [] => (inr tt, mkState [] (cursors w) (withData (target w) d) None)
        end
    end.

Definition tx_Rollback (w : State Datum) : State Datum :=
  mkState (oracle w) (cursors w) (target w) None.

(** *** [syncTable] (lines 131-213) *)

(** Lines 172-179. *)
Fixpoint copyRows (insert : Stmt) (rows : list (Datum * list Datum)) : M Datum unit :=
  match rows with
  | [] => ret tt
  | r :: rows' =>
      let* values := rows_Scan r in
      let* _ := insert_Exec insert values in
      copyRows insert rows'
  end.

(** Lines 191-197. *)
Fixpoint collectIDs (srcRows : list (Datum * list Datum)) (sourceIDs : list Datum)
  : M Datum (list Datum) :=
  match srcRows with
  | [] => ret sourceIDs
  | r :: srcRows' =>
      let* id := wrap "scanning source ID" (srcRows_Scan r) in
      collectIDs srcRows' (sourceIDs ++ [id])%list
  end.

(** Lines 181-210. *)
Definition deleteOrphaned (src : Db Datum) (table : Table) (cfg : Config) : M Datum unit :=
  if negb (NoDelete cfg)
  then
    let* srcRows := wrap "querying source IDs" (src_Query src (sourceIDsStmt table) []) in
    let* sourceIDs := collectIDs srcRows [] in
    if (0 <? length sourceIDs)%nat
    then wrap "deleting orphaned rows"
           (tx_Exec (orphanDeleteStmt table (length sourceIDs)) sourceIDs)
    else ret tt
  else ret tt.

(** Lines 138-212, everything after [defer tx.Rollback()]. *)
Definition syncTable_body (src : Db Datum) (table : Table) (cfg : Config) : M Datum unit :=
  let insertQuery := insertStmt table in
  let* _ := tx_Prepare insertQuery in
  let* _ := tx_Prepare (deleteStmt table) in
  let selectQuery := selectStmt table cfg in
  let* rows :=
    (if negb (String.eqb (Value cfg) "")
     then src_Query src selectQuery [Value cfg]
     else src_Query src selectQuery []) in
  let* _ := copyRows insertQuery rows in
  let* _ := deleteOrphaned src table cfg in
  tx_Commit.

Definition syncTable (src : Db Datum) (table : Table) (cfg : Config) : M Datum unit :=
  let* _ := dst_Begin in
  defer tx_Rollback (syncTable_body src table cfg).

(** *** [getTableInfo] and [getTables] (lines 73-129) *)

(** Lines 106-122. *)
Fixpoint scanColumns (rows : list ColumnInfo) (table : Table) : M Datum Table :=
  match rows with
  | [] => ret table
  | c :: rows' =>
      let* _ := call "scan" in
      scanColumns rows' (scanColumn table c)
  end.

(** The name is spliced into [PRAGMA table_info(%s)] unquoted as well. *)
Definition getTableInfo (db : Db Datum) (tableName : string) : M Datum Table :=
  let* _ := call "query" in
  match parse_name E tableName with
  | None => fail (EngineError "syntax error")
  | Some t =>
      let* rows := deliver (table_info (catalog db) t) in
      let* table := scanColumns rows (mkTable tableName [] "") in
      ret (defaultPk table)
  end.

(** Lines 81-92. *)
Fixpoint scanTables (db : Db Datum) (names : list string) (tables : list Table)
  : M Datum (list Table) :=
  match names with
  | [] => ret tables
  | n :: names' =>
      let* _ := call "scan" in
      let* table := getTableInfo db n in
      scanTables db names' (tables ++ [table])%list
  end.

Definition getTables (db : Db Datum) : M Datum (list Table) :=
  let* _ := call "query" in
  let* names := deliver (map fst (catalog db)) in
  scanTables db names [].

(** *** [Sync] (lines 25-65) *)

(** Lines 59-63. *)
Fixpoint syncTables (src : Db Datum) (cfg : Config) (tables : list Table) : M Datum unit :=
  match tables with
  | [] => ret tt
  | table :: tables' =>
      let* _ := wrap ("syncing table " +:+ name table) (syncTable src table cfg) in
      syncTables src cfg tables'
  end.

Definition Sync (src : Db Datum) (cfg : Config) : M Datum unit :=
  let* _ := wrap "opening source db" (call "open") in
  let* _ := wrap "opening target db" (call "open") in
  let* tables := getTables src in
  let tables := retainTables cfg tables in
  syncTables src cfg tables.

(** *** What a run computes *)

(** The rows of a table, none when the database has no such table. *)
Definition rowsOf (db : Db Datum) (t : string) : list (Datum * list Datum) :=
  default [] (data db !! t).

(** The rows in the scope of the copy (lines 155-159 and 219-234). *)
Definition copyScope (table : Table) (cfg : Config) (srcRows : list (Datum * list Datum))
  : list (Datum * list Datum) :=
  selectRows (selectStmt table cfg) (copyArgs cfg) srcRows.

(** The loop of lines 172-179 on the working copy. *)
Fixpoint copyData (db : Db Datum) (s : Stmt) (rows : list (Datum * list Datum)) (d : Data)
  : error + Data :=
  match rows with
  | [] => inr d
  | r :: rows' =>
      match insertRow db s (r.1 :: r.2) d with
      | inl e => inl e
      | inr d' => copyData db s rows' d'
      end
  end.

(** Lines 181-210 on the working copy, given the keys collected. *)
Definition deleteData (db : Db Datum) (table : Table) (cfg : Config) (ids : list Datum) (d : Data)
  : error + Data :=
  if NoDelete cfg then inr d
  else if (0 <? length ids)%nat
       then deleteRows db (orphanDeleteStmt table (length ids)) ids d
       else inr d.

(** Everything [syncTable] does between [Begin] and [Commit]. *)
Definition syncTable_work (src : Db Datum) (table : Table) (cfg : Config) : M Datum unit :=
  let* _ := tx_Prepare (insertStmt table) in
  let* _ := tx_Prepare (deleteStmt table) in
  let* rows := src_Query src (selectStmt table cfg) (copyArgs cfg) in
  let* _ := copyRows (insertStmt table) rows in
  deleteOrphaned src table cfg.

(** Lines 26-41 of [Sync]. *)
Definition discover (src : Db Datum) : M Datum (list Table) :=
  let* _ := wrap "opening source db" (call "open") in
  let* _ := wrap "opening target db" (call "open") in
  getTables src.

(** A state with no transaction open, an engine that never fails and cursors
    that are read to their end. *)
Definition quiet (dst : Db Datum) : State Datum := mkState [] [] dst None.

(** One table synchronised from a quiet state: the target after, or the
    error [syncTable] returns. *)
Definition syncStep (src : Db Datum) (cfg : Config) (table : Table) (dst : Db Datum)
  : error + Db Datum :=
  match parse_name E (name table) with
  | None => inl (EngineError "syntax error")
  | Some t =>
      match data dst !! t, data src !! t with
      | Some _, Some srcRows =>
          match copyData dst (insertStmt table) (copyScope table cfg srcRows) (data dst) with
          | inl e => inl e
          | inr d1 =>
              match deleteData dst table cfg srcRows.*1 d1 with
              | inl e => inl (Wrapped "deleting orphaned rows" e)
              | inr d2 => inr (withData dst d2)
              end
          end
      | _, _ => inl (EngineError "no such table")
      end
  end.

(** The loop of [getTables] from a quiet state: the descriptors in catalog
    order, or the error of the first name the engine cannot read. *)
Fixpoint listTables (db : Db Datum) (names : list string) (tables : list Table)
  : error + list Table :=
  match names with
  | [] => inr tables
  | n :: names' =>
      match parse_name E n with
      | None => inl (EngineError "syntax error")
      | Some t => listTables db names' (tables ++ [buildTable n (table_info (catalog db) t)])%list
      end
  end.

Definition listing (db : Db Datum) : error + list Table :=
  listTables db (map fst (catalog db)) [].

(** The copy loop on the rows of one table. *)
Definition upsertAll (cs : list (list nat)) (rows dstRows : list (Datum * list Datum))
  : list (Datum * list Datum) :=
  fold_left (fun acc r => replaceInto cs r acc) rows dstRows.

(** Lines 181-210 on the rows of one table, given the keys collected. *)
Definition sweep (cfg : Config) (ids : list Datum) (rows : list (Datum * list Datum))
  : list (Datum * list Datum) :=
  if NoDelete cfg then rows
  else if (0 <? length ids)%nat then deleteNotIn ids rows else rows.

(** A computation that leaves a component of the state alone. *)
Definition keeps {A B} (part : State Datum -> B) (m : M Datum A) : Prop :=
  forall w, part (m w).2 = part w.

(** The committed target and the working copy. *)
Definition store (w : State Datum)
  : Db Datum * option (gmap string (list (Datum * list Datum))) :=
  (target w, txn w).

(** *** Tables the simple model is right about *)


(** Executing a statement writes what the statement says and no more. *)
Definition noHooks (db : Db Datum) : Prop := forall s args before d, hooks db s args before d = d.

(** The key values of the rows are distinct and none is NULL. *)
Definition keyed (rows : list (Datum * list Datum)) : bool :=
  bool_decide (NoDup rows.*1) && forallb (fun r => negb (null E r.1)) rows.


(** No row has a NULL key. *)
Definition keysNotNull (rows : list (Datum * list Datum)) : bool :=
  forallb (fun r => negb (null E r.1)) rows.

(** No statement's further effects reach table [t]. *)
Definition untouched (db : Db Datum) (t : string) : Prop :=
  forall s args before d, hooks db s args before d !! t = d !! t.

(** What a successful [syncTable] leaves in its table when the key is the
    only constraint, nothing but the statements writes the table and the
    cursors are read to their end. *)
Definition reconcile (table : Table) (cfg : Config)
    (srcRows dstRows : list (Datum * list Datum)) : list (Datum * list Datum) :=
  sweep cfg srcRows.*1 (upsertAll [[0%nat]] (copyScope table cfg srcRows) dstRows).


End Operations.

(** *** A concrete engine *)

Definition isNull (c : cell) : bool :=
  match c with
  | CNull => true
  | _ => false
  end.

Definition isIdentChar (a : Ascii.ascii) : bool :=
  let n := Ascii.nat_of_ascii a in
  ((48 <=? n) && (n <=? 57) || (65 <=? n) && (n <=? 90) || (97 <=? n) && (n <=? 122)
   || (n =? 95))%nat.

Fixpoint isIdent (s : string) : bool :=
  match s with
  | EmptyString => true
  | String a s' => isIdentChar a && isIdent s'
  end.

(** A plain identifier names itself, [main.t] names [t] of the main schema;
    reserved words are not told apart from identifiers here. *)
Definition parseName (n : string) : option string :=
  if negb (String.eqb n "") && isIdent n then Some n
  else if String.prefix "main." n && isIdent (substring 5 (String.length n - 5) n)
          && negb (String.eqb n "main.")
       then Some (substring 5 (String.length n - 5) n)
       else None.

Definition sqlite3 : Sqlite cell := mkSqlite isNull cellCompare parseName 32766.

Definition rowsOfList (rows : list (list cell)) : list (cell * list cell) :=
  omap (fun r => match r with k :: _ => Some (k, r) | [] => None end) rows.

(** A database whose tables have the key column as only constraint and no
    triggers. *)
Definition plainDb (tables : list (string * list ColumnInfo * list (list cell))) : Db cell :=
  mkDb (map fst tables)
       (list_to_map (map (fun t => (t.1.1, rowsOfList t.2)) tables))
       (fun _ => [[0%nat]])
       (fun _ _ _ d => d).

Definition runSync (faults : list bool) (stops : list (option nat)) (src dst : Db cell)
    (cfg : Config) : option error * Db cell :=
  match Sync sqlite3 src cfg (mkState faults stops dst None) with
  | (inl e, w) => (Some e, target w)
  | (inr _, w) => (None, target w)
  end.

Definition shop_src : Db cell :=
  plainDb [ ("users", users_info, users_src); ("orders", orders_info, orders_src) ].
Definition shop_tgt : Db cell :=
  plainDb [ ("users", users_info, users_tgt); ("orders", orders_info, orders_tgt) ].
Definition products_src_db : Db cell := plainDb [ ("products", products_info, products_src) ].
Definition products_tgt_db : Db cell := plainDb [ ("products", products_info, products_tgt) ].
Definition categories_src_db : Db cell :=
  plainDb [ ("categories", categories_info, categories_src) ].
Definition categories_tgt_db : Db cell :=
  plainDb [ ("categories", categories_info, categories_tgt) ].
Definition categories_empty_db : Db cell :=
  plainDb [ ("categories", categories_info, []) ].

(** A table with a text primary key, which SQLite lets be NULL. *)
Definition tags_info : list ColumnInfo :=
  [ mkColumnInfo 0 "k" "TEXT" 0 None 1;
    mkColumnInfo 1 "v" "TEXT" 0 None 0 ].
Definition tags_table : Table := mkTable "tags" ["k"; "v"] "k".
Definition tags_src : list (list cell) :=
  [ [CNull; CText "a"]; [CText "x"; CText "b"] ].
Definition tags_tgt : list (list cell) := [ [CText "z"; CText "c"] ].
Definition tags_src_db : Db cell := plainDb [ ("tags", tags_info, tags_src) ].
Definition tags_tgt_db : Db cell := plainDb [ ("tags", tags_info, tags_tgt) ].

(** A table with the primary key [(a, b)]: the key column of the descriptor
    is [b], and the uniqueness constraint covers positions 1 and 2 of a row
    laid out as [b, a, b, v]. *)
Definition pairs_table : Table := mkTable "pairs" ["a"; "b"; "v"] "b".
Definition pairs_src : list (cell * list cell) :=
  [ (CInt 5, [CInt 1; CInt 5; CText "new"]) ].
Definition pairs_tgt : list (cell * list cell) :=
  [ (CInt 5, [CInt 9; CInt 5; CText "stale"]) ].
Definition pairsDb (rows : list (cell * list cell)) : Db cell :=
  mkDb [ ("pairs", pairs_info) ] (list_to_map [ ("pairs", rows) ])
       (fun _ => [[1%nat; 2%nat]]) (fun _ _ _ d => d).


(** [users] declared with AUTOINCREMENT in the target: an insert with an
    explicit key raises the table's entry in [sqlite_sequence] to that key
    when it is larger. *)
Definition bumpSequence (t : string) (k : Z) (r : cell * list cell) : cell * list cell :=
  match r.2 with
  | [CText n; CInt seq] => if String.eqb n t then (r.1, [CText n; CInt (Z.max seq k)]) else r
  | _ => r
  end.

Definition autoincrement (t : string) (s : Stmt) (args : list cell)
    (before d : gmap string (list (cell * list cell))) : gmap string (list (cell * list cell)) :=
  match s, args with
  | InsertOrReplace into _, CInt k :: _ =>
      if String.eqb into t
      then match d !! "sqlite_sequence" with
           | Some rows => <["sqlite_sequence" := map (bumpSequence t k) rows]> d
           | None => d
           end
      else d
  | _, _ => d
  end.

Definition counted_tgt_db : Db cell :=
  mkDb [ ("users", users_info) ]
       (list_to_map [ ("users", rowsOfList users_tgt);
                      ("sqlite_sequence", [ (CInt 1, [CText "users"; CInt 1]) ]) ])
       (fun _ => [[0%nat]])
       (autoincrement "users").

End General.

(** * Properties *)

(** ** The text of the statements *)

Lemma sql_selectStmt table cfg : sql (selectStmt table cfg) = buildSelectQuery table cfg.
Proof.
  unfold selectStmt, buildSelectQuery, filterCond, sql.
  destruct (negb (String.eqb (Filter cfg) "") && negb (String.eqb (Value cfg) "")); [|done].
  cbv zeta. by destruct (negb (String.eqb (filterOp (Filter cfg)) "")).
Qed.

Lemma sql_insertStmt table : sql (insertStmt table) = buildInsertQuery table.
Proof. reflexivity. Qed.

Lemma sql_deleteStmt table : sql (deleteStmt table) = buildDeleteQuery table.
Proof. reflexivity. Qed.

Lemma sql_orphanDeleteStmt table n :
  sql (orphanDeleteStmt table n) = buildOrphanDeleteQuery table n.
Proof. reflexivity. Qed.

Lemma sql_sourceIDsStmt table : sql (sourceIDsStmt table) = buildSourceIDsQuery table.
Proof.
  unfold sourceIDsStmt, buildSourceIDsQuery, sql. cbn [String.concat]. done.
Qed.

Lemma filterOp_cases filter :
  (filter = "gt" ∧ filterOp filter = ">") ∨ (filter = "lt" ∧ filterOp filter = "<")
  ∨ (filter = "gte" ∧ filterOp filter = ">=") ∨ (filter = "lte" ∧ filterOp filter = "<=")
  ∨ (filter ≠ "gt" ∧ filter ≠ "lt" ∧ filter ≠ "gte" ∧ filter ≠ "lte" ∧ filterOp filter = "").
Proof.
  unfold filterOp.
  destruct (String.eqb_spec filter "gt"); [by left|].
  destruct (String.eqb_spec filter "lt"); [by right; left|].
  destruct (String.eqb_spec filter "gte"); [by right; right; left|].
  destruct (String.eqb_spec filter "lte"); [by right; right; right; left|].
  by right; right; right; right.
Qed.

(** ** The engine calls: what each leaves alone *)

Section Frames.
Context {Datum : Type} `{Countable Datum}.
Variable E : Engine Datum.

Lemma keeps_store_target {A} (m : M Datum A) : keeps store m -> keeps_target m.
Proof. intros Hm w. specialize (Hm w). unfold store in Hm. congruence. Qed.

Lemma keeps_ret {A B} (part : World Datum -> B) (a : A) : keeps part (ret a).
Proof. done. Qed.

Lemma keeps_fail {A B} (part : World Datum -> B) e : keeps part (@fail Datum _ _ A e).
Proof. done. Qed.

Lemma keeps_bind {A B C} (part : World Datum -> C) (m : M Datum A) (f : A -> M Datum B) :
  keeps part m -> (forall a, keeps part (f a)) -> keeps part (bind m f).
Proof.
  intros Hm Hf w. unfold bind. specialize (Hm w).
  destruct (m w) as [[e|a] w1]; simpl in *; [done|].
  rewrite Hf. done.
Qed.

Lemma keeps_wrap {A B} (part : World Datum -> B) context (m : M Datum A) :
  keeps part m -> keeps part (wrap context m).
Proof.
  intros Hm w. unfold wrap. specialize (Hm w). by destruct (m w) as [[e|a] w1].
Qed.

Lemma bind_ok {A B} (m : M Datum A) (f : A -> M Datum B) w b w' :
  bind m f w = (inr b, w') -> exists a w1, m w = (inr a, w1) ∧ f a w1 = (inr b, w').
Proof. unfold bind. destruct (m w) as [[e|a] w1]; [done|]. eauto. Qed.

Lemma wrap_ok {A} context (m : M Datum A) w a w' :
  wrap context m w = (inr a, w') -> m w = (inr a, w').
Proof. unfold wrap. by destruct (m w) as [[e|a0] w1]. Qed.

Lemma call_store op : keeps store (@call Datum _ _ op).
Proof. intros [[|[] o] tg tx]; done. Qed.

Lemma keeps_call op : keeps_target (@call Datum _ _ op).
Proof. apply keeps_store_target, call_store. Qed.

Lemma keeps_dst_Begin : keeps_target (@dst_Begin Datum _ _).
Proof. apply keeps_bind; [apply keeps_call|]. by intros _ w. Qed.

Lemma tx_Prepare_store s : keeps store (@tx_Prepare Datum _ _ s).
Proof.
  apply keeps_bind; [apply call_store|]. intros _ w.
  destruct (txn w) as [d|] eqn:Ht; simpl; rewrite ?Ht; [|done].
  by destruct (d !! stmtTable s).
Qed.

Lemma keeps_tx_Prepare s : keeps_target (@tx_Prepare Datum _ _ s).
Proof. apply keeps_store_target, tx_Prepare_store. Qed.

Lemma src_Query_store src s args : keeps store (src_Query E src s args).
Proof.
  apply keeps_bind; [apply call_store|]. intros _.
  destruct (data src !! stmtTable s); [|apply keeps_fail].
  destruct (length args <? numInput s)%nat; [apply keeps_fail|apply keeps_ret].
Qed.

Lemma keeps_src_Query src s args : keeps_target (src_Query E src s args).
Proof. apply keeps_store_target, src_Query_store. Qed.

Lemma rows_Scan_store r : keeps store (@rows_Scan Datum _ _ r).
Proof. apply keeps_bind; [apply call_store|]. intros _. apply keeps_ret. Qed.

Lemma keeps_rows_Scan r : keeps_target (@rows_Scan Datum _ _ r).
Proof. apply keeps_store_target, rows_Scan_store. Qed.

Lemma srcRows_Scan_store r : keeps store (@srcRows_Scan Datum _ _ r).
Proof. apply keeps_bind; [apply call_store|]. intros _. apply keeps_ret. Qed.

Lemma keeps_insert_Exec s values : keeps_target (@insert_Exec Datum _ _ s values).
Proof.
  apply keeps_bind; [apply keeps_call|]. intros _ w.
  destruct (txn w) as [d|], values as [|k cells]; try done.
  by destruct (d !! stmtTable s).
Qed.

Lemma keeps_tx_Exec s ids : keeps_target (@tx_Exec Datum _ _ s ids).
Proof.
  apply keeps_bind; [apply keeps_call|]. intros _ w.
  destruct (txn w) as [d|]; try done.
  by destruct (d !! stmtTable s).
Qed.

Lemma keeps_copyRows insert rows : keeps_target (@copyRows Datum _ _ insert rows).
Proof.
  induction rows as [|r rows IH]; [apply keeps_ret|].
  cbn [copyRows]. apply keeps_bind; [apply keeps_rows_Scan|]. intros values.
  apply keeps_bind; [apply keeps_insert_Exec|]. done.
Qed.

Lemma collectIDs_store srcRows sourceIDs :
  keeps store (@collectIDs Datum _ _ srcRows sourceIDs).
Proof.
  revert sourceIDs. induction srcRows as [|r srcRows IH]; intros sourceIDs; [apply keeps_ret|].
  cbn [collectIDs]. apply keeps_bind; [apply keeps_wrap, srcRows_Scan_store|]. done.
Qed.

Lemma keeps_collectIDs srcRows sourceIDs :
  keeps_target (@collectIDs Datum _ _ srcRows sourceIDs).
Proof. apply keeps_store_target, collectIDs_store. Qed.

Lemma keeps_deleteOrphaned src table cfg : keeps_target (deleteOrphaned E src table cfg).
Proof.
  unfold deleteOrphaned. destruct (negb (NoDelete cfg)); [|apply keeps_ret].
  apply keeps_bind; [apply keeps_wrap, keeps_src_Query|]. intros srcRows.
  apply keeps_bind; [apply keeps_collectIDs|]. intros sourceIDs.
  destruct (0 <? length sourceIDs)%nat; [apply keeps_wrap, keeps_tx_Exec|apply keeps_ret].
Qed.

Lemma bind_assoc {A B C} (m : M Datum A) (f : A -> M Datum B) (g : B -> M Datum C) w :
  bind (bind m f) g w = bind m (fun a => bind (f a) g) w.
Proof. unfold bind. by destruct (m w) as [[e|a] w1]. Qed.

Lemma syncTable_body_work src table cfg w :
  syncTable_body E src table cfg w
  = bind (syncTable_work E src table cfg) (fun _ => tx_Commit) w.
Proof.
  unfold syncTable_body, syncTable_work, copyArgs, bind.
  destruct (tx_Prepare (insertStmt table) w) as [[e|a] w1]; [done|].
  destruct (tx_Prepare (deleteStmt table) w1) as [[e|a'] w2]; [done|].
  destruct (negb (String.eqb (Value cfg) ""));
    (destruct (src_Query _ _ _ _ w2) as [[e|rows] w3]; [done|]);
    (destruct (copyRows _ rows w3) as [[e|[]] w4]; [done|]);
    by destruct (deleteOrphaned _ _ _ _ w4) as [[e|[]] w5].
Qed.

Lemma keeps_syncTable_work src table cfg : keeps_target (syncTable_work E src table cfg).
Proof.
  unfold syncTable_work.
  apply keeps_bind; [apply keeps_tx_Prepare|]. intros _.
  apply keeps_bind; [apply keeps_tx_Prepare|]. intros _.
  apply keeps_bind; [apply keeps_src_Query|]. intros rows.
  apply keeps_bind; [apply keeps_copyRows|]. intros _.
  apply keeps_deleteOrphaned.
Qed.

(** [tx.Commit()] changes the target only when it succeeds. *)
Lemma tx_Commit_error w e w' :
  @tx_Commit Datum _ _ w = (inl e, w') -> target w' = target w.
Proof.
  unfold tx_Commit. destruct (txn w) as [d|]; [|by intros [= _ <-]].
  destruct (oracle w) as [|[] o]; [done| |done]. by intros [= _ <-].
Qed.

Lemma tx_Commit_ok w u w' :
  @tx_Commit Datum _ _ w = (inr u, w') ->
  exists d, txn w = Some d ∧ target w' = mkDatabase (catalog (target w)) d ∧ txn w' = None
            ∧ oracle w' = tail (oracle w).
Proof.
  unfold tx_Commit. destruct (txn w) as [d|]; [|done].
  destruct (oracle w) as [|[] o]; [|done|]; intros [= _ <-]; by exists d.
Qed.

(** A failing [syncTable] leaves the target as it was. *)
Lemma syncTable_error src table cfg w e w' :
  syncTable E src table cfg w = (inl e, w') -> target w' = target w.
Proof.
  unfold syncTable, bind at 1, defer.
  pose proof (keeps_dst_Begin w) as Hb.
  destruct (dst_Begin w) as [[e0|[]] w1]; simpl in Hb; [by intros [= _ <-]|].
  rewrite syncTable_body_work. unfold bind.
  pose proof (keeps_syncTable_work src table cfg w1) as Hw.
  destruct (syncTable_work E src table cfg w1) as [[e1|[]] w2]; simpl in Hw.
  - intros [= _ <-]. simpl. congruence.
  - destruct (tx_Commit w2) as [[e2|[]] w3] eqn:Hc; [|done].
    intros [= _ <-]. simpl. apply tx_Commit_error in Hc. congruence.
Qed.

Lemma syncTable_txn src table cfg w r w' :
  syncTable E src table cfg w = (r, w') -> txn w = None -> txn w' = None.
Proof.
  unfold syncTable, bind at 1, defer, dst_Begin, bind, call.
  destruct w as [[|[] o] tg tx]; simpl.
  - destruct (syncTable_body _ _ _ _ _); by intros [= _ <-].
  - by intros [= _ <-].
  - destruct (syncTable_body _ _ _ _ _); by intros [= _ <-].
Qed.

(** ** The engine calls: what each does when it succeeds *)

Lemma tx_Prepare_ok s w u w' :
  @tx_Prepare Datum _ _ s w = (inr u, w') ->
  exists d rows, txn w = Some d ∧ d !! stmtTable s = Some rows.
Proof.
  intros Hp. apply bind_ok in Hp as ([] & w1 & Hc & Hp).
  pose proof (call_store "prepare" w) as Hs. rewrite Hc in Hs. injection Hs as _ Hs.
  simpl in Hs. rewrite <- Hs.
  destruct (txn w1) as [d|]; [|done]. destruct (d !! stmtTable s) as [rows|] eqn:Hd; [|done].
  eauto.
Qed.

Lemma src_Query_ok src s args w rows w' :
  src_Query E src s args w = (inr rows, w') ->
  exists srcRows, data src !! stmtTable s = Some srcRows
                  ∧ rows = enumerate E (selectRows E s args srcRows).
Proof.
  intros Hq. apply bind_ok in Hq as ([] & w1 & _ & Hq).
  destruct (data src !! stmtTable s) as [srcRows|]; [|done].
  destruct (length args <? numInput s)%nat; [done|].
  injection Hq as <- _. eauto.
Qed.

Lemma rows_Scan_ok r w values w' :
  @rows_Scan Datum _ _ r w = (inr values, w') -> values = r.1 :: r.2.
Proof. intros Hs. apply bind_ok in Hs as ([] & w1 & _ & Hs). by injection Hs as <- _. Qed.

Lemma insert_Exec_ok s k cells w u w' d rows :
  @insert_Exec Datum _ _ s (k :: cells) w = (inr u, w') ->
  txn w = Some d -> d !! stmtTable s = Some rows ->
  txn w' = Some (<[stmtTable s := <[k := cells]> rows]> d).
Proof.
  intros He Ht Hd. apply bind_ok in He as ([] & w1 & Hc & He).
  pose proof (call_store "exec" w) as Hs. rewrite Hc in Hs. injection Hs as _ Hs.
  simpl in Hs. rewrite Hs, Ht, Hd in He. destruct u. by injection He as <-.
Qed.

Lemma copyRows_ok insert rows w u w' d dstRows :
  @copyRows Datum _ _ insert rows w = (inr u, w') ->
  txn w = Some d -> d !! stmtTable insert = Some dstRows ->
  txn w' = Some (<[stmtTable insert := upsertAll rows dstRows]> d).
Proof.
  revert w d dstRows. induction rows as [|r rows IH]; intros w d dstRows.
  - intros [= _ <-] Ht Hd. rewrite Ht. f_equal. symmetry. by apply insert_id.
  - cbn [copyRows]. intros Hc Ht Hd.
    apply bind_ok in Hc as (values & w1 & Hs & Hc).
    apply bind_ok in Hc as ([] & w2 & He & Hc).
    pose proof (rows_Scan_store r w) as Hst. rewrite Hs in Hst. injection Hst as _ Hst.
    simpl in Hst. apply rows_Scan_ok in Hs as ->.
    eapply insert_Exec_ok in He; [|by rewrite Hst|done].
    eapply IH in Hc; [|done|by rewrite lookup_insert_eq].
    rewrite Hc. by rewrite insert_insert_eq.
Qed.

Lemma collectIDs_ok srcRows sourceIDs w ids w' :
  @collectIDs Datum _ _ srcRows sourceIDs w = (inr ids, w') ->
  ids = (sourceIDs ++ srcRows.*1)%list.
Proof.
  revert sourceIDs w. induction srcRows as [|r srcRows IH]; intros sourceIDs w.
  - intros [= <- _]. by rewrite app_nil_r.
  - cbn [collectIDs]. intros Hc. apply bind_ok in Hc as (id & w1 & Hs & Hc).
    apply wrap_ok, bind_ok in Hs as ([] & w0 & _ & Hs). injection Hs as <- _.
    apply IH in Hc as ->. by rewrite <- app_assoc.
Qed.

Lemma tx_Exec_ok s ids w u w' d rows :
  @tx_Exec Datum _ _ s ids w = (inr u, w') ->
  txn w = Some d -> d !! stmtTable s = Some rows ->
  txn w' = Some (<[stmtTable s := filter (fun kv => kv.1 ∈ ids) rows]> d).
Proof.
  intros He Ht Hd. apply bind_ok in He as ([] & w1 & Hc & He).
  pose proof (call_store "exec" w) as Hs. rewrite Hc in Hs. injection Hs as _ Hs.
  simpl in Hs. rewrite Hs, Ht, Hd in He. destruct u. by injection He as <-.
Qed.

(** ** Enumerations *)

Lemma enumerate_NoDup m : NoDup (enumerate E m).*1.
Proof. rewrite (enumerate_perm E m). apply NoDup_fst_map_to_list. Qed.

Lemma elem_of_enumerate m k cells : (k, cells) ∈ enumerate E m ↔ m !! k = Some cells.
Proof. rewrite (enumerate_perm E m). apply elem_of_map_to_list. Qed.

Lemma elem_of_enumerate_keys (m : gmap Datum (list Datum)) k :
  k ∈ (enumerate E m).*1 ↔ k ∈ dom m.
Proof.
  rewrite elem_of_dom, list_elem_of_fmap. split.
  - intros ([k' cells] & -> & Hin). apply elem_of_enumerate in Hin. by exists cells.
  - intros [cells Hk]. exists (k, cells). split; [done|]. by apply elem_of_enumerate.
Qed.

Lemma enumerate_nil m : enumerate E m = [] ↔ m = ∅.
Proof.
  split.
  - intros Hn. apply map_to_list_empty_iff. apply Permutation_nil_r.
    rewrite <- Hn. symmetry. apply enumerate_perm.
  - intros ->. apply Permutation_nil_r. rewrite (enumerate_perm E ∅).
    by rewrite map_to_list_empty.
Qed.

Lemma upsertAll_union (rows : list (Datum * list Datum)) dstRows :
  NoDup rows.*1 -> upsertAll rows dstRows = list_to_map rows ∪ dstRows.
Proof.
  revert dstRows. induction rows as [|[k cells] rows IH]; intros dstRows Hnd.
  - cbn. by rewrite (left_id_L ∅ (∪)).
  - apply NoDup_cons in Hnd as [Hk Hnd]. cbn [upsertAll fold_left fst snd].
    fold (upsertAll rows (<[k:=cells]> dstRows)). rewrite IH by done.
    cbn [list_to_map foldr]. fold (list_to_map (M := gmap Datum (list Datum)) rows).
    rewrite <- insert_union_l. rewrite insert_union_r; [done|].
    by apply not_elem_of_list_to_map.
Qed.

Lemma upsertAll_enumerate m dstRows : upsertAll (enumerate E m) dstRows = m ∪ dstRows.
Proof.
  rewrite upsertAll_union by apply enumerate_NoDup. f_equal.
  rewrite (list_to_map_proper _ (map_to_list m)).
  - apply list_to_map_to_list.
  - apply enumerate_NoDup.
  - apply enumerate_perm.
Qed.

(** ** What the rows become *)

Lemma selectRows_all s args (rows : gmap Datum (list Datum)) :
  selectCond s = None ∨ args = [] -> selectRows E s args rows = rows.
Proof.
  intros Hc. unfold selectRows. apply map_filter_id. intros k cells _. cbn.
  unfold keyInScope. destruct Hc as [-> | ->]; [done|]. by destruct (selectCond s) as [[]|].
Qed.

Lemma deleteOrphaned_ok src table cfg w u w' d srcRows rows :
  deleteOrphaned E src table cfg w = (inr u, w') ->
  txn w = Some d -> d !! name table = Some rows ->
  data src !! name table = Some srcRows ->
  txn w' = Some (<[name table := deleteScope cfg srcRows rows]> d).
Proof.
  unfold deleteOrphaned, deleteScope. intros Hd Ht Hr Hsrc.
  destruct (NoDelete cfg); cbn [negb] in Hd.
  { unfold ret in Hd. injection Hd as _ <-. rewrite Ht. f_equal. symmetry. by apply insert_id. }
  apply bind_ok in Hd as (cursor & w1 & Hq & Hd).
  apply bind_ok in Hd as (ids & w2 & Hc & Hd).
  apply wrap_ok in Hq.
  pose proof (src_Query_store src (sourceIDsStmt table) [] w) as Hs1.
  rewrite Hq in Hs1. injection Hs1 as _ Hs1. simpl in Hs1.
  pose proof (collectIDs_store cursor [] w1) as Hs2.
  rewrite Hc in Hs2. injection Hs2 as _ Hs2. simpl in Hs2.
  apply src_Query_ok in Hq as (srcRows' & Hsrc' & ->).
  cbn [sourceIDsStmt stmtTable] in Hsrc'. rewrite Hsrc in Hsrc'. injection Hsrc' as <-.
  rewrite selectRows_all in Hc by by right.
  apply collectIDs_ok in Hc. cbn [app] in Hc. subst ids.
  destruct (0 <? length (enumerate E srcRows).*1)%nat eqn:Hlen.
  - apply wrap_ok in Hd. eapply tx_Exec_ok in Hd; [|by rewrite Hs2, Hs1|done].
    cbn [orphanDeleteStmt stmtTable] in Hd. rewrite Hd. do 2 f_equal.
    destruct (decide (srcRows = ∅)) as [->|_].
    + apply Nat.ltb_lt in Hlen. rewrite (proj2 (enumerate_nil ∅)) in Hlen by done.
      cbn in Hlen. lia.
    + apply map_filter_ext. intros k cells _. cbn. apply elem_of_enumerate_keys.
  - unfold ret in Hd. injection Hd as _ <-. rewrite Hs2, Hs1, Ht. f_equal.
    apply Nat.ltb_ge in Hlen. destruct (enumerate E srcRows) as [|r l] eqn:Hen; [|cbn in Hlen; lia].
    apply enumerate_nil in Hen as ->. rewrite decide_True by done.
    symmetry. by apply insert_id.
Qed.

Lemma syncTable_work_ok src table cfg w u w' d :
  syncTable_work E src table cfg w = (inr u, w') -> txn w = Some d ->
  exists srcRows dstRows,
    data src !! name table = Some srcRows ∧ d !! name table = Some dstRows
    ∧ txn w' = Some (<[name table := reconcile E table cfg srcRows dstRows]> d).
Proof.
  unfold syncTable_work. intros Hw Ht.
  apply bind_ok in Hw as ([] & w1 & Hp1 & Hw).
  apply bind_ok in Hw as ([] & w2 & Hp2 & Hw).
  apply bind_ok in Hw as (cursor & w3 & Hq & Hw).
  apply bind_ok in Hw as ([] & w4 & Hc & Hw).
  pose proof (tx_Prepare_store (insertStmt table) w) as Hs1.
  rewrite Hp1 in Hs1. injection Hs1 as _ Hs1. simpl in Hs1.
  pose proof (tx_Prepare_store (deleteStmt table) w1) as Hs2.
  rewrite Hp2 in Hs2. injection Hs2 as _ Hs2. simpl in Hs2.
  pose proof (src_Query_store src (selectStmt table cfg) (copyArgs cfg) w2) as Hs3.
  rewrite Hq in Hs3. injection Hs3 as _ Hs3. simpl in Hs3.
  apply tx_Prepare_ok in Hp1 as (d' & dstRows & Ht' & Hd).
  rewrite Ht in Ht'. injection Ht' as <-. cbn [insertStmt stmtTable] in Hd.
  apply src_Query_ok in Hq as (srcRows & Hsrc & ->). cbn [selectStmt stmtTable] in Hsrc.
  eapply copyRows_ok in Hc; [|by rewrite Hs3, Hs2, Hs1|done].
  cbn [insertStmt stmtTable] in Hc.
  eapply deleteOrphaned_ok in Hw; [|done|by rewrite lookup_insert_eq|done].
  exists srcRows, dstRows. split; [done|]. split; [done|].
  rewrite Hw, insert_insert_eq. unfold reconcile, copyScope.
  by rewrite upsertAll_enumerate.
Qed.


(** A successful [syncTable] replaces the rows of its table by [reconcile]
    of the source rows and the rows before, and nothing else. *)
Lemma syncTable_ok src table cfg w u w' :
  syncTable E src table cfg w = (inr u, w') ->
  exists srcRows dstRows,
    data src !! name table = Some srcRows
    ∧ data (target w) !! name table = Some dstRows
    ∧ target w' = mkDatabase (catalog (target w))
                    (<[name table := reconcile E table cfg srcRows dstRows]> (data (target w))).
Proof.
  unfold syncTable, defer. intros Hs. apply bind_ok in Hs as ([] & w1 & Hb & Hs).
  assert (target w1 = target w ∧ txn w1 = Some (data (target w))) as [Htg Ht].
  { apply bind_ok in Hb as ([] & w0 & Hc & Hb).
    pose proof (call_store "begin" w) as Hst. rewrite Hc in Hst. injection Hst as Htg _.
    simpl in Htg. injection Hb as <-. by rewrite Htg. }
  rewrite syncTable_body_work in Hs.
  destruct (bind _ _ w1) as [r w2] eqn:Hbody. injection Hs as -> <-.
  apply bind_ok in Hbody as ([] & w3 & Hw & Hc).
  pose proof (keeps_syncTable_work src table cfg w1) as Hk. rewrite Hw in Hk. simpl in Hk.
  eapply syncTable_work_ok in Hw as (srcRows & dstRows & Hsrc & Hdst & Ht3); [|done].
  apply tx_Commit_ok in Hc as (d & Ht3' & Htg2 & _).
  rewrite Ht3 in Ht3'. injection Ht3' as <-.
  exists srcRows, dstRows. split; [done|]. split; [done|].
  cbn [tx_Rollback target]. by rewrite Htg2, Hk, Htg.
Qed.

(** ** An engine that never fails *)

Lemma copyArgs_enough table cfg :
  (length (copyArgs cfg) <? numInput (selectStmt table cfg))%nat = false.
Proof.
  unfold copyArgs, selectStmt, filterCond, numInput.
  destruct (String.eqb (Value cfg) ""); cbn [negb].
  - by rewrite andb_false_r.
  - destruct (negb (String.eqb (Filter cfg) "") && true); [|done].
    cbv zeta. by destruct (negb (String.eqb (filterOp (Filter cfg)) "")).
Qed.

Lemma copyRows_quiet insert rows tg d dstRows :
  d !! stmtTable insert = Some dstRows ->
  @copyRows Datum _ _ insert rows (mkWorld [] tg (Some d))
  = (inr tt, mkWorld [] tg (Some (<[stmtTable insert := upsertAll rows dstRows]> d))).
Proof.
  revert d dstRows. induction rows as [|[k cells] rows IH]; intros d dstRows Hd.
  - cbn. by rewrite insert_id.
  - cbn [copyRows]. unfold bind at 1. unfold rows_Scan, bind, call, ret. cbn [oracle fst snd].
    unfold insert_Exec, bind, call. cbn [oracle txn target]. rewrite Hd.
    rewrite (IH _ (<[k:=cells]> dstRows)) by by rewrite lookup_insert_eq.
    by rewrite insert_insert_eq.
Qed.

Lemma collectIDs_quiet srcRows sourceIDs tg tx :
  @collectIDs Datum _ _ srcRows sourceIDs (mkWorld [] tg tx)
  = (inr (sourceIDs ++ srcRows.*1)%list, mkWorld [] tg tx).
Proof.
  revert sourceIDs. induction srcRows as [|r srcRows IH]; intros sourceIDs.
  - cbn. by rewrite app_nil_r.
  - cbn [collectIDs]. unfold bind at 1, wrap, srcRows_Scan, bind, call, ret. cbn [oracle].
    rewrite IH. by rewrite <- app_assoc.
Qed.

Lemma bind_inr {A B} (m : M Datum A) (f : A -> M Datum B) w a w1 :
  m w = (inr a, w1) -> bind m f w = f a w1.
Proof. unfold bind. by intros ->. Qed.

Lemma bind_inl {A B} (m : M Datum A) (f : A -> M Datum B) w e w1 :
  m w = (inl e, w1) -> bind m f w = (inl e, w1).
Proof. unfold bind. by intros ->. Qed.

Lemma wrap_inr {A} context (m : M Datum A) w a w1 :
  m w = (inr a, w1) -> wrap context m w = (inr a, w1).
Proof. unfold wrap. by intros ->. Qed.

Lemma call_quiet op tg tx :
  @call Datum _ _ op (mkWorld [] tg tx) = (inr tt, mkWorld [] tg tx).
Proof. done. Qed.

Lemma tx_Prepare_quiet s tg d rows :
  d !! stmtTable s = Some rows ->
  @tx_Prepare Datum _ _ s (mkWorld [] tg (Some d)) = (inr tt, mkWorld [] tg (Some d)).
Proof.
  intros Hd. unfold tx_Prepare. erewrite bind_inr by apply call_quiet.
  cbn [txn]. by rewrite Hd.
Qed.

Lemma tx_Prepare_missing s tg d :
  d !! stmtTable s = None ->
  @tx_Prepare Datum _ _ s (mkWorld [] tg (Some d))
  = (inl (EngineError "no such table"), mkWorld [] tg (Some d)).
Proof.
  intros Hd. unfold tx_Prepare. erewrite bind_inr by apply call_quiet.
  cbn [txn]. by rewrite Hd.
Qed.

Lemma src_Query_quiet src s args tg tx srcRows :
  data src !! stmtTable s = Some srcRows -> (length args <? numInput s)%nat = false ->
  src_Query E src s args (mkWorld [] tg tx)
  = (inr (enumerate E (selectRows E s args srcRows)), mkWorld [] tg tx).
Proof.
  intros Hs Hn. unfold src_Query. erewrite bind_inr by apply call_quiet.
  by rewrite Hs, Hn.
Qed.

Lemma src_Query_missing src s args tg tx :
  data src !! stmtTable s = None ->
  src_Query E src s args (mkWorld [] tg tx)
  = (inl (EngineError "no such table"), mkWorld [] tg tx).
Proof.
  intros Hs. unfold src_Query. erewrite bind_inr by apply call_quiet. by rewrite Hs.
Qed.

Lemma tx_Exec_quiet s ids tg d rows :
  d !! stmtTable s = Some rows ->
  @tx_Exec Datum _ _ s ids (mkWorld [] tg (Some d))
  = (inr tt, mkWorld [] tg (Some (<[stmtTable s := filter (fun kv => kv.1 ∈ ids) rows]> d))).
Proof.
  intros Hd. unfold tx_Exec. erewrite bind_inr by apply call_quiet.
  cbn [txn oracle target]. by rewrite Hd.
Qed.

Lemma deleteOrphaned_quiet src table cfg tg d srcRows rows :
  data src !! name table = Some srcRows -> d !! name table = Some rows ->
  exists d', deleteOrphaned E src table cfg (mkWorld [] tg (Some d))
             = (inr tt, mkWorld [] tg (Some d')).
Proof.
  intros Hsrc Hd. unfold deleteOrphaned. destruct (negb (NoDelete cfg)); [|by eexists].
  erewrite bind_inr by (apply wrap_inr; by eapply src_Query_quiet).
  erewrite bind_inr by apply collectIDs_quiet.
  destruct (0 <? _)%nat; [|by eexists].
  eexists. apply wrap_inr. by eapply tx_Exec_quiet.
Qed.

Lemma syncTable_work_quiet src table cfg tg d srcRows dstRows :
  data src !! name table = Some srcRows -> d !! name table = Some dstRows ->
  syncTable_work E src table cfg (mkWorld [] tg (Some d))
  = (inr tt, mkWorld [] tg (Some (<[name table := reconcile E table cfg srcRows dstRows]> d))).
Proof.
  intros Hsrc Hd.
  destruct (syncTable_work E src table cfg (mkWorld [] tg (Some d))) as [r w'] eqn:Hw.
  assert (exists w1, r = inr tt ∧ w' = mkWorld [] tg w1) as (w1 & -> & ->).
  { revert Hw. unfold syncTable_work.
    erewrite bind_inr by by eapply tx_Prepare_quiet.
    erewrite bind_inr by by eapply tx_Prepare_quiet.
    erewrite bind_inr by (eapply src_Query_quiet; [done|apply copyArgs_enough]).
    erewrite bind_inr by by eapply copyRows_quiet.
    edestruct deleteOrphaned_quiet as [d' ->]; [done|by rewrite lookup_insert_eq|].
    intros [= <- <-]. eauto. }
  eapply syncTable_work_ok in Hw as (srcRows' & dstRows' & Hsrc' & Hd' & Ht); [|done].
  cbn [txn] in Ht. congruence.
Qed.

Lemma syncTable_quiet src table cfg dst :
  syncTable E src table cfg (quiet dst)
  = match syncStep E src cfg table dst with
    | Some dst' => (inr tt, quiet dst')
    | None => (inl (EngineError "no such table"), quiet dst)
    end.
Proof.
  unfold syncTable, quiet.
  assert (dst_Begin (mkWorld [] dst None) = (inr tt, mkWorld [] dst (Some (data dst)))) as Hb.
  { unfold dst_Begin. by erewrite bind_inr by apply call_quiet. }
  erewrite bind_inr by exact Hb. unfold defer. rewrite syncTable_body_work.
  unfold syncStep.
  destruct (data dst !! name table) as [dstRows|] eqn:Hd.
  - destruct (data src !! name table) as [srcRows|] eqn:Hsrc.
    + erewrite bind_inr by by eapply syncTable_work_quiet. done.
    + assert (syncTable_work E src table cfg (mkWorld [] dst (Some (data dst)))
              = (inl (EngineError "no such table"), mkWorld [] dst (Some (data dst)))) as Hw.
      { unfold syncTable_work.
        erewrite bind_inr by by eapply tx_Prepare_quiet.
        erewrite bind_inr by by eapply tx_Prepare_quiet.
        apply bind_inl. by apply src_Query_missing. }
      by rewrite (bind_inl _ _ _ _ _ Hw).
  - assert (syncTable_work E src table cfg (mkWorld [] dst (Some (data dst)))
            = (inl (EngineError "no such table"), mkWorld [] dst (Some (data dst)))) as Hw.
    { unfold syncTable_work. apply bind_inl. by apply tx_Prepare_missing. }
    by rewrite (bind_inl _ _ _ _ _ Hw).
Qed.

(** ** Facts about [reconcile] *)

Lemma copyScope_lookup table cfg (srcRows : gmap Datum (list Datum)) k cells :
  copyScope E table cfg srcRows !! k = Some cells -> srcRows !! k = Some cells.
Proof. unfold copyScope, selectRows. intros Hl. by apply map_lookup_filter_Some in Hl as [? _]. Qed.

Lemma copyScope_table table table' cfg (srcRows : gmap Datum (list Datum)) :
  copyScope E table cfg srcRows = copyScope E table' cfg srcRows.
Proof.
  unfold copyScope, selectRows. apply map_filter_ext. intros k cells _. cbn.
  unfold filterCond.
  destruct (negb (String.eqb (Filter cfg) "") && negb (String.eqb (Value cfg) "")); [|done].
  cbv zeta. by destruct (negb (String.eqb (filterOp (Filter cfg)) "")).
Qed.

Lemma reconcile_table table table' cfg (srcRows dstRows : gmap Datum (list Datum)) :
  reconcile E table cfg srcRows dstRows = reconcile E table' cfg srcRows dstRows.
Proof. unfold reconcile. by rewrite (copyScope_table table table'). Qed.

Lemma deleteScope_lookup cfg (srcRows rows : gmap Datum (list Datum)) k :
  deleteScope cfg srcRows rows !! k
  = if NoDelete cfg then rows !! k
    else if decide (srcRows = ∅) then rows !! k
    else if decide (k ∈ dom srcRows) then rows !! k else None.
Proof.
  unfold deleteScope. destruct (NoDelete cfg); [done|].
  destruct (decide (srcRows = ∅)); [done|].
  rewrite map_lookup_filter. destruct (rows !! k) as [cells|]; cbn.
  - destruct (decide (k ∈ dom srcRows)).
    + by rewrite option_guard_True.
    + by rewrite option_guard_False.
  - by destruct (decide (k ∈ dom srcRows)).
Qed.

Lemma reconcile_lookup table cfg (srcRows dstRows : gmap Datum (list Datum)) k :
  reconcile E table cfg srcRows dstRows !! k
  = if NoDelete cfg then (copyScope E table cfg srcRows ∪ dstRows) !! k
    else if decide (srcRows = ∅) then (copyScope E table cfg srcRows ∪ dstRows) !! k
    else if decide (k ∈ dom srcRows) then (copyScope E table cfg srcRows ∪ dstRows) !! k
    else None.
Proof. unfold reconcile. apply deleteScope_lookup. Qed.

Lemma copyScope_union_lookup table cfg (srcRows dstRows : gmap Datum (list Datum)) k :
  (copyScope E table cfg srcRows ∪ dstRows) !! k
  = match copyScope E table cfg srcRows !! k with
    | Some cells => Some cells
    | None => dstRows !! k
    end.
Proof. rewrite lookup_union. by destruct (copyScope _ _ _ _ !! k), (dstRows !! k). Qed.

Lemma copyScope_in_dom table cfg (srcRows : gmap Datum (list Datum)) k cells :
  copyScope E table cfg srcRows !! k = Some cells -> k ∈ dom srcRows.
Proof. intros Hl. apply copyScope_lookup in Hl. apply elem_of_dom. eauto. Qed.

(** Synchronising once more changes nothing. *)
Lemma reconcile_idem table cfg (srcRows dstRows : gmap Datum (list Datum)) :
  reconcile E table cfg srcRows (reconcile E table cfg srcRows dstRows)
  = reconcile E table cfg srcRows dstRows.
Proof.
  apply map_eq. intros k.
  rewrite (reconcile_lookup _ _ _ (reconcile _ _ _ _ _)), !copyScope_union_lookup.
  rewrite reconcile_lookup, !copyScope_union_lookup.
  destruct (copyScope E table cfg srcRows !! k) as [cells|] eqn:Hc.
  - apply copyScope_in_dom in Hc. destruct (NoDelete cfg); [done|].
    destruct (decide (srcRows = ∅)); [done|]. by rewrite decide_True.
  - destruct (NoDelete cfg); [done|]. destruct (decide (srcRows = ∅)); [done|].
    by destruct (decide (k ∈ dom srcRows)).
Qed.

(** With deletion on and a source that has rows, only source keys remain. *)
Lemma reconcile_keys table cfg (srcRows dstRows : gmap Datum (list Datum)) :
  NoDelete cfg = false -> srcRows ≠ ∅ ->
  dom (reconcile E table cfg srcRows dstRows) ⊆ dom srcRows.
Proof.
  intros Hn Hne k Hk. apply elem_of_dom in Hk as [cells Hk].
  rewrite reconcile_lookup, Hn in Hk. rewrite decide_False in Hk by done.
  by destruct (decide (k ∈ dom srcRows)).
Qed.

(** With no source rows nothing is copied and nothing is deleted. *)
Lemma reconcile_empty table cfg (dstRows : gmap Datum (list Datum)) :
  reconcile E table cfg ∅ dstRows = dstRows.
Proof.
  apply map_eq. intros k. rewrite reconcile_lookup, copyScope_union_lookup.
  destruct (copyScope E table cfg ∅ !! k) as [cells|] eqn:Hc.
  { apply copyScope_lookup in Hc. by rewrite lookup_empty in Hc. }
  rewrite decide_True by done. by destruct (NoDelete cfg).
Qed.

(** With deletion suppressed, a key the source does not have keeps its row. *)
Lemma reconcile_nodelete table cfg (srcRows dstRows : gmap Datum (list Datum)) k :
  NoDelete cfg = true -> srcRows !! k = None ->
  reconcile E table cfg srcRows dstRows !! k = dstRows !! k.
Proof.
  intros Hn Hk. rewrite reconcile_lookup, Hn, copyScope_union_lookup.
  destruct (copyScope E table cfg srcRows !! k) as [cells|] eqn:Hc; [|done].
  apply copyScope_lookup in Hc. congruence.
Qed.

Lemma reconcile_nodelete_keeps table cfg (srcRows dstRows : gmap Datum (list Datum)) k :
  NoDelete cfg = true -> is_Some (dstRows !! k) ->
  is_Some (reconcile E table cfg srcRows dstRows !! k).
Proof.
  intros Hn Hk. rewrite reconcile_lookup, Hn, copyScope_union_lookup.
  by destruct (copyScope E table cfg srcRows !! k).
Qed.

(** Without a filter clause every source row is in scope. *)
Lemma filterCond_None table cfg :
  filterCond table cfg = None ↔ Value cfg = "" ∨ filterOp (Filter cfg) = "".
Proof.
  unfold filterCond.
  destruct (String.eqb_spec (Value cfg) "") as [Hv|Hv].
  { rewrite andb_false_r. by split; [left|]. }
  destruct (String.eqb_spec (filterOp (Filter cfg)) "") as [Ho|Ho].
  { split; [by right|]. intros _. by destruct (negb _ && _). }
  destruct (String.eqb_spec (Filter cfg) "") as [Hf|Hf].
  { rewrite Hf in Ho. done. }
  cbn. split; [done|]. by intros [|].
Qed.

Lemma copyScope_all table cfg (srcRows : gmap Datum (list Datum)) :
  filterCond table cfg = None -> copyScope E table cfg srcRows = srcRows.
Proof. intros Hc. unfold copyScope. apply selectRows_all. by left. Qed.

Lemma reconcile_copies table cfg (srcRows dstRows : gmap Datum (list Datum)) k cells :
  copyScope E table cfg srcRows !! k = Some cells ->
  reconcile E table cfg srcRows dstRows !! k = Some cells.
Proof.
  intros Hc. rewrite reconcile_lookup, copyScope_union_lookup, Hc.
  apply copyScope_in_dom in Hc. rewrite (decide_True _ _ Hc).
  destruct (NoDelete cfg); [done|]. by destruct (decide (srcRows = ∅)).
Qed.

(** ** Listing the tables *)

Lemma scanColumns_store rows table : keeps store (@scanColumns Datum _ _ rows table).
Proof.
  revert table. induction rows as [|c rows IH]; intros table; [apply keeps_ret|].
  cbn [scanColumns]. apply keeps_bind; [apply call_store|]. done.
Qed.

Lemma getTableInfo_store db tableName : keeps store (@getTableInfo Datum _ _ db tableName).
Proof.
  apply keeps_bind; [apply call_store|]. intros _.
  apply keeps_bind; [apply scanColumns_store|]. intros table. apply keeps_ret.
Qed.

Lemma scanTables_store db names tables : keeps store (@scanTables Datum _ _ db names tables).
Proof.
  revert tables. induction names as [|n names IH]; intros tables; [apply keeps_ret|].
  cbn [scanTables]. apply keeps_bind; [apply call_store|]. intros _.
  apply keeps_bind; [apply getTableInfo_store|]. done.
Qed.

Lemma getTables_store db : keeps store (@getTables Datum _ _ db).
Proof. apply keeps_bind; [apply call_store|]. intros _. apply scanTables_store. Qed.

Lemma discover_store src : keeps store (@discover Datum _ _ src).
Proof.
  apply keeps_bind; [apply keeps_wrap, call_store|]. intros _.
  apply keeps_bind; [apply keeps_wrap, call_store|]. intros _. apply getTables_store.
Qed.

Lemma scanColumns_ok rows table w table' w' :
  @scanColumns Datum _ _ rows table w = (inr table', w') ->
  table' = fold_left scanColumn rows table.
Proof.
  revert table w. induction rows as [|c rows IH]; intros table w.
  - by intros [= <- _].
  - cbn [scanColumns fold_left]. intros Hs. apply bind_ok in Hs as ([] & w1 & _ & Hs). eauto.
Qed.

Lemma getTableInfo_ok (db : Database Datum) tableName w table w' :
  getTableInfo db tableName w = (inr table, w') ->
  table = buildTable tableName (table_info (catalog db) tableName).
Proof.
  intros Hg. apply bind_ok in Hg as ([] & w1 & _ & Hg).
  apply bind_ok in Hg as (t & w2 & Hs & Hg). apply scanColumns_ok in Hs as ->.
  by injection Hg as <- _.
Qed.

Lemma scanTables_ok (db : Database Datum) names tables w tables' w' :
  scanTables db names tables w = (inr tables', w') ->
  tables' = (tables ++ map (fun n => buildTable n (table_info (catalog db) n)) names)%list.
Proof.
  revert tables w. induction names as [|n names IH]; intros tables w.
  - intros [= <- _]. by rewrite app_nil_r.
  - cbn [scanTables map]. intros Hs. apply bind_ok in Hs as ([] & w1 & _ & Hs).
    apply bind_ok in Hs as (t & w2 & Hg & Hs). apply getTableInfo_ok in Hg as ->.
    apply IH in Hs as ->. by rewrite <- app_assoc.
Qed.

Lemma discover_ok (src : Database Datum) w tables w' :
  discover src w = (inr tables, w') -> tables = describe src.
Proof.
  intros Hd. apply bind_ok in Hd as ([] & w1 & _ & Hd).
  apply bind_ok in Hd as ([] & w2 & _ & Hd). apply bind_ok in Hd as ([] & w3 & _ & Hd).
  by apply scanTables_ok in Hd as ->.
Qed.

Lemma scanColumns_quiet rows table tg tx :
  @scanColumns Datum _ _ rows table (mkWorld [] tg tx)
  = (inr (fold_left scanColumn rows table), mkWorld [] tg tx).
Proof.
  revert table. induction rows as [|c rows IH]; intros table; [done|].
  cbn [scanColumns fold_left]. erewrite bind_inr by apply call_quiet. apply IH.
Qed.

Lemma scanTables_quiet (db : Database Datum) names tables tg tx :
  scanTables db names tables (mkWorld [] tg tx)
  = (inr (tables ++ map (fun n => buildTable n (table_info (catalog db) n)) names)%list,
     mkWorld [] tg tx).
Proof.
  revert tables. induction names as [|n names IH]; intros tables.
  - cbn. by rewrite app_nil_r.
  - cbn [scanTables map]. erewrite bind_inr by apply call_quiet.
    erewrite bind_inr.
    2:{ unfold getTableInfo. erewrite bind_inr by apply call_quiet.
        erewrite bind_inr by apply scanColumns_quiet. reflexivity. }
    rewrite IH. by rewrite <- app_assoc.
Qed.

Lemma discover_quiet (src : Database Datum) tg tx :
  discover src (mkWorld [] tg tx) = (inr (describe src), mkWorld [] tg tx).
Proof.
  unfold discover.
  erewrite bind_inr by (apply wrap_inr, call_quiet).
  erewrite bind_inr by (apply wrap_inr, call_quiet).
  unfold getTables. erewrite bind_inr by apply call_quiet. apply scanTables_quiet.
Qed.

Lemma Sync_discover src cfg w :
  Sync E src cfg w
  = bind (discover src) (fun tables => syncTables E src cfg (retainTables cfg tables)) w.
Proof.
  unfold Sync, discover, bind.
  destruct (wrap "opening source db" (call "open") w) as [[e|[]] w1]; [done|].
  destruct (wrap "opening target db" (call "open") w1) as [[e|[]] w2]; [done|].
  by destruct (getTables src w2) as [[e|tables] w3].
Qed.

(** ** The allowlist *)

Lemma buildTableMap_lookup names n :
  default false (buildTableMap names !! n) = bool_decide (n ∈ names).
Proof.
  unfold buildTableMap.
  assert (forall m : gmap string bool,
    default false (fold_left (fun m t => <[t := true]> m) names m !! n)
    = bool_decide (n ∈ names) || default false (m !! n)) as Hgen.
  { induction names as [|t names IH]; intros m; [done|].
    cbn [fold_left]. rewrite IH. rewrite lookup_insert.
    destruct (decide (t = n)) as [->|Hne].
    - rewrite (bool_decide_eq_true_2 (n ∈ n :: names)) by left. cbn. by rewrite orb_true_r.
    - f_equal. apply bool_decide_ext. rewrite elem_of_cons.
      split; [by right|]. intros [Heq|Hin]; [by subst|done]. }
  rewrite Hgen, lookup_empty. cbn. by rewrite orb_false_r.
Qed.

Lemma filterTables_filter names tables :
  filterTables (buildTableMap names) tables
  = filter (fun table => name table ∈ names) tables.
Proof.
  unfold filterTables.
  assert (forall acc,
    fold_left (fun (filteredTables : list Table) (table : Table) =>
                 if default false (buildTableMap names !! name table)
                 then (filteredTables ++ [table])%list else filteredTables) tables acc
    = (acc ++ filter (fun table => name table ∈ names) tables)%list) as Hgen.
  { induction tables as [|t tables IH]; intros acc; [by rewrite app_nil_r|].
    cbn [fold_left]. rewrite IH, buildTableMap_lookup. rewrite filter_cons.
    destruct (decide (name t ∈ names)) as [Hin|Hin].
    - rewrite bool_decide_eq_true_2 by done. by rewrite <- app_assoc.
    - by rewrite bool_decide_eq_false_2 by done. }
  by rewrite Hgen.
Qed.

Lemma retainTables_allowlisted cfg tables table :
  Tables cfg ≠ [] -> table ∈ retainTables cfg tables -> name table ∈ Tables cfg.
Proof.
  intros Hne. unfold retainTables. destruct (Tables cfg) as [|n names] eqn:Ht; [done|].
  cbn [length Nat.ltb Nat.leb]. rewrite filterTables_filter.
  intros Hin. by apply list_elem_of_filter in Hin as [? _].
Qed.

(** ** One table at a time *)

Lemma database_eta (db : Database Datum) : mkDatabase (catalog db) (data db) = db.
Proof. by destruct db. Qed.

Lemma syncTable_frame src table cfg w r w' :
  syncTable E src table cfg w = (r, w') ->
  catalog (target w') = catalog (target w)
  ∧ forall t, t ≠ name table -> data (target w') !! t = data (target w) !! t.
Proof.
  destruct r as [e|[]]; intros Hs.
  - apply syncTable_error in Hs as ->. done.
  - apply syncTable_ok in Hs as (srcRows & dstRows & _ & _ & ->). cbn [catalog data].
    split; [done|]. intros t Hne. by rewrite lookup_insert_ne.
Qed.

Lemma syncTables_txn src cfg tables w r w' :
  syncTables E src cfg tables w = (r, w') -> txn w = None -> txn w' = None.
Proof.
  revert w. induction tables as [|table tables IH]; intros w.
  - by intros [= _ <-].
  - cbn [syncTables]. unfold bind, wrap.
    destruct (syncTable E src table cfg w) as [[e|[]] w1] eqn:Hs.
    + intros [= _ <-]. by eapply syncTable_txn.
    + intros Hrest Ht. eapply IH; [done|]. by eapply syncTable_txn.
Qed.

(** A relation between the target before and after that every table's
    synchronisation respects is respected by the whole loop. *)
Lemma syncTables_preserves (P : Database Datum -> Database Datum -> Prop) src cfg tables :
  (forall d, P d d) -> (forall a b c, P a b -> P b c -> P a c) ->
  (forall table w r w', table ∈ tables ->
     syncTable E src table cfg w = (r, w') -> P (target w) (target w')) ->
  forall w r w', syncTables E src cfg tables w = (r, w') -> P (target w) (target w').
Proof.
  intros Hrefl Htrans. induction tables as [|table tables IH]; intros Hstep w r w'.
  - by intros [= _ <-].
  - cbn [syncTables]. unfold bind, wrap.
    destruct (syncTable E src table cfg w) as [[e|[]] w1] eqn:Hs.
    + intros [= _ <-]. eapply Hstep; [left|done].
    + intros Hrest. eapply Htrans.
      * eapply Hstep; [left|done].
      * eapply IH; [|done]. intros t w0 r0 w0' Hin. apply Hstep. by right.
Qed.

Lemma Sync_preserves (P : Database Datum -> Database Datum -> Prop) src cfg :
  (forall d, P d d) -> (forall a b c, P a b -> P b c -> P a c) ->
  (forall table w r w', table ∈ retainTables cfg (describe src) ->
     syncTable E src table cfg w = (r, w') -> P (target w) (target w')) ->
  forall w r w', Sync E src cfg w = (r, w') -> P (target w) (target w').
Proof.
  intros Hrefl Htrans Hstep w r w'. rewrite Sync_discover. unfold bind.
  pose proof (discover_store src w) as Hst.
  destruct (discover src w) as [[e|tables] w1] eqn:Hd; injection Hst as Htg _; simpl in Htg.
  - intros [= _ <-]. rewrite Htg. apply Hrefl.
  - apply discover_ok in Hd as ->. intros Hs. rewrite <- Htg.
    by eapply syncTables_preserves.
Qed.

Lemma Sync_txn src cfg w r w' :
  Sync E src cfg w = (r, w') -> txn w = None -> txn w' = None.
Proof.
  rewrite Sync_discover. unfold bind.
  pose proof (discover_store src w) as Hst.
  destruct (discover src w) as [[e|tables] w1] eqn:Hd; injection Hst as _ Ht; simpl in Ht.
  - intros [= _ <-]. congruence.
  - intros Hs Hn. eapply syncTables_txn; [done|]. congruence.
Qed.

Lemma rowsOf_insert (db : Database Datum) t rows t' :
  rowsOf (mkDatabase (catalog db) (<[t := rows]> (data db))) t'
  = if decide (t = t') then rows else rowsOf db t'.
Proof. unfold rowsOf. cbn [data]. rewrite lookup_insert. by destruct (decide (t = t')). Qed.

Lemma rowsOf_Some (db : Database Datum) t rows : data db !! t = Some rows -> rowsOf db t = rows.
Proof. unfold rowsOf. by intros ->. Qed.

(** ** The claims about one table *)

(** C2. The select carries the clause [WHERE pk op ?] exactly when the filter
    value is non-empty and the operator is one of gt, lt, gte, lte.  When either
    is absent the statement is the plain select, every source row is in the
    scope of the copy, and on an engine that does not fail the table's
    synchronisation succeeds and the target holds every source row. *)
Theorem filter_needs_operator_and_value src dst table cfg :
  let plain := "SELECT " +:+ String.concat ", " (selectCols table) +:+ " FROM " +:+ name table in
  (Value cfg ≠ "" ∧ filterOp (Filter cfg) ≠ "" ->
     buildSelectQuery table cfg
     = plain +:+ " WHERE " +:+ pkCol table +:+ " " +:+ filterOp (Filter cfg) +:+ " ?"
     ∧ filterCond table cfg = Some (pkCol table, filterOp (Filter cfg)))
  ∧ (Value cfg = "" ∨ Filter cfg = "" ∨ Filter cfg ∉ ["gt"; "lt"; "gte"; "lte"] ->
     buildSelectQuery table cfg = plain
     ∧ (forall srcRows, copyScope E table cfg srcRows = srcRows)
     ∧ (is_Some (data src !! name table) -> is_Some (data dst !! name table) ->
        (syncTable E src table cfg (quiet dst)).1 = inr tt
        ∧ forall k cells,
            rowsOf src (name table) !! k = Some cells ->
            rowsOf (target (syncTable E src table cfg (quiet dst)).2) (name table) !! k
            = Some cells)).
Proof.
  intros plain. split.
  - intros [Hv Ho].
    assert (filterCond table cfg = Some (pkCol table, filterOp (Filter cfg))) as Hc.
    { unfold filterCond. destruct (String.eqb_spec (Value cfg) "") as [|_]; [done|].
      destruct (String.eqb_spec (Filter cfg) "") as [Hf|_]; [by rewrite Hf in Ho|].
      cbn. by destruct (String.eqb_spec (filterOp (Filter cfg)) ""). }
    split; [|done]. rewrite <- sql_selectStmt. unfold selectStmt. rewrite Hc. done.
  - intros Habs.
    assert (filterCond table cfg = None) as Hc.
    { apply filterCond_None. destruct Habs as [Hv|[Hf|Hf]]; [by left|right..].
      - by rewrite Hf.
      - destruct (filterOp_cases (Filter cfg)) as [[Hg _]|[[Hg _]|[[Hg _]|[[Hg _]|Hg]]]];
          [exfalso; apply Hf; rewrite Hg; set_solver..|apply Hg]. }
    split; [|split].
    + rewrite <- sql_selectStmt. unfold selectStmt. by rewrite Hc.
    + intros srcRows. by apply copyScope_all.
    + intros [srcRows Hsrc] [dstRows Hdst]. rewrite syncTable_quiet.
      unfold syncStep. rewrite Hsrc, Hdst. cbn [fst snd quiet target]. split; [done|].
      intros k cells Hk. rewrite rowsOf_insert, decide_True by done.
      rewrite (rowsOf_Some _ _ _ Hsrc) in Hk.
      apply reconcile_copies. by rewrite copyScope_all.
Qed.

(** ** The claims about the whole run *)

Lemma name_scanColumns info table : name (fold_left scanColumn info table) = name table.
Proof.
  revert table. induction info as [|c info IH]; intros table; [done|].
  cbn [fold_left]. rewrite IH. unfold scanColumn. by destruct (0 <? pk c).
Qed.

Lemma name_buildTable n info : name (buildTable n info) = n.
Proof.
  unfold buildTable, defaultPk. destruct (String.eqb _ ""); cbn [name]; apply name_scanColumns.
Qed.

Lemma describe_names (src : Database Datum) table :
  table ∈ describe src -> name table ∈ (catalog src).*1.
Proof.
  unfold describe. intros Hin. apply list_elem_of_fmap in Hin as (n & -> & Hin).
  by rewrite name_buildTable.
Qed.

Lemma filter_tables_ext (P Q : Table -> Prop) `{!forall t, Decision (P t)}
    `{!forall t, Decision (Q t)} (tables : list Table) :
  (forall t, t ∈ tables -> P t ↔ Q t) -> filter P tables = filter Q tables.
Proof.
  induction tables as [|t tables IH]; intros Hext; [done|].
  rewrite !filter_cons. rewrite IH by (intros t' Hin; apply Hext; by right).
  destruct (decide (P t)) as [Hp|Hp], (decide (Q t)) as [Hq|Hq]; try done.
  - exfalso. apply Hq, (Hext t); [left|done].
  - exfalso. apply Hp, (Hext t); [left|done].
Qed.

Lemma filter_tables_none (P : Table -> Prop) `{!forall t, Decision (P t)} (tables : list Table) :
  (forall t, t ∈ tables -> ¬ P t) -> filter P tables = [].
Proof.
  induction tables as [|t tables IH]; intros Hnone; [done|].
  rewrite filter_cons, decide_False by (apply Hnone; left).
  apply IH. intros t' Hin. apply Hnone. by right.
Qed.

Lemma retainTables_filter cfg tables :
  Tables cfg ≠ [] ->
  retainTables cfg tables = filter (fun table => name table ∈ Tables cfg) tables.
Proof.
  intros Hne. unfold retainTables. destruct (Tables cfg) as [|n names]; [done|].
  cbn [length Nat.ltb Nat.leb]. apply filterTables_filter.
Qed.

Lemma syncTables_app src cfg pre rest w :
  syncTables E src cfg (pre ++ rest) w
  = bind (syncTables E src cfg pre) (fun _ => syncTables E src cfg rest) w.
Proof.
  revert w. induction pre as [|table pre IH]; intros w; [done|].
  cbn [app syncTables]. rewrite bind_assoc. unfold bind at 1 2.
  destruct (wrap _ _ w) as [[e|[]] w1]; [done|]. apply IH.
Qed.

(** C9. [Sync] lists the tables in catalog order and synchronises the
    retained ones one after the other.  When the tables before [table] are
    synchronised and [syncTable] fails on [table], [Sync] returns that error
    wrapped as "syncing table <name>: ...", in the world that failure left:
    the tables after it are not attempted (nothing further is asked of the
    engine), and what the tables before it committed stays in the target. *)
Theorem Sync_aborts_on_first_failure src cfg w tables w0 pre table post w1 e w2 :
  discover src w = (inr tables, w0) ->
  retainTables cfg tables = (pre ++ table :: post)%list ->
  syncTables E src cfg pre w0 = (inr tt, w1) ->
  syncTable E src table cfg w1 = (inl e, w2) ->
  tables = describe src
  ∧ Sync E src cfg w = (inl (Wrapped ("syncing table " +:+ name table) e), w2)
  ∧ target w2 = target w1.
Proof.
  intros Hd Hret Hpre Hfail. split; [by eapply discover_ok|]. split.
  - rewrite Sync_discover. erewrite bind_inr by exact Hd. rewrite Hret, syncTables_app.
    erewrite bind_inr by exact Hpre. cbn [syncTables]. apply bind_inl.
    unfold wrap. by rewrite Hfail.
  - by eapply syncTable_error.
Qed.

(** ** The descriptor *)

Lemma pkCol_scanColumns info table :
  pkCol (fold_left scanColumn info table)
  = match last (filter (fun c => 0 < pk c) info) with
    | Some c => col_name c
    | None => pkCol table
    end.
Proof.
  revert table. induction info as [|c info IH]; intros table; [done|].
  cbn [fold_left]. rewrite IH, filter_cons. unfold scanColumn.
  destruct (Z.ltb_spec 0 (pk c)) as [Hpk|Hpk].
  - rewrite decide_True by done. rewrite last_cons. cbn [pkCol].
    by destruct (last (filter _ info)).
  - rewrite decide_False by lia. done.
Qed.

Lemma columns_scanColumns info table :
  columns (fold_left scanColumn info table) = (columns table ++ map col_name info)%list.
Proof.
  revert table. induction info as [|c info IH]; intros table.
  - cbn. by rewrite app_nil_r.
  - cbn [fold_left map]. rewrite IH. unfold scanColumn.
    destruct (0 <? pk c); cbn [columns]; by rewrite <- app_assoc.
Qed.

Lemma columns_buildTable n info : columns (buildTable n info) = map col_name info.
Proof.
  unfold buildTable, defaultPk.
  destruct (String.eqb _ ""); cbn [columns]; by rewrite columns_scanColumns.
Qed.

(** C3, amended. The key column of the descriptor is the LAST column of the
    [table_info] rows whose [pk] is positive (each flagged row overwrites
    [pkCol]); it is "rowid" when no column is flagged (or the flagged one has
    an empty name), so it is never empty. *)
Theorem getTableInfo_pkCol (db : Database Datum) tableName w table w' :
  getTableInfo db tableName w = (inr table, w') ->
  pkCol table
  = match last (filter (fun c => 0 < pk c) (table_info (catalog db) tableName)) with
    | Some c => if String.eqb (col_name c) "" then "rowid" else col_name c
    | None => "rowid"
    end
  ∧ pkCol table ≠ "".
Proof.
  intros Hg. apply getTableInfo_ok in Hg as ->. unfold buildTable, defaultPk.
  rewrite pkCol_scanColumns. cbn [pkCol].
  destruct (last (filter _ _)) as [c|] eqn:Hlast; [|done].
  destruct (String.eqb_spec (col_name c) ""); cbn [pkCol]; [done|].
  by rewrite pkCol_scanColumns, Hlast.
Qed.

(** C4, amended. The descriptor's [columns] are ALL the columns of the
    table in schema order, the key column included when it is a declared one.
    The select lists [pkCol] first and then [columns]: with distinct column
    names, a column other than the key appears once, and the key column
    appears twice when it is declared and once when it is the implicit
    rowid. *)
Theorem getTableInfo_columns (db : Database Datum) tableName w table w' :
  getTableInfo db tableName w = (inr table, w') ->
  let declared := map col_name (table_info (catalog db) tableName) in
  columns table = declared
  ∧ (forall cfg,
       buildSelectQuery table cfg
       = sql (Select (pkCol table :: declared) tableName (filterCond table cfg)))
  ∧ (NoDup declared ->
     forall c, count_occ string_dec (selectCols table) c
               = ((if decide (c = pkCol table) then 1 else 0)
                  + (if decide (c ∈ declared) then 1 else 0))%nat).
Proof.
  intros Hg declared. apply getTableInfo_ok in Hg as ->.
  assert (columns (buildTable tableName (table_info (catalog db) tableName)) = declared) as Hc
    by apply columns_buildTable.
  split; [done|]. split.
  - intros cfg. rewrite <- sql_selectStmt. unfold selectStmt, selectCols.
    by rewrite Hc, name_buildTable.
  - intros Hnd c. unfold selectCols. rewrite Hc. cbn [count_occ].
    assert (count_occ string_dec declared c = if decide (c ∈ declared) then 1 else 0)%nat as Hcount.
    { destruct (decide (c ∈ declared)) as [Hin|Hin].
      - apply NoDup_count_occ'; [by apply NoDup_ListNoDup|by apply list_elem_of_In].
      - apply count_occ_not_In. by rewrite <- list_elem_of_In. }
    rewrite <- Hcount.
    by destruct (string_dec _ c) as [Heq|Hne], (decide (c = _)) as [Heq'|Hne'].
Qed.

End Frames.

(** ** The order of enumeration does not matter *)

Section Simulation.
Context {Datum : Type} `{Countable Datum}.
















End Simulation.

Section Determinism.
Context {Datum : Type} `{Countable Datum}.
Variables E1 E2 : Engine Datum.
Hypothesis same_compare : compare_key E1 = compare_key E2.










End Determinism.

(** * The model on concrete databases *)

(** ** The cases of [TestSync] *)

Example TestSync_multiple_tables :
  let r := runSync sqliteEngine [] shop_src shop_tgt (testConfig "" "" false []) in
  r.1 = None
  ∧ rowsOf r.2 "users" = tableOf users_src
  ∧ rowsOf r.2 "orders" = tableOf orders_src.
Proof. vm_compute. done. Qed.

Example TestSync_filter_greater_than :
  let r := runSync sqliteEngine [] products_src_db products_tgt_db (testConfig "gt" "1" false []) in
  r.1 = None
  ∧ rowsOf r.2 "products"
    = tableOf [ [CInt 1; CText "Old Item 1"; CReal 90 (-1)];
                [CInt 2; CText "Item 2"; CReal 200 (-1)];
                [CInt 3; CText "Item 3"; CReal 300 (-1)] ].
Proof. vm_compute. done. Qed.

Example TestSync_filter_less_than :
  let r := runSync sqliteEngine [] products_src_db products_tgt_db (testConfig "lt" "3" false []) in
  r.1 = None
  ∧ rowsOf r.2 "products"
    = tableOf [ [CInt 1; CText "Item 1"; CReal 100 (-1)];
                [CInt 2; CText "Item 2"; CReal 200 (-1)];
                [CInt 3; CText "Old Item 3"; CReal 290 (-1)] ].
Proof. vm_compute. done. Qed.

Example TestSync_filter_greater_or_equal :
  let r := runSync sqliteEngine [] products_src_db products_tgt_db (testConfig "gte" "2" false []) in
  r.1 = None
  ∧ rowsOf r.2 "products"
    = tableOf [ [CInt 1; CText "Old Item 1"; CReal 90 (-1)];
                [CInt 2; CText "Item 2"; CReal 200 (-1)];
                [CInt 3; CText "Item 3"; CReal 300 (-1)] ].
Proof. vm_compute. done. Qed.

Example TestSync_filter_less_or_equal :
  let r := runSync sqliteEngine [] products_src_db products_tgt_db (testConfig "lte" "2" false []) in
  r.1 = None
  ∧ rowsOf r.2 "products"
    = tableOf [ [CInt 1; CText "Item 1"; CReal 100 (-1)];
                [CInt 2; CText "Item 2"; CReal 200 (-1)];
                [CInt 3; CText "Old Item 3"; CReal 290 (-1)] ].
Proof. vm_compute. done. Qed.

Example TestSync_no_delete :
  let r := runSync sqliteEngine [] categories_src_db categories_tgt_db (testConfig "" "" true []) in
  r.1 = None
  ∧ rowsOf r.2 "categories"
    = tableOf [ [CInt 1; CText "Category 1"];
                [CInt 2; CText "Category 2"];
                [CInt 3; CText "Category 3"] ].
Proof. vm_compute. done. Qed.

Example TestSync_filter_with_no_delete :
  let r := runSync sqliteEngine [] products_src_db products_tgt4_db (testConfig "gte" "2" true []) in
  r.1 = None
  ∧ rowsOf r.2 "products"
    = tableOf [ [CInt 1; CText "Old Item 1"; CReal 90 (-1)];
                [CInt 2; CText "Item 2"; CReal 200 (-1)];
                [CInt 3; CText "Item 3"; CReal 300 (-1)];
                [CInt 4; CText "Old Item 4"; CReal 390 (-1)] ].
Proof. vm_compute. done. Qed.

Example TestSync_specific_tables_only :
  let r := runSync sqliteEngine [] shop_src shop_tgt (testConfig "" "" false ["users"]) in
  r.1 = None
  ∧ rowsOf r.2 "users" = tableOf users_src
  ∧ rowsOf r.2 "orders" = tableOf orders_tgt.
Proof. vm_compute. done. Qed.

(** ** The statements the Go code hands to the engine *)

Example buildSelectQuery_users :
  buildSelectQuery users_table (testConfig "gt" "1" false [])
  = "SELECT id, id, name, email FROM users WHERE id > ?".
Proof. reflexivity. Qed.

Example buildInsertQuery_users :
  buildInsertQuery users_table
  = "INSERT OR REPLACE INTO users (id, id, name, email) VALUES (?, ?, ?, ?)".
Proof. reflexivity. Qed.

Example buildOrphanDeleteQuery_users :
  buildOrphanDeleteQuery users_table 3 = "DELETE FROM users WHERE id NOT IN (?,?,?)".
Proof. reflexivity. Qed.

Example Error_syncing_table :
  Error (Wrapped ("syncing table " +:+ name orders_table) (EngineError "no such table"))
  = "syncing table orders: no such table".
Proof. reflexivity. Qed.

Example describe_three_src :
  describe three_src = [users_table; orders_table; categories_table].
Proof. reflexivity. Qed.

(** ** Instances of the claims *)

(** The filter operator without a value: the plain select, and every source
    row reaches the target. *)
Lemma filter_needs_operator_and_value_witness :
  let cfg := testConfig "gt" "" false [] in
  let run := syncTable sqliteEngine products_src_db
               (mkTable "products" ["id"; "name"; "price"] "id") cfg (quiet products_tgt_db) in
  buildSelectQuery (mkTable "products" ["id"; "name"; "price"] "id") cfg
  = "SELECT id, id, name, price FROM products"
  ∧ run.1 = inr tt
  ∧ rowsOf (target run.2) "products" !! CInt 1
    = Some [CInt 1; CText "Item 1"; CReal 100 (-1)].
Proof.
  intros cfg run.
  destruct (filter_needs_operator_and_value sqliteEngine products_src_db products_tgt_db
              (mkTable "products" ["id"; "name"; "price"] "id") cfg) as [_ Habsent].
  destruct (Habsent (or_introl eq_refl)) as (Hq & _ & Hrun).
  destruct Hrun as [Hok Hrows].
  - eexists. vm_compute. reflexivity.
  - eexists. vm_compute. reflexivity.
  - split; [exact Hq|]. split; [exact Hok|].
    apply Hrows. vm_compute. reflexivity.
Defined.

(** The target lacks [orders]: [users] is committed, [orders] fails, and
    [categories] is never attempted. *)
Lemma Sync_aborts_on_first_failure_witness :
  let cfg := testConfig "" "" false [] in
  syncTables sqliteEngine three_src cfg [users_table] (quiet three_tgt)
  = (inr tt, quiet three_mid)
  ∧ syncTable sqliteEngine three_src orders_table cfg (quiet three_mid)
    = (inl (EngineError "no such table"), quiet three_mid)
  ∧ Sync sqliteEngine three_src cfg (quiet three_tgt)
    = (inl (Wrapped "syncing table orders" (EngineError "no such table")), quiet three_mid)
  ∧ rowsOf three_mid "users" = tableOf users_src
  ∧ rowsOf three_mid "categories" = tableOf categories_tgt.
Proof.
  intros cfg.
  assert (syncTables sqliteEngine three_src cfg [users_table] (quiet three_tgt)
          = (inr tt, quiet three_mid)) as Hpre by (vm_compute; reflexivity).
  assert (syncTable sqliteEngine three_src orders_table cfg (quiet three_mid)
          = (inl (EngineError "no such table"), quiet three_mid)) as Hfail
    by (vm_compute; reflexivity).
  split; [exact Hpre|]. split; [exact Hfail|]. split.
  - refine (proj1 (proj2 (Sync_aborts_on_first_failure sqliteEngine three_src cfg
               (quiet three_tgt) (describe three_src) (quiet three_tgt)
               [users_table] orders_table [categories_table] (quiet three_mid)
               (EngineError "no such table") (quiet three_mid) _ _ Hpre Hfail))).
    + vm_compute. reflexivity.
    + vm_compute. reflexivity.
  - split; vm_compute; reflexivity.
Defined.


(** C3 as stated fails: with the primary key (a, b) the first flagged column
    is [a], and the descriptor's key column is [b]. *)
Lemma first_key_column_not_chosen :
  col_name <$> head (filter (fun c => 0 < pk c) (table_info (catalog pairs_db) "pairs"))
  = Some "a"
  ∧ (getTableInfo pairs_db "pairs" (quiet pairs_db)).1
    = inr (mkTable "pairs" ["a"; "b"; "v"] "b").
Proof. split; reflexivity. Qed.

Lemma getTableInfo_pkCol_witness :
  getTableInfo pairs_db "pairs" (quiet pairs_db)
  = (inr (mkTable "pairs" ["a"; "b"; "v"] "b"), quiet pairs_db)
  ∧ pkCol (mkTable "pairs" ["a"; "b"; "v"] "b") = "b"
  ∧ getTableInfo notes_db "notes" (quiet notes_db)
    = (inr (mkTable "notes" ["body"] "rowid"), quiet notes_db).
Proof.
  split; [reflexivity|]. split; [|reflexivity].
  exact (proj1 (getTableInfo_pkCol pairs_db "pairs" (quiet pairs_db)
                  (mkTable "pairs" ["a"; "b"; "v"] "b") (quiet pairs_db) eq_refl)).
Defined.

(** C4 as stated fails: [columns] of [users] holds the key column [id] too,
    and the select names [id] twice. *)
Lemma key_column_listed_twice :
  (getTableInfo shop_src "users" (quiet shop_src)).1 = inr users_table
  ∧ columns users_table = ["id"; "name"; "email"]
  ∧ columns users_table ≠ ["name"; "email"]
  ∧ count_occ string_dec (selectCols users_table) "id" = 2%nat
  ∧ buildSelectQuery users_table (testConfig "" "" false [])
    = "SELECT id, id, name, email FROM users".
Proof. repeat split; try reflexivity. discriminate. Qed.

Lemma getTableInfo_columns_witness :
  getTableInfo shop_src "users" (quiet shop_src) = (inr users_table, quiet shop_src)
  ∧ columns users_table = ["id"; "name"; "email"]
  ∧ count_occ string_dec (selectCols users_table) "id" = 2%nat
  ∧ count_occ string_dec (selectCols users_table) "email" = 1%nat.
Proof.
  destruct (getTableInfo_columns shop_src "users" (quiet shop_src) users_table
              (quiet shop_src) eq_refl) as (Hcols & _ & Hcount).
  split; [reflexivity|]. split; [exact Hcols|].
  assert (NoDup (map col_name (table_info (catalog shop_src) "users"))) as Hnd.
  { cbn. repeat constructor; cbn; intros Hin;
      repeat (apply elem_of_cons in Hin as [Heq|Hin]; [discriminate Heq|]);
      by apply elem_of_nil in Hin. }
  split; [exact (Hcount Hnd "id")|exact (Hcount Hnd "email")].
Defined.

(** * Further properties of the code *)

Section Rows.
Context {Datum : Type} `{Countable Datum}.
Variable E : Engine Datum.

(** X4. [syncTable] never creates a table: when the source or the target has no
    table of that name it returns an error, whatever the engine does, and the
    target is as before. *)
Theorem syncTable_needs_both_tables src table cfg w :
  data src !! name table = None ∨ data (target w) !! name table = None ->
  (exists e, (syncTable E src table cfg w).1 = inl e)
  ∧ target (syncTable E src table cfg w).2 = target w.
Proof.
  intros Hmiss. destruct (syncTable E src table cfg w) as [[e|[]] w'] eqn:Hs; cbn [fst snd].
  - split; [by exists e|]. by eapply syncTable_error.
  - apply syncTable_ok in Hs as (srcRows & dstRows & Hsrc & Hdst & _).
    destruct Hmiss; congruence.
Qed.

End Rows.

Section Errors.
Context {Datum : Type} `{Countable Datum}.
Variable E : Engine Datum.

Lemma raises_ret {A} (P : error -> Prop) (a : A) : raises P (@ret Datum _ _ A a).
Proof. by intros w e w'. Qed.

Lemma raises_bind {A B} (P : error -> Prop) (m : M Datum A) (f : A -> M Datum B) :
  raises P m -> (forall a, raises P (f a)) -> raises P (bind m f).
Proof.
  intros Hm Hf w e w'. unfold bind. destruct (m w) as [[e1|a] w1] eqn:H1.
  - intros [= <- <-]. by eapply Hm.
  - apply Hf.
Qed.

Lemma raises_call op : raises (fun e => e = EngineError op) (@call Datum _ _ op).
Proof. intros [[|[] o] tg tx] e w'; cbn; [done| |done]. by intros [= <- _]. Qed.

Lemma raises_weaken {A} (P Q : error -> Prop) (m : M Datum A) :
  (forall e, P e -> Q e) -> raises P m -> raises Q m.
Proof. intros Hpq Hm w e w' Hw. apply Hpq. by eapply Hm. Qed.

Lemma raises_call_unwrapped op : raises unwrapped (@call Datum _ _ op).
Proof. eapply raises_weaken; [|apply raises_call]. intros e ->. by exists op. Qed.

Lemma raises_scanColumns rows table : raises unwrapped (@scanColumns Datum _ _ rows table).
Proof.
  revert table. induction rows as [|c rows IH]; intros table; [apply raises_ret|].
  cbn [scanColumns]. apply raises_bind; [apply raises_call_unwrapped|]. done.
Qed.

Lemma raises_getTableInfo (db : Database Datum) n : raises unwrapped (getTableInfo db n).
Proof.
  apply raises_bind; [apply raises_call_unwrapped|]. intros _.
  apply raises_bind; [apply raises_scanColumns|]. intros table. apply raises_ret.
Qed.

Lemma raises_getTables (db : Database Datum) : raises unwrapped (getTables db).
Proof.
  apply raises_bind; [apply raises_call_unwrapped|]. intros _.
  generalize (@nil Table). induction (map fst (catalog db)) as [|n names IH]; intros tables.
  - apply raises_ret.
  - cbn [scanTables]. apply raises_bind; [apply raises_call_unwrapped|]. intros _.
    apply raises_bind; [apply raises_getTableInfo|]. done.
Qed.

Lemma raises_open context :
  raises (fun e => e = Wrapped context (EngineError "open"))
         (wrap context (@call Datum _ _ "open")).
Proof.
  intros w e w'. unfold wrap. destruct (call "open" w) as [[e1|a] w1] eqn:Hc; [|done].
  intros [= <- _]. by apply raises_call in Hc as ->.
Qed.

Lemma raises_syncTables src cfg tables :
  raises (fun e => exists table cause,
            table ∈ tables ∧ e = Wrapped ("syncing table " +:+ name table) cause)
         (syncTables E src cfg tables).
Proof.
  induction tables as [|table tables IH]; [apply raises_ret|].
  cbn [syncTables]. apply raises_bind.
  - intros w e w'. unfold wrap.
    destruct (syncTable E src table cfg w) as [[e1|a] w1]; [|done].
    intros [= <- _]. exists table, e1. split; [left|done].
  - intros _. eapply raises_weaken; [|apply IH].
    intros e (t & cause & Hin & ->). exists t, cause. split; [by right|done].
Qed.

(** X8. Every error of [Sync] names its stage: failing to open a handle is
    wrapped as "opening source db" or "opening target db", an error of the
    table listing comes back as it is, and an error of a table's
    synchronisation is wrapped with the name of that table, one of the
    retained ones.  In the first three cases the target is untouched. *)
Theorem Sync_error_stage src cfg w e :
  (Sync E src cfg w).1 = inl e ->
  ((e = Wrapped "opening source db" (EngineError "open")
    ∨ e = Wrapped "opening target db" (EngineError "open")
    ∨ exists op, e = EngineError op)
   ∧ target (Sync E src cfg w).2 = target w)
  ∨ exists table cause,
      table ∈ retainTables cfg (describe src)
      ∧ e = Wrapped ("syncing table " +:+ name table) cause.
Proof.
  rewrite Sync_discover. unfold bind.
  pose proof (discover_store src w) as Hst.
  destruct (discover src w) as [[e1|tables] w1] eqn:Hd; injection Hst as Htg _; cbn [snd] in Htg.
  - cbn [fst snd]. intros [= <-]. left. split; [|done].
    revert Hd. generalize e1 w1. generalize w.
    change (raises (fun e => e = Wrapped "opening source db" (EngineError "open")
                             ∨ e = Wrapped "opening target db" (EngineError "open")
                             ∨ unwrapped e) (discover src)).
    unfold discover. apply raises_bind.
    { eapply raises_weaken; [|apply raises_open]. by left. }
    intros _. apply raises_bind.
    { eapply raises_weaken; [|apply raises_open]. by right; left. }
    intros _. eapply raises_weaken; [|apply raises_getTables]. by right; right.
  - apply discover_ok in Hd as ->.
    destruct (syncTables _ _ _ _ w1) as [r w2] eqn:Hrun. cbn [fst]. intros ->.
    right. by apply raises_syncTables in Hrun.
Qed.

End Errors.

(** ** The allowlist and the statements *)

(** X11. The allowlist is a set of names: with none given every table is
    retained; otherwise the retained tables are the listed ones in the order
    of the table list (not of the allowlist), and two lists with the same
    names, in any order and with any repetition, retain the same tables. *)
Theorem retainTables_allowlist_is_a_set cfg (tables : list Table) :
  (Tables cfg = [] -> retainTables cfg tables = tables)
  ∧ retainTables cfg tables `sublist_of` tables
  ∧ (forall table, Tables cfg ≠ [] ->
       table ∈ retainTables cfg tables ↔ table ∈ tables ∧ name table ∈ Tables cfg)
  ∧ (forall cfg', Tables cfg ≠ [] -> (forall n, n ∈ Tables cfg ↔ n ∈ Tables cfg') ->
       retainTables cfg' tables = retainTables cfg tables).
Proof.
  split; [|split; [|split]].
  - intros Ht. unfold retainTables. by rewrite Ht.
  - unfold retainTables. destruct (0 <? length (Tables cfg))%nat; [|done].
    rewrite filterTables_filter. apply sublist_filter.
  - intros table Hne. rewrite retainTables_filter by done. rewrite list_elem_of_filter.
    tauto.
  - intros cfg' Hne Hsame.
    assert (Tables cfg' ≠ []) as Hne'.
    { destruct (Tables cfg) as [|n names] eqn:Hc; [done|]. intros Hnil.
      assert (n ∈ Tables cfg') as Hin by (apply Hsame; left). rewrite Hnil in Hin.
      by apply elem_of_nil in Hin. }
    rewrite !retainTables_filter by done. apply filter_tables_ext.
    intros table _. symmetry. apply Hsame.
Qed.

(** X12. The filter value is bound, never spliced in: the text of the select does
    not depend on the value beyond its being empty or not. *)
Theorem buildSelectQuery_binds_value table cfg cfg' :
  Filter cfg = Filter cfg' ->
  (Value cfg = "" ↔ Value cfg' = "") ->
  buildSelectQuery table cfg = buildSelectQuery table cfg'.
Proof.
  intros Hf Hv. unfold buildSelectQuery. rewrite <- Hf.
  destruct (String.eqb_spec (Value cfg) "") as [He|He],
           (String.eqb_spec (Value cfg') "") as [He'|He']; try done.
  - by apply Hv in He.
  - by apply Hv in He'.
Qed.

Lemma string_app_assoc (s1 s2 s3 : string) : (s1 +:+ s2) +:+ s3 = s1 +:+ (s2 +:+ s3).
Proof.
  induction s1 as [|a s1 IH]; [done|].
  change (String a ((s1 +:+ s2) +:+ s3) = String a (s1 +:+ (s2 +:+ s3))).
  by rewrite IH.
Qed.

Lemma dropLast_placeholders n :
  dropLast (repeatString "?," (S n)) = String.concat "," (replicate (S n) "?").
Proof.
  induction n as [|n IH]; [done|].
  change (repeatString "?," (S (S n)))
    with (String "?" (String "," (repeatString "?," (S n)))).
  change (String.concat "," (replicate (S (S n)) "?"))
    with (String "?" (String "," (String.concat "," (replicate (S n) "?")))).
  rewrite <- IH. unfold dropLast.
  change (repeatString "?," (S n)) with (String "?" (String "," (repeatString "?," n))).
  cbn [String.length]. set (len := String.length (repeatString "?," n)).
  replace (S (S (S (S len))) - 1)%nat with (S (S (S len))) by lia.
  replace (S (S len) - 1)%nat with (S len) by lia.
  reflexivity.
Qed.

(** X13. The batched delete is well formed for every non-empty key list: its
    exclusion list is exactly [n] placeholders separated by commas, with no
    trailing comma. *)
Theorem buildOrphanDeleteQuery_placeholders table n :
  (0 < n)%nat ->
  buildOrphanDeleteQuery table n
  = "DELETE FROM " +:+ name table +:+ " WHERE " +:+ pkCol table
      +:+ " NOT IN (" +:+ String.concat "," (replicate n "?") +:+ ")".
Proof.
  intros Hn. destruct n as [|n]; [lia|].
  unfold buildOrphanDeleteQuery. by rewrite dropLast_placeholders.
Qed.

(** ** The helpers of the test file *)

Lemma joinStrings_loop sep rest acc first :
  fold_left (fun result s => result +:+ (sep +:+ s)) rest (acc +:+ first)
  = acc +:+ String.concat sep (first :: rest).
Proof.
  revert acc first. induction rest as [|s rest IH]; intros acc first; [done|].
  cbn [fold_left]. rewrite <- !string_app_assoc. rewrite IH.
  change (String.concat sep (first :: s :: rest))
    with (first +:+ (sep +:+ String.concat sep (s :: rest))).
  by rewrite !string_app_assoc.
Qed.

(** X15. [joinStrings] is [strings.Join]: the empty string for no strings, else
    the strings in order with the separator between each two. *)
Theorem joinStrings_concat strs sep : joinStrings strs sep = String.concat sep strs.
Proof.
  destruct strs as [|first rest]; [done|]. unfold joinStrings.
  exact (joinStrings_loop sep rest "" first).
Qed.

(** ** Instances of the further properties *)

Lemma syncTable_needs_both_tables_witness :
  let cfg := testConfig "" "" false [] in
  let w := mkWorld [] three_tgt None in
  data (target w) !! "orders" = None
  ∧ (exists e, (syncTable sqliteEngine three_src orders_table cfg w).1 = inl e)
  ∧ target (syncTable sqliteEngine three_src orders_table cfg w).2 = three_tgt.
Proof.
  intros cfg w.
  assert (data (target w) !! "orders" = None) as Hmiss by (vm_compute; reflexivity).
  split; [exact Hmiss|].
  exact (syncTable_needs_both_tables sqliteEngine three_src orders_table cfg w
           (or_intror Hmiss)).
Defined.

Lemma Sync_error_stage_witness :
  let cfg := testConfig "" "" false [] in
  (Sync sqliteEngine three_src cfg (quiet three_tgt)).1
  = inl (Wrapped "syncing table orders" (EngineError "no such table"))
  ∧ (Sync sqliteEngine three_src cfg (mkWorld [false; true] three_tgt None)).1
    = inl (Wrapped "opening target db" (EngineError "open"))
  ∧ target (Sync sqliteEngine three_src cfg (mkWorld [false; true] three_tgt None)).2
    = three_tgt.
Proof.
  intros cfg.
  assert ((Sync sqliteEngine three_src cfg (mkWorld [false; true] three_tgt None)).1
          = inl (Wrapped "opening target db" (EngineError "open"))) as Herr
    by (vm_compute; reflexivity).
  split; [vm_compute; reflexivity|]. split; [exact Herr|].
  destruct (Sync_error_stage sqliteEngine three_src cfg
              (mkWorld [false; true] three_tgt None) _ Herr)
    as [[_ Htg]|(table & cause & _ & Hwrapped)]; [exact Htg|].
  discriminate Hwrapped.
Defined.

Lemma buildSelectQuery_binds_value_witness :
  buildSelectQuery users_table (testConfig "gt" "1" false [])
  = buildSelectQuery users_table (testConfig "gt" "1; DROP TABLE users" false [])
  ∧ buildSelectQuery users_table (testConfig "gt" "1; DROP TABLE users" false [])
    = "SELECT id, id, name, email FROM users WHERE id > ?".
Proof.
  split; [|reflexivity].
  apply (buildSelectQuery_binds_value users_table (testConfig "gt" "1" false [])
           (testConfig "gt" "1; DROP TABLE users" false [])); [reflexivity|].
  split; intros Heq; discriminate Heq.
Defined.

Lemma buildOrphanDeleteQuery_placeholders_witness :
  buildOrphanDeleteQuery users_table 3 = "DELETE FROM users WHERE id NOT IN (?,?,?)".
Proof. apply (buildOrphanDeleteQuery_placeholders users_table 3). lia. Defined.

(** * The engine in full: properties *)

Module GeneralFacts.
Import General.
Local Open Scope general_scope.

Section Frames.
Context {Datum : Type} `{EqDecision Datum}.
Variable E : Sqlite Datum.

Local Abbreviation Data := (gmap string (list (Datum * list Datum))).

(** ** The monad *)

Lemma gbind_ok {A B} (m : M Datum A) (f : A -> M Datum B) w b w' :
  bind m f w = (inr b, w') -> exists a w1, m w = (inr a, w1) ∧ f a w1 = (inr b, w').
Proof. unfold bind. destruct (m w) as [[e|a] w1]; [done|]. eauto. Qed.

Lemma gwrap_ok {A} context (m : M Datum A) w a w' :
  wrap context m w = (inr a, w') -> m w = (inr a, w').
Proof. unfold wrap. by destruct (m w) as [[e|a0] w1]. Qed.

Lemma gbind_inr {A B} (m : M Datum A) (f : A -> M Datum B) w a w1 :
  m w = (inr a, w1) -> bind m f w = f a w1.
Proof. unfold bind. by intros ->. Qed.

Lemma gbind_inl {A B} (m : M Datum A) (f : A -> M Datum B) w e w1 :
  m w = (inl e, w1) -> bind m f w = (inl e, w1).
Proof. unfold bind. by intros ->. Qed.

Lemma gwrap_inr {A} context (m : M Datum A) w a w1 :
  m w = (inr a, w1) -> wrap context m w = (inr a, w1).
Proof. unfold wrap. by intros ->. Qed.

Lemma gwrap_inl {A} context (m : M Datum A) w e w1 :
  m w = (inl e, w1) -> wrap context m w = (inl (Wrapped context e), w1).
Proof. unfold wrap. by intros ->. Qed.

Lemma gbind_assoc {A B C} (m : M Datum A) (f : A -> M Datum B) (g : B -> M Datum C) w :
  bind (bind m f) g w = bind m (fun a => bind (f a) g) w.
Proof. unfold bind. by destruct (m w) as [[e|a] w1]. Qed.

(** ** What each call leaves alone *)

Lemma gkeeps_ret {A B} (part : State Datum -> B) (a : A) : keeps part (ret a).
Proof. done. Qed.

Lemma gkeeps_fail {A B} (part : State Datum -> B) e : keeps part (@fail Datum A e).
Proof. done. Qed.

Lemma gkeeps_bind {A B C} (part : State Datum -> C) (m : M Datum A) (f : A -> M Datum B) :
  keeps part m -> (forall a, keeps part (f a)) -> keeps part (bind m f).
Proof.
  intros Hm Hf w. unfold bind. specialize (Hm w).
  destruct (m w) as [[e|a] w1]; simpl in *; [done|].
  rewrite Hf. done.
Qed.

Lemma gkeeps_wrap {A B} (part : State Datum -> B) context (m : M Datum A) :
  keeps part m -> keeps part (wrap context m).
Proof.
  intros Hm w. unfold wrap. specialize (Hm w). by destruct (m w) as [[e|a] w1].
Qed.

Lemma gkeeps_store_target {A} (m : M Datum A) : keeps store m -> keeps target m.
Proof. intros Hm w. specialize (Hm w). unfold store in Hm. congruence. Qed.

Lemma gcall_store op : keeps store (@call Datum op).
Proof. intros [[|[] o] cs tg tx]; done. Qed.

Lemma gcall_cursors op : keeps cursors (@call Datum op).
Proof. intros [[|[] o] cs tg tx]; done. Qed.

Lemma deliver_store {A} (rows : list A) : keeps store (@deliver Datum A rows).
Proof. intros [o [|[n|] cs] tg tx]; done. Qed.

Lemma gkeeps_dst_Begin : keeps target (@dst_Begin Datum).
Proof.
  apply gkeeps_bind; [apply gkeeps_store_target, gcall_store|]. by intros _ w.
Qed.

Lemma gtx_Prepare_store s : keeps store (tx_Prepare E s).
Proof.
  apply gkeeps_bind; [apply gcall_store|]. intros _ w.
  destruct (txn w) as [d|] eqn:Ht; simpl; rewrite ?Ht; [|done].
  destruct (tableOf E s) as [t|]; [|done]. by destruct (d !! t).
Qed.

Lemma gsrc_Query_store src s args : keeps store (src_Query E src s args).
Proof.
  apply gkeeps_bind; [apply gcall_store|]. intros _.
  destruct (tableOf E s) as [t|]; [|apply gkeeps_fail].
  destruct (data src !! t); [|apply gkeeps_fail].
  destruct (length args <? numInput s)%nat; [apply gkeeps_fail|apply deliver_store].
Qed.

Lemma grows_Scan_store r : keeps store (@rows_Scan Datum r).
Proof. apply gkeeps_bind; [apply gcall_store|]. intros _. apply gkeeps_ret. Qed.

Lemma gsrcRows_Scan_store r : keeps store (@srcRows_Scan Datum r).
Proof. apply gkeeps_bind; [apply gcall_store|]. intros _. apply gkeeps_ret. Qed.

Lemma gkeeps_tx_write f : keeps target (@tx_write Datum f).
Proof.
  intros w. unfold tx_write. destruct (txn w) as [d|]; [|done].
  by destruct (f (target w) d).
Qed.

Lemma gkeeps_insert_Exec s values : keeps target (insert_Exec E s values).
Proof.
  apply gkeeps_bind; [apply gkeeps_store_target, gcall_store|]. intros _.
  apply gkeeps_tx_write.
Qed.

Lemma gkeeps_tx_Exec s ids : keeps target (tx_Exec E s ids).
Proof.
  apply gkeeps_bind; [apply gkeeps_store_target, gcall_store|]. intros _.
  apply gkeeps_tx_write.
Qed.

Lemma gkeeps_copyRows insert rows : keeps target (copyRows E insert rows).
Proof.
  induction rows as [|r rows IH]; [apply gkeeps_ret|].
  cbn [copyRows]. apply gkeeps_bind; [apply gkeeps_store_target, grows_Scan_store|].
  intros values. apply gkeeps_bind; [apply gkeeps_insert_Exec|]. done.
Qed.

Lemma gcollectIDs_store srcRows sourceIDs : keeps store (@collectIDs Datum srcRows sourceIDs).
Proof.
  revert sourceIDs. induction srcRows as [|r srcRows IH]; intros sourceIDs; [apply gkeeps_ret|].
  cbn [collectIDs]. apply gkeeps_bind; [apply gkeeps_wrap, gsrcRows_Scan_store|]. done.
Qed.

Lemma gkeeps_deleteOrphaned src table cfg : keeps target (deleteOrphaned E src table cfg).
Proof.
  unfold deleteOrphaned. destruct (negb (NoDelete cfg)); [|apply gkeeps_ret].
  apply gkeeps_bind; [apply gkeeps_wrap, gkeeps_store_target, gsrc_Query_store|]. intros srcRows.
  apply gkeeps_bind; [apply gkeeps_store_target, gcollectIDs_store|]. intros sourceIDs.
  destruct (0 <? length sourceIDs)%nat; [apply gkeeps_wrap, gkeeps_tx_Exec|apply gkeeps_ret].
Qed.

Lemma gsyncTable_body_work src table cfg w :
  syncTable_body E src table cfg w
  = bind (syncTable_work E src table cfg) (fun _ => tx_Commit) w.
Proof.
  unfold syncTable_body, syncTable_work, copyArgs, bind.
  destruct (tx_Prepare E (insertStmt table) w) as [[e|a] w1]; [done|].
  destruct (tx_Prepare E (deleteStmt table) w1) as [[e|a'] w2]; [done|].
  destruct (negb (String.eqb (Value cfg) ""));
    (destruct (src_Query _ _ _ _ w2) as [[e|rows] w3]; [done|]);
    (destruct (copyRows _ _ rows w3) as [[e|[]] w4]; [done|]);
    by destruct (deleteOrphaned _ _ _ _ w4) as [[e|[]] w5].
Qed.

Lemma gkeeps_syncTable_work src table cfg : keeps target (syncTable_work E src table cfg).
Proof.
  unfold syncTable_work.
  apply gkeeps_bind; [apply gkeeps_store_target, gtx_Prepare_store|]. intros _.
  apply gkeeps_bind; [apply gkeeps_store_target, gtx_Prepare_store|]. intros _.
  apply gkeeps_bind; [apply gkeeps_store_target, gsrc_Query_store|]. intros rows.
  apply gkeeps_bind; [apply gkeeps_copyRows|]. intros _.
  apply gkeeps_deleteOrphaned.
Qed.

Lemma gtx_Commit_error w e w' :
  @tx_Commit Datum w = (inl e, w') -> target w' = target w.
Proof.
  unfold tx_Commit. destruct (txn w) as [d|]; [|by intros [= _ <-]].
  destruct (oracle w) as [|[] o]; [done| |done]. by intros [= _ <-].
Qed.

Lemma gtx_Commit_ok w u w' :
  @tx_Commit Datum w = (inr u, w') ->
  exists d, txn w = Some d ∧ target w' = withData (target w) d ∧ txn w' = None.
Proof.
  unfold tx_Commit. destruct (txn w) as [d|]; [|done].
  destruct (oracle w) as [|[] o]; [|done|]; intros [= _ <-]; by exists d.
Qed.

(** A failing [syncTable] leaves the target as it was. *)
Lemma gsyncTable_error src table cfg w e w' :
  syncTable E src table cfg w = (inl e, w') -> target w' = target w.
Proof.
  unfold syncTable, bind at 1, defer.
  pose proof (gkeeps_dst_Begin w) as Hb.
  destruct (dst_Begin w) as [[e0|[]] w1]; simpl in Hb; [by intros [= _ <-]|].
  rewrite gsyncTable_body_work. unfold bind.
  pose proof (gkeeps_syncTable_work src table cfg w1) as Hw.
  destruct (syncTable_work E src table cfg w1) as [[e1|[]] w2]; simpl in Hw.
  - intros [= _ <-]. simpl. congruence.
  - destruct (tx_Commit w2) as [[e2|[]] w3] eqn:Hc; [|done].
    intros [= _ <-]. simpl. apply gtx_Commit_error in Hc. congruence.
Qed.

Lemma gsyncTable_txn src table cfg w r w' :
  syncTable E src table cfg w = (r, w') -> txn w = None -> txn w' = None.
Proof.
  unfold syncTable, bind at 1, defer, dst_Begin, bind, call.
  destruct w as [[|[] o] cs tg tx]; simpl.
  - destruct (syncTable_body _ _ _ _ _); by intros [= _ <-].
  - by intros [= _ <-].
  - destruct (syncTable_body _ _ _ _ _); by intros [= _ <-].
Qed.

(** ** What each call does when it succeeds *)

Lemma deliver_ok {A} (rows : list A) w rs w' :
  @deliver Datum A rows w = (inr rs, w') ->
  rs `prefix_of` rows ∧ (cursors w = [] -> rs = rows ∧ cursors w' = []).
Proof.
  unfold deliver. destruct w as [o [|[n|] cs] tg tx]; cbn; intros [= <- <-].
  - done.
  - split; [apply prefix_take|done].
  - done.
Qed.

Lemma gtx_Prepare_cursors s : keeps cursors (tx_Prepare E s).
Proof.
  apply gkeeps_bind; [apply gcall_cursors|]. intros _ w.
  destruct (txn w) as [d|] eqn:Ht; simpl; rewrite ?Ht; [|done].
  destruct (tableOf E s) as [t|]; [|done]. by destruct (d !! t).
Qed.

Lemma grows_Scan_cursors r : keeps cursors (@rows_Scan Datum r).
Proof. apply gkeeps_bind; [apply gcall_cursors|]. intros _. apply gkeeps_ret. Qed.

Lemma gtx_write_cursors f : keeps cursors (@tx_write Datum f).
Proof.
  intros w. unfold tx_write. destruct (txn w) as [d|]; [|done].
  by destruct (f (target w) d).
Qed.

Lemma gcopyRows_cursors insert rows : keeps cursors (copyRows E insert rows).
Proof.
  induction rows as [|r rows IH]; [apply gkeeps_ret|].
  cbn [copyRows]. apply gkeeps_bind; [apply grows_Scan_cursors|].
  intros values. apply gkeeps_bind; [|done].
  apply gkeeps_bind; [apply gcall_cursors|]. intros _. apply gtx_write_cursors.
Qed.

Lemma gcollectIDs_cursors srcRows sourceIDs : keeps cursors (@collectIDs Datum srcRows sourceIDs).
Proof.
  revert sourceIDs. induction srcRows as [|r srcRows IH]; intros sourceIDs; [apply gkeeps_ret|].
  cbn [collectIDs]. apply gkeeps_bind; [|done].
  apply gkeeps_wrap, gkeeps_bind; [apply gcall_cursors|]. intros _. apply gkeeps_ret.
Qed.

Lemma gtx_Prepare_ok s w u w' :
  tx_Prepare E s w = (inr u, w') ->
  exists d t rows, txn w = Some d ∧ tableOf E s = Some t ∧ d !! t = Some rows.
Proof.
  intros Hp. apply gbind_ok in Hp as ([] & w1 & Hc & Hp).
  pose proof (gcall_store "prepare" w) as Hs. rewrite Hc in Hs. injection Hs as _ Hs.
  simpl in Hs. rewrite <- Hs.
  destruct (txn w1) as [d|]; [|done]. destruct (tableOf E s) as [t|]; [|done].
  destruct (d !! t) as [rows|] eqn:Hd; [|done]. by exists d, t, rows.
Qed.

Lemma gsrc_Query_ok src s args w rows w' :
  src_Query E src s args w = (inr rows, w') ->
  exists t srcRows,
    tableOf E s = Some t ∧ data src !! t = Some srcRows
    ∧ rows `prefix_of` selectRows E s args srcRows
    ∧ (cursors w = [] -> rows = selectRows E s args srcRows ∧ cursors w' = []).
Proof.
  intros Hq. apply gbind_ok in Hq as ([] & w1 & Hc & Hq).
  pose proof (gcall_cursors "query" w) as Hcs. rewrite Hc in Hcs. simpl in Hcs.
  destruct (tableOf E s) as [t|]; [|done].
  destruct (data src !! t) as [srcRows|] eqn:Hsrc; [|done].
  destruct (length args <? numInput s)%nat; [done|].
  apply deliver_ok in Hq as [Hp Hall]. exists t, srcRows. by rewrite <- Hcs.
Qed.

Lemma grows_Scan_ok r w values w' :
  @rows_Scan Datum r w = (inr values, w') -> values = r.1 :: r.2.
Proof. intros Hs. apply gbind_ok in Hs as ([] & w1 & _ & Hs). by injection Hs as <- _. Qed.

Lemma gtx_write_ok f w u w' d :
  @tx_write Datum f w = (inr u, w') -> txn w = Some d ->
  exists d', f (target w) d = inr d' ∧ txn w' = Some d'.
Proof.
  unfold tx_write. intros Hw Ht. rewrite Ht in Hw.
  destruct (f (target w) d) as [e|d']; [done|]. injection Hw as _ <-. eauto.
Qed.

Lemma ginsert_Exec_ok s values w u w' d :
  insert_Exec E s values w = (inr u, w') -> txn w = Some d ->
  exists d', insertRow E (target w) s values d = inr d' ∧ txn w' = Some d'.
Proof.
  intros He Ht. apply gbind_ok in He as ([] & w1 & Hc & He).
  pose proof (gcall_store "exec" w) as Hs. rewrite Hc in Hs. injection Hs as Htg Hs.
  simpl in Hs, Htg. rewrite <- Htg.
  apply (gtx_write_ok (fun db => insertRow E db s values) w1 u w' d He). by rewrite Hs.
Qed.

Lemma gtx_Exec_ok s ids w u w' d :
  tx_Exec E s ids w = (inr u, w') -> txn w = Some d ->
  exists d', deleteRows E (target w) s ids d = inr d' ∧ txn w' = Some d'.
Proof.
  intros He Ht. apply gbind_ok in He as ([] & w1 & Hc & He).
  pose proof (gcall_store "exec" w) as Hs. rewrite Hc in Hs. injection Hs as Htg Hs.
  simpl in Hs, Htg. rewrite <- Htg.
  apply (gtx_write_ok (fun db => deleteRows E db s ids) w1 u w' d He). by rewrite Hs.
Qed.

Lemma gcopyRows_ok insert rows w u w' d :
  copyRows E insert rows w = (inr u, w') -> txn w = Some d ->
  exists d', copyData E (target w) insert rows d = inr d' ∧ txn w' = Some d'.
Proof.
  revert w d. induction rows as [|r rows IH]; intros w d.
  - intros [= _ <-] Ht. by exists d.
  - cbn [copyRows copyData]. intros Hc Ht.
    apply gbind_ok in Hc as (values & w1 & Hs & Hc).
    apply gbind_ok in Hc as ([] & w2 & He & Hc).
    pose proof (grows_Scan_store r w) as Hst. rewrite Hs in Hst. injection Hst as Htg Hst.
    simpl in Hst, Htg. apply grows_Scan_ok in Hs as ->.
    pose proof (gkeeps_insert_Exec insert (r.1 :: r.2) w1) as Htg2. rewrite He in Htg2.
    simpl in Htg2.
    eapply ginsert_Exec_ok in He as (d1 & Hins & Ht1); [|by rewrite Hst].
    rewrite Htg in Hins. rewrite Hins.
    eapply IH in Hc as (d' & Hcopy & Ht'); [|done].
    rewrite Htg2, Htg in Hcopy. eauto.
Qed.

Lemma gcollectIDs_ok srcRows sourceIDs w ids w' :
  @collectIDs Datum srcRows sourceIDs w = (inr ids, w') ->
  ids = (sourceIDs ++ srcRows.*1)%list.
Proof.
  revert sourceIDs w. induction srcRows as [|r srcRows IH]; intros sourceIDs w.
  - intros [= <- _]. by rewrite app_nil_r.
  - cbn [collectIDs]. intros Hc. apply gbind_ok in Hc as (id & w1 & Hs & Hc).
    apply gwrap_ok, gbind_ok in Hs as ([] & w0 & _ & Hs). injection Hs as <- _.
    apply IH in Hc as ->. by rewrite <- app_assoc.
Qed.

Lemma filter_all {A} (P : A -> Prop) `{!forall x, Decision (P x)} (l : list A) :
  (forall x, x ∈ l -> P x) -> filter P l = l.
Proof.
  induction l as [|x l IH]; intros Hall; [done|].
  rewrite filter_cons_True by (apply Hall; left). f_equal. apply IH.
  intros y Hy. apply Hall. by right.
Qed.

Lemma filter_none {A} (P : A -> Prop) `{!forall x, Decision (P x)} (l : list A) :
  (forall x, x ∈ l -> ¬ P x) -> filter P l = [].
Proof.
  induction l as [|x l IH]; intros Hnone; [done|].
  rewrite filter_cons_False by (apply Hnone; left). apply IH.
  intros y Hy. apply Hnone. by right.
Qed.

Lemma gselectRows_all s args (rows : list (Datum * list Datum)) :
  selectCond s = None ∨ args = [] -> selectRows E s args rows = rows.
Proof.
  intros Hc. unfold selectRows. apply filter_all. intros r _.
  unfold keyInScope. destruct Hc as [-> | ->]; [done|]. by destruct (selectCond s) as [[]|].
Qed.

Lemma prefix_fmap {A B} (f : A -> B) (l1 l2 : list A) :
  l1 `prefix_of` l2 -> f <$> l1 `prefix_of` f <$> l2.
Proof. intros [k ->]. exists (f <$> k). by rewrite fmap_app. Qed.

Lemma gdeleteOrphaned_ok src table cfg w u w' d t srcRows :
  deleteOrphaned E src table cfg w = (inr u, w') ->
  txn w = Some d -> parse_name E (name table) = Some t -> data src !! t = Some srcRows ->
  exists ids d',
    ids `prefix_of` srcRows.*1
    ∧ (cursors w = [] -> ids = srcRows.*1)
    ∧ deleteData E (target w) table cfg ids d = inr d'
    ∧ txn w' = Some d'.
Proof.
  unfold deleteOrphaned, deleteData. intros Hd Ht Hp Hsrc.
  destruct (NoDelete cfg); cbn [negb] in Hd.
  { unfold ret in Hd. injection Hd as _ <-. exists srcRows.*1, d. by rewrite Ht. }
  apply gbind_ok in Hd as (cursor & w1 & Hq & Hd).
  apply gbind_ok in Hd as (ids & w2 & Hc & Hd).
  apply gwrap_ok in Hq.
  pose proof (gsrc_Query_store src (sourceIDsStmt table) [] w) as Hs1.
  rewrite Hq in Hs1. injection Hs1 as Htg1 Hs1. simpl in Hs1, Htg1.
  pose proof (gcollectIDs_store cursor [] w1) as Hs2.
  rewrite Hc in Hs2. injection Hs2 as Htg2 Hs2. simpl in Hs2, Htg2.
  apply gsrc_Query_ok in Hq as (t' & srcRows' & Hp' & Hsrc' & Hpre & Hall).
  unfold tableOf in Hp'. cbn [sourceIDsStmt stmtTable] in Hp'.
  rewrite Hp in Hp'. injection Hp' as <-. rewrite Hsrc in Hsrc'. injection Hsrc' as <-.
  rewrite gselectRows_all in Hpre, Hall by by right.
  apply gcollectIDs_ok in Hc. cbn [app] in Hc. subst ids.
  assert (cursors w = [] -> cursor.*1 = srcRows.*1) as Hfull.
  { intros Hcs. by destruct (Hall Hcs) as [-> _]. }
  destruct (0 <? length cursor.*1)%nat eqn:Hlen.
  - apply gwrap_ok in Hd. eapply gtx_Exec_ok in Hd as (d' & Hdel & Ht'); [|by rewrite Hs2, Hs1].
    rewrite Htg2, Htg1 in Hdel. exists cursor.*1, d'.
    split; [by apply prefix_fmap|]. split; [done|]. by rewrite Hlen, Hdel.
  - unfold ret in Hd. injection Hd as _ <-. exists cursor.*1, d.
    split; [by apply prefix_fmap|]. split; [done|]. by rewrite Hlen, Hs2, Hs1.
Qed.

Lemma gsyncTable_work_ok src table cfg w u w' d :
  syncTable_work E src table cfg w = (inr u, w') -> txn w = Some d ->
  exists t srcRows rows ids d1 d2,
    parse_name E (name table) = Some t
    ∧ data src !! t = Some srcRows ∧ is_Some (d !! t)
    ∧ rows `prefix_of` copyScope E table cfg srcRows
    ∧ ids `prefix_of` srcRows.*1
    ∧ (cursors w = [] -> rows = copyScope E table cfg srcRows ∧ ids = srcRows.*1)
    ∧ copyData E (target w) (insertStmt table) rows d = inr d1
    ∧ deleteData E (target w) table cfg ids d1 = inr d2
    ∧ txn w' = Some d2.
Proof.
  unfold syncTable_work. intros Hw Ht.
  apply gbind_ok in Hw as ([] & w1 & Hp1 & Hw).
  apply gbind_ok in Hw as ([] & w2 & Hp2 & Hw).
  apply gbind_ok in Hw as (cursor & w3 & Hq & Hw).
  apply gbind_ok in Hw as ([] & w4 & Hc & Hw).
  pose proof (gtx_Prepare_store (insertStmt table) w) as Hs1.
  rewrite Hp1 in Hs1. injection Hs1 as Htg1 Hs1. simpl in Hs1, Htg1.
  pose proof (gtx_Prepare_store (deleteStmt table) w1) as Hs2.
  rewrite Hp2 in Hs2. injection Hs2 as Htg2 Hs2. simpl in Hs2, Htg2.
  pose proof (gsrc_Query_store src (selectStmt table cfg) (copyArgs cfg) w2) as Hs3.
  rewrite Hq in Hs3. injection Hs3 as Htg3 Hs3. simpl in Hs3, Htg3.
  pose proof (gtx_Prepare_cursors (insertStmt table) w) as Hc1. rewrite Hp1 in Hc1. simpl in Hc1.
  pose proof (gtx_Prepare_cursors (deleteStmt table) w1) as Hc2. rewrite Hp2 in Hc2. simpl in Hc2.
  pose proof (gcopyRows_cursors (insertStmt table) cursor w3) as Hc4. rewrite Hc in Hc4.
  simpl in Hc4.
  pose proof (gkeeps_copyRows (insertStmt table) cursor w3) as Htg4. rewrite Hc in Htg4.
  simpl in Htg4.
  apply gtx_Prepare_ok in Hp1 as (d' & t & dstRows & Ht' & Hp & Hd).
  rewrite Ht in Ht'. injection Ht' as <-.
  unfold tableOf in Hp. cbn [insertStmt stmtTable] in Hp.
  apply gsrc_Query_ok in Hq as (t' & srcRows & Hp' & Hsrc & Hpre & Hall).
  unfold tableOf in Hp'. cbn [selectStmt stmtTable] in Hp'.
  rewrite Hp in Hp'. injection Hp' as <-.
  eapply gcopyRows_ok in Hc as (d1 & Hcopy & Ht4); [|by rewrite Hs3, Hs2, Hs1].
  eapply gdeleteOrphaned_ok in Hw as (ids & d2 & Hids & Hidsall & Hdel & Ht5); [|done..].
  exists t, srcRows, cursor, ids, d1, d2.
  rewrite Htg3, Htg2, Htg1 in Hcopy. rewrite Htg4, Htg3, Htg2, Htg1 in Hdel.
  split; [done|]. split; [done|]. split; [by eexists|]. split; [done|]. split; [done|].
  split; [|done]. intros Hcs.
  destruct Hall as [-> Hcs3]; [by rewrite Hc2, Hc1|]. split; [done|].
  apply Hidsall. by rewrite Hc4.
Qed.

Lemma gdst_Begin_ok w u w1 :
  @dst_Begin Datum w = (inr u, w1) ->
  cursors w1 = cursors w ∧ target w1 = target w ∧ txn w1 = Some (data (target w)).
Proof.
  unfold dst_Begin, bind, call. destruct w as [[|[] o] cs tg tx]; cbn; [|done|];
    by intros [= _ <-].
Qed.

(** A successful [syncTable]: the rows the two cursors delivered, each a
    prefix of what the query selects, went through the copy loop and the
    batched delete, and the outcome was committed. *)
Lemma gsyncTable_ok src table cfg w u w' :
  syncTable E src table cfg w = (inr u, w') ->
  exists t srcRows rows ids d1 d2,
    parse_name E (name table) = Some t
    ∧ data src !! t = Some srcRows ∧ is_Some (data (target w) !! t)
    ∧ rows `prefix_of` copyScope E table cfg srcRows
    ∧ ids `prefix_of` srcRows.*1
    ∧ (cursors w = [] -> rows = copyScope E table cfg srcRows ∧ ids = srcRows.*1)
    ∧ copyData E (target w) (insertStmt table) rows (data (target w)) = inr d1
    ∧ deleteData E (target w) table cfg ids d1 = inr d2
    ∧ target w' = withData (target w) d2.
Proof.
  unfold syncTable, defer. intros Hs. apply gbind_ok in Hs as ([] & w1 & Hb & Hs).
  apply gdst_Begin_ok in Hb as (Hcs & Htg & Ht).
  rewrite gsyncTable_body_work in Hs.
  destruct (bind _ _ w1) as [r w2] eqn:Hbody. injection Hs as -> <-.
  apply gbind_ok in Hbody as ([] & w3 & Hw & Hc).
  pose proof (gkeeps_syncTable_work src table cfg w1) as Hk. rewrite Hw in Hk. simpl in Hk.
  eapply gsyncTable_work_ok in Hw
    as (t & srcRows & rows & ids & d1 & d2 & Hp & Hsrc & Hdst & Hrows & Hids & Hall & Hcopy
        & Hdel & Ht3); [|done].
  apply gtx_Commit_ok in Hc as (d & Ht3' & Htg2 & _).
  rewrite Ht3 in Ht3'. injection Ht3' as <-.
  exists t, srcRows, rows, ids, d1, d2. rewrite Htg in Hcopy, Hdel. rewrite Hcs in Hall.
  do 8 (split; [done|]). cbn [tx_Rollback target]. by rewrite Htg2, Hk, Htg.
Qed.

(** ** A quiet state: no call fails, no cursor stops early *)

Lemma gcall_quiet op cs tg tx :
  @call Datum op (mkState [] cs tg tx) = (inr tt, mkState [] cs tg tx).
Proof. done. Qed.

Lemma deliver_quiet {A} (rows : list A) o tg tx :
  @deliver Datum A rows (mkState o [] tg tx) = (inr rows, mkState o [] tg tx).
Proof. done. Qed.









Lemma withData_data (db : Db Datum) d : withData db (data (withData db d)) = withData db d.
Proof. done. Qed.


(** ** The statements on rows *)

Lemma conflict_keyOnly (r r' : Datum * list Datum) :
  conflict E [[0%nat]] r r' = negb (null E r.1) && bool_decide (r.1 = r'.1).
Proof. unfold conflict, agree. cbn. by rewrite andb_true_r, orb_false_r. Qed.

Lemma elem_of_replaceInto cs r rows (x : Datum * list Datum) :
  x ∈ replaceInto E cs r rows ↔ (x ∈ rows ∧ conflict E cs r x = false) ∨ x = r.
Proof.
  unfold replaceInto. rewrite elem_of_app, list_elem_of_filter, list_elem_of_singleton. tauto.
Qed.

Lemma upsertAll_cons cs r rows (dst : list (Datum * list Datum)) :
  upsertAll E cs (r :: rows) dst = upsertAll E cs rows (replaceInto E cs r dst).
Proof. done. Qed.

Lemma elem_of_upsertAll cs rows dst (x : Datum * list Datum) :
  x ∈ upsertAll E cs rows dst -> x ∈ rows ∨ x ∈ dst.
Proof.
  revert dst. induction rows as [|r rows IH]; intros dst; [by right|].
  rewrite upsertAll_cons. intros Hin. apply IH in Hin as [Hin|Hin].
  - left. by right.
  - apply elem_of_replaceInto in Hin as [[Hin _]| ->]; [by right|]. left. left.
Qed.

(** Under the key as only constraint a row stays as long as no row with its
    key arrives. *)
Lemma upsertAll_keeps rows dst (x : Datum * list Datum) :
  x ∈ dst -> (forall r, r ∈ rows -> r.1 ≠ x.1) -> x ∈ upsertAll E [[0%nat]] rows dst.
Proof.
  revert dst. induction rows as [|r rows IH]; intros dst Hin Hne; [done|].
  rewrite upsertAll_cons. apply IH.
  - apply elem_of_replaceInto. left. split; [done|]. rewrite conflict_keyOnly.
    rewrite (bool_decide_eq_false_2 (r.1 = x.1)); [by rewrite andb_false_r|].
    apply Hne. left.
  - intros r' Hr'. apply Hne. by right.
Qed.


Lemma notIn_elem k ids : k ∈ ids -> notIn E k ids = false.
Proof.
  intros Hin. unfold notIn. apply andb_false_intro2.
  apply not_true_is_false. intros Hall. rewrite forallb_forall in Hall.
  apply list_elem_of_In, Hall in Hin. rewrite bool_decide_eq_true_2 in Hin by done.
  by rewrite andb_false_r in Hin.
Qed.

Lemma notIn_false k ids :
  notIn E k ids = false -> null E k = false -> (forall i, i ∈ ids -> null E i = false) ->
  k ∈ ids.
Proof.
  unfold notIn. intros Hn Hk Hids. rewrite Hk in Hn. cbn [negb andb] in Hn.
  induction ids as [|i ids IH]; [done|]. cbn [forallb] in Hn.
  rewrite (Hids i) in Hn by left. cbn [negb andb] in Hn.
  destruct (decide (k = i)) as [->|Hne]; [left|].
  rewrite bool_decide_eq_false_2 in Hn by done. cbn [negb andb] in Hn.
  right. apply IH; [done|]. intros j Hj. apply Hids. by right.
Qed.

Lemma elem_of_deleteNotIn ids rows (x : Datum * list Datum) :
  x ∈ deleteNotIn E ids rows ↔ notIn E x.1 ids = false ∧ x ∈ rows.
Proof. unfold deleteNotIn. by rewrite list_elem_of_filter. Qed.

Lemma keyed_cons r (rows : list (Datum * list Datum)) :
  keyed E (r :: rows) = true ↔ (r.1 ∉ rows.*1) ∧ null E r.1 = false ∧ keyed E rows = true.
Proof.
  unfold keyed. cbn [forallb fmap list_fmap].
  rewrite !andb_true_iff, !bool_decide_eq_true, NoDup_cons, negb_true_iff. tauto.
Qed.

Lemma keyed_not_null (rows : list (Datum * list Datum)) r :
  keyed E rows = true -> r ∈ rows -> null E r.1 = false.
Proof.
  unfold keyed. intros [_ Hall]%andb_prop Hin. rewrite forallb_forall in Hall.
  apply list_elem_of_In, Hall in Hin. by apply negb_true_iff in Hin.
Qed.

(** With distinct non-NULL keys arriving and the key as only constraint, the
    copy loop leaves the rows whose key did not arrive, followed by the rows
    that arrived. *)
Lemma upsertAll_keyed rows (dst : list (Datum * list Datum)) :
  keyed E rows = true ->
  upsertAll E [[0%nat]] rows dst = (filter (fun x => x.1 ∉ rows.*1) dst ++ rows)%list.
Proof.
  revert dst. induction rows as [|r rows IH]; intros dst Hk.
  { cbn. rewrite app_nil_r. symmetry. apply filter_all. intros x _. apply not_elem_of_nil. }
  apply keyed_cons in Hk as (Hfresh & Hnull & Hk).
  rewrite upsertAll_cons, IH by done. unfold replaceInto.
  rewrite filter_app, list_filter_filter, filter_cons_True, filter_nil by done.
  rewrite <- app_assoc. cbn [app]. f_equal.
  apply list_filter_iff. intros x. rewrite conflict_keyOnly, Hnull. cbn [negb andb].
  rewrite bool_decide_eq_false. cbn [fmap list_fmap]. rewrite not_elem_of_cons.
  split; [intros [? ?]|intros [? ?]]; split; congruence.
Qed.

(** ** The loops on the working copy *)

Lemma gcopyData_cons db s r rows (d : Data) :
  copyData E db s (r :: rows) d
  = match insertRow E db s (r.1 :: r.2) d with
    | inl e => inl e
    | inr d' => copyData E db s rows d'
    end.
Proof. done. Qed.

Lemma insertRow_ok db s k cells (d d' : Data) :
  insertRow E db s (k :: cells) d = inr d' ->
  exists t rows,
    tableOf E s = Some t ∧ d !! t = Some rows
    ∧ d' = hooks db s (k :: cells) d (<[t := replaceInto E (uniques db t) (k, cells) rows]> d).
Proof.
  unfold insertRow. destruct (tableOf E s) as [t|]; [|done].
  destruct (d !! t) as [rows|] eqn:Hd; [|done]. intros [= <-]. by exists t, rows.
Qed.

Lemma deleteRows_ok db s ids (d d' : Data) :
  deleteRows E db s ids d = inr d' ->
  exists t rows,
    tableOf E s = Some t ∧ d !! t = Some rows
    ∧ d' = hooks db s ids d (<[t := deleteNotIn E ids rows]> d).
Proof.
  unfold deleteRows. destruct (tableOf E s) as [t|]; [|done].
  destruct (d !! t) as [rows|] eqn:Hd; [|done].
  destruct (max_vars E <? N.of_nat (length ids))%N; [done|]. intros [= <-]. by exists t, rows.
Qed.

Lemma copyData_table db s rows (d d' : Data) t r0 :
  (forall args before d0, hooks db s args before d0 !! t = d0 !! t) ->
  tableOf E s = Some t -> d !! t = Some r0 ->
  copyData E db s rows d = inr d' ->
  d' !! t = Some (upsertAll E (uniques db t) rows r0).
Proof.
  intros Hh Hp. revert d r0. induction rows as [|[k cells] rows IH]; intros d r0 Hd.
  - by intros [= <-].
  - rewrite gcopyData_cons, upsertAll_cons. cbn [fst snd].
    destruct (insertRow E db s (k :: cells) d) as [e|d1] eqn:Hins; [done|].
    apply insertRow_ok in Hins as (t' & rows' & Hp' & Hd' & ->).
    rewrite Hp in Hp'. injection Hp' as <-. rewrite Hd in Hd'. injection Hd' as <-.
    apply IH. by rewrite Hh, lookup_insert_eq.
Qed.

Lemma copyData_other db s rows (d d' : Data) t' :
  (forall args before d0, hooks db s args before d0 !! t' = d0 !! t') ->
  tableOf E s ≠ Some t' ->
  copyData E db s rows d = inr d' -> d' !! t' = d !! t'.
Proof.
  intros Hh Hp. revert d. induction rows as [|[k cells] rows IH]; intros d.
  - by intros [= <-].
  - rewrite gcopyData_cons. cbn [fst snd].
    destruct (insertRow E db s (k :: cells) d) as [e|d1] eqn:Hins; [done|].
    apply insertRow_ok in Hins as (t & rows' & Hp' & Hd' & ->).
    intros Hc. apply IH in Hc as ->. rewrite Hh, lookup_insert_ne; [done|]. congruence.
Qed.

Lemma deleteData_table db table cfg ids (d d' : Data) t r0 :
  (forall s args before d0, stmtTable s = name table -> hooks db s args before d0 !! t = d0 !! t) ->
  parse_name E (name table) = Some t -> d !! t = Some r0 ->
  deleteData E db table cfg ids d = inr d' ->
  d' !! t = Some (sweep E cfg ids r0).
Proof.
  intros Hh Hp Hd. unfold deleteData, sweep. destruct (NoDelete cfg); [by intros [= <-]|].
  destruct (0 <? length ids)%nat; [|by intros [= <-]].
  intros Hdel. apply deleteRows_ok in Hdel as (t' & rows' & Hp' & Hd' & ->).
  unfold tableOf in Hp'. cbn [orphanDeleteStmt stmtTable] in Hp'.
  rewrite Hp in Hp'. injection Hp' as <-. rewrite Hd in Hd'. injection Hd' as <-.
  by rewrite Hh, lookup_insert_eq.
Qed.

Lemma deleteData_other db table cfg ids (d d' : Data) t' :
  (forall s args before d0, stmtTable s = name table -> hooks db s args before d0 !! t' = d0 !! t') ->
  parse_name E (name table) ≠ Some t' ->
  deleteData E db table cfg ids d = inr d' -> d' !! t' = d !! t'.
Proof.
  intros Hh Hp. unfold deleteData. destruct (NoDelete cfg); [by intros [= <-]|].
  destruct (0 <? length ids)%nat; [|by intros [= <-]].
  intros Hdel. apply deleteRows_ok in Hdel as (t & rows' & Hp' & Hd' & ->).
  unfold tableOf in Hp'. cbn [orphanDeleteStmt stmtTable] in Hp'.
  rewrite Hh by done. rewrite lookup_insert_ne; [done|]. congruence.
Qed.

(** ** One table at a time *)

(** [syncTable] never changes the schema of the target. *)
Lemma gsyncTable_schema src table cfg w r w' :
  syncTable E src table cfg w = (r, w') ->
  catalog (target w') = catalog (target w) ∧ uniques (target w') = uniques (target w)
  ∧ hooks (target w') = hooks (target w).
Proof.
  destruct r as [e|[]]; intros Hs.
  - apply gsyncTable_error in Hs as ->. done.
  - apply gsyncTable_ok in Hs as (t & srcRows & rows & ids & d1 & d2 & _ & _ & _ & _ & _ & _
                                   & _ & _ & ->). done.
Qed.

(** A table that neither the statements of [syncTable] nor their further
    effects reach is left alone. *)
Lemma gsyncTable_frame src table cfg w r w' t' :
  syncTable E src table cfg w = (r, w') ->
  (forall s args before d,
     stmtTable s = name table -> hooks (target w) s args before d !! t' = d !! t') ->
  parse_name E (name table) ≠ Some t' ->
  data (target w') !! t' = data (target w) !! t'.
Proof.
  destruct r as [e|[]]; intros Hs Hh Hp.
  - apply gsyncTable_error in Hs as ->. done.
  - apply gsyncTable_ok in Hs as (t & srcRows & rows & ids & d1 & d2 & _ & _ & _ & _ & _ & _
                                   & Hcopy & Hdel & ->).
    cbn [withData data].
    rewrite (deleteData_other _ table cfg ids d1 d2 t' Hh Hp Hdel).
    apply (copyData_other _ _ _ _ _ t') in Hcopy; [done| |done].
    intros args before d0. by apply Hh.
Qed.

(** The rows of its own table after a successful [syncTable], when nothing
    but the statements writes them. *)
Lemma gsyncTable_rows src table cfg w u w' :
  syncTable E src table cfg w = (inr u, w') ->
  exists t srcRows dstRows rows ids,
    parse_name E (name table) = Some t
    ∧ data src !! t = Some srcRows ∧ data (target w) !! t = Some dstRows
    ∧ rows `prefix_of` copyScope E table cfg srcRows
    ∧ ids `prefix_of` srcRows.*1
    ∧ (cursors w = [] -> rows = copyScope E table cfg srcRows ∧ ids = srcRows.*1)
    ∧ (untouched (target w) t ->
       data (target w') !! t
       = Some (sweep E cfg ids (upsertAll E (uniques (target w) t) rows dstRows))).
Proof.
  intros Hs.
  apply gsyncTable_ok in Hs as (t & srcRows & rows & ids & d1 & d2 & Hp & Hsrc & [dstRows Hdst]
                                 & Hrows & Hids & Hall & Hcopy & Hdel & ->).
  exists t, srcRows, dstRows, rows, ids. do 6 (split; [done|]). intros Hun.
  cbn [withData data].
  eapply deleteData_table; [|done| |done].
  - intros s args before d0 _. apply Hun.
  - apply (copyData_table (target w) (insertStmt table) rows (data (target w)) d1 t dstRows);
      [|exact Hp|exact Hdst|exact Hcopy].
    intros args before d0. apply Hun.
Qed.

(** ** Listing the tables *)

Lemma gscanColumns_store rows table : keeps store (@scanColumns Datum rows table).
Proof.
  revert table. induction rows as [|c rows IH]; intros table; [apply gkeeps_ret|].
  cbn [scanColumns]. apply gkeeps_bind; [apply gcall_store|]. done.
Qed.

Lemma ggetTableInfo_store db tableName : keeps store (getTableInfo E db tableName).
Proof.
  apply gkeeps_bind; [apply gcall_store|]. intros _.
  destruct (parse_name E tableName) as [t|]; [|apply gkeeps_fail].
  apply gkeeps_bind; [apply deliver_store|]. intros rows.
  apply gkeeps_bind; [apply gscanColumns_store|]. intros table. apply gkeeps_ret.
Qed.

Lemma gscanTables_store db names tables : keeps store (scanTables E db names tables).
Proof.
  revert tables. induction names as [|n names IH]; intros tables; [apply gkeeps_ret|].
  cbn [scanTables]. apply gkeeps_bind; [apply gcall_store|]. intros _.
  apply gkeeps_bind; [apply ggetTableInfo_store|]. done.
Qed.

Lemma gdiscover_store src : keeps store (discover E src).
Proof.
  apply gkeeps_bind; [apply gkeeps_wrap, gcall_store|]. intros _.
  apply gkeeps_bind; [apply gkeeps_wrap, gcall_store|]. intros _.
  apply gkeeps_bind; [apply gcall_store|]. intros _.
  apply gkeeps_bind; [apply deliver_store|]. intros names. apply gscanTables_store.
Qed.

Lemma gscanColumns_ok rows table w table' w' :
  @scanColumns Datum rows table w = (inr table', w') ->
  table' = fold_left scanColumn rows table.
Proof.
  revert table w. induction rows as [|c rows IH]; intros table w.
  - by intros [= <- _].
  - cbn [scanColumns fold_left]. intros Hs. apply gbind_ok in Hs as ([] & w1 & _ & Hs). eauto.
Qed.

Lemma ggetTableInfo_name db tableName w table w' :
  getTableInfo E db tableName w = (inr table, w') -> name table = tableName.
Proof.
  intros Hg. apply gbind_ok in Hg as ([] & w1 & _ & Hg).
  destruct (parse_name E tableName) as [t|]; [|done].
  apply gbind_ok in Hg as (rows & w2 & _ & Hg).
  apply gbind_ok in Hg as (t0 & w3 & Hs & Hg). apply gscanColumns_ok in Hs as ->.
  injection Hg as <- _. unfold defaultPk.
  destruct (String.eqb _ ""); cbn [name]; by rewrite name_scanColumns.
Qed.

Lemma gscanTables_names db names tables w tables' w' :
  scanTables E db names tables w = (inr tables', w') ->
  forall table, table ∈ tables' -> table ∈ tables ∨ name table ∈ names.
Proof.
  revert tables w. induction names as [|n names IH]; intros tables w.
  - intros [= <- _] table Hin. by left.
  - cbn [scanTables]. intros Hs table Hin. apply gbind_ok in Hs as ([] & w1 & _ & Hs).
    apply gbind_ok in Hs as (t & w2 & Hg & Hs). apply ggetTableInfo_name in Hg.
    destruct (IH _ _ Hs table Hin) as [Hold|Hnew].
    + apply elem_of_app in Hold as [Hold|Hone]; [by left|].
      apply list_elem_of_singleton in Hone as ->. right. rewrite Hg. left.
    + right. by right.
Qed.

(** Whatever the cursors deliver, the descriptors carry names of the
    catalog. *)
Lemma gdiscover_names src w tables w' :
  discover E src w = (inr tables, w') ->
  forall table, table ∈ tables -> name table ∈ (catalog src).*1.
Proof.
  intros Hd. apply gbind_ok in Hd as ([] & w1 & _ & Hd).
  apply gbind_ok in Hd as ([] & w2 & _ & Hd). apply gbind_ok in Hd as ([] & w3 & _ & Hd).
  apply gbind_ok in Hd as (names & w4 & Hn & Hd). apply deliver_ok in Hn as [Hpre _].
  intros table Hin. destruct (gscanTables_names _ _ _ _ _ _ Hd table Hin) as [Hnil|Hname].
  - by apply elem_of_nil in Hnil.
  - eapply elem_of_prefix; [exact Hname|]. exact Hpre.
Qed.

Lemma gscanColumns_quiet rows table tg tx :
  @scanColumns Datum rows table (mkState [] [] tg tx)
  = (inr (fold_left scanColumn rows table), mkState [] [] tg tx).
Proof.
  revert table. induction rows as [|c rows IH]; intros table; [done|].
  cbn [scanColumns fold_left]. erewrite gbind_inr by apply gcall_quiet. apply IH.
Qed.

Lemma gscanTables_quiet db names tables tg tx :
  scanTables E db names tables (mkState [] [] tg tx)
  = (listTables E db names tables, mkState [] [] tg tx).
Proof.
  revert tables. induction names as [|n names IH]; intros tables; [done|].
  cbn [scanTables listTables]. erewrite gbind_inr by apply gcall_quiet.
  unfold getTableInfo. unfold bind at 1. unfold bind at 1. rewrite gcall_quiet.
  destruct (parse_name E n) as [t|]; [|done].
  unfold bind at 1. rewrite deliver_quiet. unfold bind at 1. rewrite gscanColumns_quiet.
  unfold ret. apply IH.
Qed.

Lemma gdiscover_quiet src tg tx :
  discover E src (mkState [] [] tg tx) = (listing E src, mkState [] [] tg tx).
Proof.
  unfold discover.
  erewrite gbind_inr by (apply gwrap_inr, gcall_quiet).
  erewrite gbind_inr by (apply gwrap_inr, gcall_quiet).
  unfold getTables. erewrite gbind_inr by apply gcall_quiet.
  erewrite gbind_inr by apply deliver_quiet. apply gscanTables_quiet.
Qed.

Lemma gSync_discover src cfg w :
  Sync E src cfg w
  = bind (discover E src) (fun tables => syncTables E src cfg (retainTables cfg tables)) w.
Proof.
  unfold Sync, discover, bind.
  destruct (wrap "opening source db" (call "open") w) as [[e|[]] w1]; [done|].
  destruct (wrap "opening target db" (call "open") w1) as [[e|[]] w2]; [done|].
  by destruct (getTables E src w2) as [[e|tables] w3].
Qed.

(** ** The whole run *)

Lemma gsyncTables_preserves (P : Db Datum -> Db Datum -> Prop) src cfg tables :
  (forall d, P d d) -> (forall a b c, P a b -> P b c -> P a c) ->
  (forall table w r w', table ∈ tables ->
     syncTable E src table cfg w = (r, w') -> P (target w) (target w')) ->
  forall w r w', syncTables E src cfg tables w = (r, w') -> P (target w) (target w').
Proof.
  intros Hrefl Htrans. induction tables as [|table tables IH]; intros Hstep w r w'.
  - by intros [= _ <-].
  - cbn [syncTables]. unfold bind, wrap.
    destruct (syncTable E src table cfg w) as [[e|[]] w1] eqn:Hs.
    + intros [= _ <-]. eapply Hstep; [left|done].
    + intros Hrest. eapply Htrans.
      * eapply Hstep; [left|done].
      * eapply IH; [|done]. intros t w0 r0 w0' Hin. apply Hstep. by right.
Qed.

Lemma gretainTables_elem cfg (tables : list Table) table :
  table ∈ retainTables cfg tables ->
  table ∈ tables ∧ (Tables cfg ≠ [] -> name table ∈ Tables cfg).
Proof.
  unfold retainTables. destruct (Tables cfg) as [|n names] eqn:Ht; [done|].
  cbn [length Nat.ltb Nat.leb]. rewrite filterTables_filter.
  intros Hin. apply list_elem_of_filter in Hin as [? ?]. done.
Qed.

(** A relation between the target before and after that the synchronisation
    of every table of the source, allowlisted if there is an allowlist,
    respects is respected by [Sync]. *)
Lemma gSync_preserves (P : Db Datum -> Db Datum -> Prop) src cfg :
  (forall d, P d d) -> (forall a b c, P a b -> P b c -> P a c) ->
  (forall table w r w',
     name table ∈ (catalog src).*1 -> (Tables cfg ≠ [] -> name table ∈ Tables cfg) ->
     syncTable E src table cfg w = (r, w') -> P (target w) (target w')) ->
  forall w r w', Sync E src cfg w = (r, w') -> P (target w) (target w').
Proof.
  intros Hrefl Htrans Hstep w r w'. rewrite gSync_discover. unfold bind.
  pose proof (gdiscover_store src w) as Hst.
  destruct (discover E src w) as [[e|tables] w1] eqn:Hd; injection Hst as Htg _; simpl in Htg.
  - intros [= _ <-]. rewrite Htg. apply Hrefl.
  - intros Hs. rewrite <- Htg. eapply gsyncTables_preserves; [done|done| |done].
    intros table w0 r0 w0' Hin. apply gretainTables_elem in Hin as [Hin Hallow].
    apply Hstep; [|done]. by eapply gdiscover_names.
Qed.

Lemma growsOf_Some (db : Db Datum) t rows : data db !! t = Some rows -> rowsOf db t = rows.
Proof. unfold rowsOf. by intros ->. Qed.

Lemma gdb_eta (db : Db Datum) : withData db (data db) = db.
Proof. by destruct db. Qed.

Lemma noHooks_untouched (db : Db Datum) t : noHooks db -> untouched db t.
Proof. intros Hn s args before d. by rewrite Hn. Qed.

Lemma copyScope_subseteq table cfg (srcRows : list (Datum * list Datum)) r :
  r ∈ copyScope E table cfg srcRows -> r ∈ srcRows.
Proof.
  unfold copyScope, selectRows. intros Hin. by apply list_elem_of_filter in Hin as [_ ?].
Qed.

(** ** The claims about deletion *)

Lemma keysNotNull_elem (rows : list (Datum * list Datum)) r :
  keysNotNull E rows = true -> r ∈ rows -> null E r.1 = false.
Proof.
  unfold keysNotNull. intros Hall Hin. rewrite forallb_forall in Hall.
  apply list_elem_of_In, Hall in Hin. by apply negb_true_iff in Hin.
Qed.

(** C1, amended. With deletion enabled, let [syncTable] return nil for a
    table that the engine reads under its name as [t], every cursor having
    been read to its end, no trigger writing rows of [t], and no row of [t]
    in the source or in the target having a NULL key.  If the source table
    has at least one row, the key of every row then left in the target table
    is the key of some source row.  If the source table has no rows the guard
    [len(sourceIDs) > 0] skips the delete and the target is left exactly as
    it was. *)
Theorem syncTable_orphans_deleted src table cfg w t :
  NoDelete cfg = false ->
  (syncTable E src table cfg w).1 = inr tt ->
  parse_name E (name table) = Some t ->
  cursors w = [] ->
  untouched (target w) t ->
  keysNotNull E (rowsOf src t) = true ->
  keysNotNull E (rowsOf (target w) t) = true ->
  (rowsOf src t ≠ [] ->
     forall row, row ∈ rowsOf (target (syncTable E src table cfg w).2) t ->
                 row.1 ∈ (rowsOf src t).*1)
  ∧ (rowsOf src t = [] -> target (syncTable E src table cfg w).2 = target w).
Proof.
  intros Hn. destruct (syncTable E src table cfg w) as [r w'] eqn:Hs. cbn [fst snd].
  intros -> Hp Hcs Hun Hsnull Htnull. split.
  - apply gsyncTable_rows in Hs
      as (t' & srcRows & dstRows & rows & ids & Hp' & Hsrc & Hdst & Hrows & _ & Hall & Hafter).
    rewrite Hp in Hp'. injection Hp' as <-.
    rewrite (growsOf_Some _ _ _ Hsrc) in *. rewrite (growsOf_Some _ _ _ Hdst) in Htnull.
    destruct (Hall Hcs) as [-> ->]. rewrite (growsOf_Some _ _ _ (Hafter Hun)).
    intros Hne row. unfold sweep. rewrite Hn.
    destruct srcRows as [|r0 srcRows]; [done|]. cbn [fmap list_fmap length Nat.ltb Nat.leb].
    intros Hin. apply elem_of_deleteNotIn in Hin as [Hnot Hin].
    apply notIn_false in Hnot; [done| |].
    + apply elem_of_upsertAll in Hin as [Hin|Hin].
      * apply copyScope_subseteq in Hin. exact (keysNotNull_elem _ _ Hsnull Hin).
      * exact (keysNotNull_elem _ _ Htnull Hin).
    + intros i Hi. change (i ∈ (r0 :: srcRows).*1) in Hi.
      apply list_elem_of_fmap in Hi as (r & -> & Hr).
      exact (keysNotNull_elem _ _ Hsnull Hr).
  - apply gsyncTable_ok in Hs
      as (t' & srcRows & rows & ids & d1 & d2 & Hp' & Hsrc & _ & Hrows & Hids & _ & Hcopy
          & Hdel & ->).
    rewrite Hp in Hp'. injection Hp' as <-. rewrite (growsOf_Some _ _ _ Hsrc).
    intros ->. unfold copyScope, selectRows in Hrows. cbn in Hrows, Hids.
    apply prefix_nil_inv in Hrows as ->. apply prefix_nil_inv in Hids as ->.
    injection Hcopy as <-. unfold deleteData in Hdel. rewrite Hn in Hdel. injection Hdel as <-.
    apply gdb_eta.
Qed.


(** ** The claim about the allowlist *)

Lemma gsyncTables_withTables src cfg names tables w :
  syncTables E src (withTables cfg names) tables w = syncTables E src cfg tables w.
Proof.
  revert w. induction tables as [|table tables IH]; intros w; [done|].
  cbn [syncTables]. unfold bind.
  change (syncTable E src table (withTables cfg names)) with (syncTable E src table cfg).
  destruct (wrap _ (syncTable E src table cfg) w) as [[e|[]] w1]; [done|]. apply IH.
Qed.

Lemma listTables_names db names tables tables' :
  listTables E db names tables = inr tables' ->
  forall table, table ∈ tables' -> table ∈ tables ∨ name table ∈ names.
Proof.
  revert tables. induction names as [|n names IH]; intros tables.
  - intros [= <-] table Hin. by left.
  - cbn [listTables]. destruct (parse_name E n) as [t|]; [|done].
    intros Hl table Hin. destruct (IH _ Hl table Hin) as [Hold|Hnew].
    + apply elem_of_app in Hold as [Hold|Hone]; [by left|].
      apply list_elem_of_singleton in Hone as ->. right. rewrite name_buildTable. left.
    + right. by right.
Qed.

Lemma map_fst_fmap {A B} (l : list (A * B)) : map fst l = l.*1.
Proof. induction l as [|x l IH]; [done|]. cbn. by rewrite IH. Qed.

Lemma listTables_readable db names tables :
  (forall n, n ∈ names -> is_Some (parse_name E n)) ->
  exists tables', listTables E db names tables = inr tables'.
Proof.
  revert tables. induction names as [|n names IH]; intros tables Hread; [by eexists|].
  cbn [listTables]. destruct (Hread n) as [t ->]; [left|].
  apply IH. intros n' Hn'. apply Hread. by right.
Qed.

(** C8, amended. With a non-empty allowlist whose names the engine reads as
    allowlisted tables, and a target on which no statement about an
    allowlisted table has further effects on a table outside the list (no
    trigger writing there, no AUTOINCREMENT bookkeeping): whatever the engine
    does, a target table that is not listed is after [Sync] what it was
    before.  The catalog is untouched in any case; listing further names that
    are no table of the source changes nothing in the run; and a list made of
    such names only is no error: from a quiet state, the names of the source
    tables being readable, [Sync] returns nil and the target is as before. *)
Theorem Sync_allowlist src cfg w :
  Tables cfg ≠ [] ->
  (forall n t, n ∈ Tables cfg -> parse_name E n = Some t -> t ∈ Tables cfg) ->
  (forall s args before d t,
     stmtTable s ∈ Tables cfg -> t ∉ Tables cfg ->
     hooks (target w) s args before d !! t = d !! t) ->
  (forall t, t ∉ Tables cfg ->
     data (target (Sync E src cfg w).2) !! t = data (target w) !! t)
  ∧ catalog (target (Sync E src cfg w).2) = catalog (target w)
  ∧ (forall extra, (forall n, n ∈ extra -> n ∉ (catalog src).*1) ->
       Sync E src (withTables cfg (Tables cfg ++ extra)) w = Sync E src cfg w)
  ∧ ((forall n, n ∈ Tables cfg -> n ∉ (catalog src).*1) ->
     (forall n, n ∈ (catalog src).*1 -> is_Some (parse_name E n)) ->
     forall dst, Sync E src cfg (quiet dst) = (inr tt, quiet dst)).
Proof.
  intros Hne Hread Hhooks. split; [|split; [|split]].
  - intros t Ht. destruct (Sync E src cfg w) as [r w'] eqn:Hs. cbn [snd].
    enough (hooks (target w') = hooks (target w)
            ∧ data (target w') !! t = data (target w) !! t) as [_ ?]; [done|].
    revert Hhooks.
    enough ((forall s args before d t,
               stmtTable s ∈ Tables cfg -> t ∉ Tables cfg ->
               hooks (target w) s args before d !! t = d !! t) ->
            hooks (target w') = hooks (target w)
            ∧ data (target w') !! t = data (target w) !! t) as Hgoal by done.
    eapply (gSync_preserves (fun d d' =>
      (forall s args before d0 t,
         stmtTable s ∈ Tables cfg -> t ∉ Tables cfg -> hooks d s args before d0 !! t = d0 !! t) ->
      hooks d' = hooks d ∧ data d' !! t = data d !! t)); [..|exact Hs].
    + done.
    + intros a b c Hab Hbc Ha. destruct (Hab Ha) as [Hh1 Hd1].
      destruct Hbc as [Hh2 Hd2]; [by rewrite Hh1|]. split; congruence.
    + clear w r w' Hs. intros table w r w' _ Hallow Hs Hh.
      pose proof (gsyncTable_schema _ _ _ _ _ _ Hs) as (_ & _ & Hhk). split; [done|].
      eapply gsyncTable_frame; [exact Hs| |].
      * intros s args before d Hst. apply Hh; [|done]. rewrite Hst. by apply Hallow.
      * intros Hp. apply Ht. eapply Hread; [|exact Hp]. by apply Hallow.
  - destruct (Sync E src cfg w) as [r w'] eqn:Hs. cbn [snd].
    eapply (gSync_preserves (fun d d' => catalog d' = catalog d)); [..|exact Hs].
    + done.
    + intros a b c Hab Hbc. congruence.
    + intros table w0 r0 w0' _ _ Hst. by apply gsyncTable_schema in Hst as [? _].
  - intros extra Hextra. rewrite !gSync_discover. unfold bind.
    destruct (discover E src w) as [[e|tables] w1] eqn:Hd; [done|].
    rewrite gsyncTables_withTables. f_equal.
    rewrite !retainTables_filter; [|done|cbn; by destruct (Tables cfg)].
    apply filter_tables_ext. intros table Hin. cbn [Tables withTables].
    rewrite elem_of_app. split; [|by left]. intros [?|Hex]; [done|].
    apply Hextra in Hex. exfalso. apply Hex. by eapply gdiscover_names.
  - intros Hunknown Hreadable dst. rewrite gSync_discover. unfold quiet, bind.
    rewrite gdiscover_quiet.
    destruct (listing E src) as [e|tables] eqn:Hl.
    + exfalso. unfold listing in Hl.
      destruct (listTables_readable src (map fst (catalog src)) []) as [tables Hok].
      { intros n Hn. apply Hreadable. by rewrite <- map_fst_fmap. }
      congruence.
    + rewrite retainTables_filter by done.
      assert (filter (fun table => name table ∈ Tables cfg) tables = []) as ->; [|done].
      apply filter_tables_none. intros table Hin Hn.
      apply Hunknown in Hn. apply Hn.
      destruct (listTables_names _ _ _ _ Hl table Hin) as [Hnil|Hname].
      * by apply elem_of_nil in Hnil.
      * by rewrite <- map_fst_fmap.
Qed.

(** ** Running twice *)






Lemma keyed_filter (P : Datum * list Datum -> Prop) `{!forall x, Decision (P x)}
    (rows : list (Datum * list Datum)) :
  keyed E rows = true -> keyed E (filter P rows) = true.
Proof.
  induction rows as [|r rows IH]; [done|]. intros (Hfresh & Hnull & Hk)%keyed_cons.
  rewrite filter_cons. destruct (decide (P r)); [|by apply IH].
  apply keyed_cons. split; [|by split; [|apply IH]].
  intros Hin. apply Hfresh. apply list_elem_of_fmap in Hin as (x & -> & Hx).
  apply list_elem_of_filter in Hx as [_ Hx]. apply list_elem_of_fmap. by exists x.
Qed.

Lemma sweep_app cfg ids (l1 l2 : list (Datum * list Datum)) :
  sweep E cfg ids (l1 ++ l2) = (sweep E cfg ids l1 ++ sweep E cfg ids l2)%list.
Proof.
  unfold sweep, deleteNotIn. destruct (NoDelete cfg); [done|].
  destruct (0 <? length ids)%nat; [|done]. apply filter_app.
Qed.

Lemma sweep_source cfg (srcRows rows : list (Datum * list Datum)) :
  (forall r, r ∈ rows -> r ∈ srcRows) -> sweep E cfg srcRows.*1 rows = rows.
Proof.
  intros Hsub. unfold sweep, deleteNotIn. destruct (NoDelete cfg); [done|].
  destruct (0 <? length srcRows.*1)%nat; [|done]. apply filter_all. intros r Hr.
  apply notIn_elem, list_elem_of_fmap. exists r. split; [done|]. by apply Hsub.
Qed.











(** ** Further properties of [syncTable] and [getTables] *)

Lemma notIn_true k ids :
  null E k = false -> (forall i, i ∈ ids -> null E i = false ∧ k ≠ i) -> notIn E k ids = true.
Proof.
  intros Hk Hids. unfold notIn. rewrite Hk. cbn [negb andb]. apply forallb_forall.
  intros i Hi. apply list_elem_of_In, Hids in Hi as [-> Hne].
  by rewrite bool_decide_eq_false_2.
Qed.

(** X17. When [syncTable] returns an error the target is exactly what it was
    before the call, whatever was written in the transaction, and no
    transaction is left open. *)
Theorem syncTable_error_leaves_target src table cfg w e :
  (syncTable E src table cfg w).1 = inl e ->
  target (syncTable E src table cfg w).2 = target w
  ∧ (txn w = None -> txn (syncTable E src table cfg w).2 = None).
Proof.
  destruct (syncTable E src table cfg w) as [r w'] eqn:Hs. cbn [fst snd]. intros ->.
  split; [by eapply gsyncTable_error|]. by eapply gsyncTable_txn.
Qed.

(** X1. Upsert correctness. Let [syncTable] return nil for a table read as
    [t], every cursor read to its end, the key being the only uniqueness
    constraint of the target table, no trigger writing its rows, and the
    source rows having distinct non-NULL keys.  Then every row the select
    returns is in the target table afterwards, whether or not deletion is
    enabled. *)
Theorem syncTable_copies_rows_in_scope src table cfg w t row :
  (syncTable E src table cfg w).1 = inr tt ->
  parse_name E (name table) = Some t ->
  cursors w = [] ->
  untouched (target w) t ->
  uniques (target w) t = [[0%nat]] ->
  keyed E (rowsOf src t) = true ->
  row ∈ copyScope E table cfg (rowsOf src t) ->
  row ∈ rowsOf (target (syncTable E src table cfg w).2) t.
Proof.
  destruct (syncTable E src table cfg w) as [r w'] eqn:Hs. cbn [fst snd].
  intros -> Hp Hcs Hun Hu Hk Hin.
  apply gsyncTable_rows in Hs
    as (t' & srcRows & dstRows & rows & ids & Hp' & Hsrc & Hdst & _ & _ & Hall & Hafter).
  rewrite Hp in Hp'. injection Hp' as <-. rewrite (growsOf_Some _ _ _ Hsrc) in *.
  destruct (Hall Hcs) as [-> ->]. rewrite (growsOf_Some _ _ _ (Hafter Hun)), Hu.
  rewrite upsertAll_keyed by by apply keyed_filter.
  rewrite sweep_app, (sweep_source _ _ (copyScope E table cfg srcRows)).
  - apply elem_of_app. by right.
  - intros r. apply copyScope_subseteq.
Qed.

(** X2. Filter scoping. Under the same conditions on cursors, constraint and
    triggers, a row of the target whose key the source has, but under which
    the filter lets no row into the copy, is in the target table afterwards:
    it is neither overwritten nor deleted. *)
Theorem syncTable_filtered_out_untouched src table cfg w t row :
  (syncTable E src table cfg w).1 = inr tt ->
  parse_name E (name table) = Some t ->
  cursors w = [] ->
  untouched (target w) t ->
  uniques (target w) t = [[0%nat]] ->
  row ∈ rowsOf (target w) t ->
  row.1 ∈ (rowsOf src t).*1 ->
  row.1 ∉ (copyScope E table cfg (rowsOf src t)).*1 ->
  row ∈ rowsOf (target (syncTable E src table cfg w).2) t.
Proof.
  destruct (syncTable E src table cfg w) as [r w'] eqn:Hs. cbn [fst snd].
  intros -> Hp Hcs Hun Hu Hin Hkey Hout.
  apply gsyncTable_rows in Hs
    as (t' & srcRows & dstRows & rows & ids & Hp' & Hsrc & Hdst & _ & _ & Hall & Hafter).
  rewrite Hp in Hp'. injection Hp' as <-.
  rewrite (growsOf_Some _ _ _ Hsrc) in *. rewrite (growsOf_Some _ _ _ Hdst) in Hin.
  destruct (Hall Hcs) as [-> ->]. rewrite (growsOf_Some _ _ _ (Hafter Hun)), Hu.
  assert (row ∈ upsertAll E [[0%nat]] (copyScope E table cfg srcRows) dstRows) as Hup.
  { apply upsertAll_keeps; [done|]. intros r' Hr' Heq. apply Hout.
    rewrite <- Heq. apply list_elem_of_fmap. by exists r'. }
  unfold sweep. destruct (NoDelete cfg); [done|].
  destruct (0 <? length srcRows.*1)%nat; [|done].
  apply elem_of_deleteNotIn. split; [|done]. by apply notIn_elem.
Qed.

(** X3. Whatever the engine does and however [syncTable] ends, a table of
    the target other than the one the engine reads the statements to be
    about, and out of reach of the triggers those statements fire, is left as
    it was, and so is the catalog. *)
Theorem syncTable_touches_own_table src table cfg w t' :
  parse_name E (name table) ≠ Some t' ->
  (forall s args before d,
     stmtTable s = name table -> hooks (target w) s args before d !! t' = d !! t') ->
  data (target (syncTable E src table cfg w).2) !! t' = data (target w) !! t'
  ∧ catalog (target (syncTable E src table cfg w).2) = catalog (target w).
Proof.
  intros Hp Hh. destruct (syncTable E src table cfg w) as [r w'] eqn:Hs. cbn [snd]. split.
  - by eapply gsyncTable_frame.
  - by apply gsyncTable_schema in Hs as [? _].
Qed.

(** X6. Parity. With deletion enabled and no filter clause, under the same
    conditions and when no key of the target table is NULL: after a
    successful [syncTable] of a table whose source has at least one row, the
    target table holds exactly the rows of the source table. *)
Theorem syncTable_parity src table cfg w t :
  (syncTable E src table cfg w).1 = inr tt ->
  NoDelete cfg = false ->
  Value cfg = "" ∨ filterOp (Filter cfg) = "" ->
  parse_name E (name table) = Some t ->
  cursors w = [] ->
  untouched (target w) t ->
  uniques (target w) t = [[0%nat]] ->
  keyed E (rowsOf src t) = true ->
  keysNotNull E (rowsOf (target w) t) = true ->
  rowsOf src t ≠ [] ->
  rowsOf (target (syncTable E src table cfg w).2) t = rowsOf src t.
Proof.
  destruct (syncTable E src table cfg w) as [r w'] eqn:Hs. cbn [fst snd].
  intros -> Hn Hf Hp Hcs Hun Hu Hk Hnull Hne.
  apply gsyncTable_rows in Hs
    as (t' & srcRows & dstRows & rows & ids & Hp' & Hsrc & Hdst & _ & _ & Hall & Hafter).
  rewrite Hp in Hp'. injection Hp' as <-.
  rewrite (growsOf_Some _ _ _ Hsrc) in *. rewrite (growsOf_Some _ _ _ Hdst) in Hnull.
  destruct (Hall Hcs) as [-> ->]. rewrite (growsOf_Some _ _ _ (Hafter Hun)), Hu.
  assert (copyScope E table cfg srcRows = srcRows) as ->.
  { unfold copyScope. apply gselectRows_all. left. cbn [selectStmt selectCond].
    by apply filterCond_None. }
  rewrite upsertAll_keyed, sweep_app, (sweep_source _ _ srcRows) by done.
  assert (sweep E cfg srcRows.*1 (filter (fun x => x.1 ∉ srcRows.*1) dstRows) = []) as ->;
    [|done].
  unfold sweep, deleteNotIn. rewrite Hn.
  assert ((0 <? length srcRows.*1)%nat = true) as -> by by destruct srcRows.
  apply filter_none. intros x Hx Hnot. apply list_elem_of_filter in Hx as [Hfresh Hx].
  rewrite notIn_true in Hnot; [done| |].
  - exact (keysNotNull_elem _ _ Hnull Hx).
  - intros i Hi. split; [|by intros <-].
    apply list_elem_of_fmap in Hi as (r & -> & Hr). by eapply keyed_not_null.
Qed.

Lemma defaultPk_nonempty table : pkCol (defaultPk table) ≠ "".
Proof. unfold defaultPk. by destruct (String.eqb_spec (pkCol table) ""). Qed.

Lemma ggetTableInfo_pkCol db tableName w table w' :
  getTableInfo E db tableName w = (inr table, w') -> pkCol table ≠ "".
Proof.
  intros Hg. apply gbind_ok in Hg as ([] & w1 & _ & Hg).
  destruct (parse_name E tableName) as [t|]; [|done].
  apply gbind_ok in Hg as (rows & w2 & _ & Hg).
  apply gbind_ok in Hg as (t0 & w3 & Hs & Hg). injection Hg as <- _.
  apply defaultPk_nonempty.
Qed.

Lemma gscanTables_ok db names tables w tables' w' :
  scanTables E db names tables w = (inr tables', w') ->
  map name tables' = (map name tables ++ names)%list
  ∧ (Forall (fun table => pkCol table ≠ "") tables ->
     Forall (fun table => pkCol table ≠ "") tables').
Proof.
  revert tables w. induction names as [|n names IH]; intros tables w.
  - intros [= <- _]. by rewrite app_nil_r.
  - cbn [scanTables]. intros Hs. apply gbind_ok in Hs as ([] & w1 & _ & Hs).
    apply gbind_ok in Hs as (t & w2 & Hg & Hs).
    pose proof (ggetTableInfo_name _ _ _ _ _ Hg) as Hname.
    apply ggetTableInfo_pkCol in Hg.
    apply IH in Hs as [Hnames Hpk]. split.
    + rewrite Hnames, map_app. cbn [map]. by rewrite Hname, <- app_assoc.
    + intros Hall. apply Hpk, Forall_app. split; [done|]. by constructor.
Qed.

(** X10. The descriptors [getTables] returns: one per table name its cursor
    delivered, in catalog order and under the catalog's names, each with a
    non-empty key column; all the tables of the catalog when the cursor is
    read to its end, and possibly only the first few otherwise, without an
    error.  Listing changes neither the target nor an open transaction. *)
Theorem getTables_descriptors db w tables w' :
  getTables E db w = (inr tables, w') ->
  map name tables `prefix_of` map fst (catalog db)
  ∧ (cursors w = [] -> map name tables = map fst (catalog db))
  ∧ Forall (fun table => pkCol table ≠ "") tables
  ∧ target w' = target w ∧ txn w' = txn w.
Proof.
  intros Hg.
  assert (keeps store (getTables E db)) as Hkeep.
  { apply gkeeps_bind; [apply gcall_store|]. intros _.
    apply gkeeps_bind; [apply deliver_store|]. intros names. apply gscanTables_store. }
  pose proof (Hkeep w) as Hst. rewrite Hg in Hst. injection Hst as Htg Htx.
  cbn [snd] in Htg, Htx.
  apply gbind_ok in Hg as ([] & w1 & Hc & Hg).
  pose proof (gcall_cursors "query" w) as Hcs. rewrite Hc in Hcs. simpl in Hcs.
  apply gbind_ok in Hg as (names & w2 & Hn & Hg). apply deliver_ok in Hn as [Hpre Hall].
  apply gscanTables_ok in Hg as [Hnames Hpk]. cbn [map app] in Hnames. rewrite Hnames.
  split; [done|]. split; [|split; [by apply Hpk|done]].
  intros Hq. rewrite Hq in Hcs. by destruct (Hall Hcs) as [-> _].
Qed.

End Frames.

(** ** The model on concrete databases *)

(** The cases of [TestSync] once more: the target tables hold the expected
    rows (in the order of this model's lists, which the test does not fix). *)

Example TestSync_general_multiple_tables :
  let r := runSync [] [] shop_src shop_tgt (testConfig "" "" false []) in
  r.1 = None
  ∧ rowsOf r.2 "users" = rowsOfList users_src
  ∧ rowsOf r.2 "orders" = rowsOfList orders_src.
Proof. vm_compute. done. Qed.

Example TestSync_general_filter_greater_than :
  let r := runSync [] [] products_src_db products_tgt_db (testConfig "gt" "1" false []) in
  r.1 = None
  ∧ rowsOf r.2 "products"
    = rowsOfList [ [CInt 1; CText "Old Item 1"; CReal 90 (-1)];
                   [CInt 2; CText "Item 2"; CReal 200 (-1)];
                   [CInt 3; CText "Item 3"; CReal 300 (-1)] ].
Proof. vm_compute. done. Qed.

Example TestSync_general_filter_less_than :
  let r := runSync [] [] products_src_db products_tgt_db (testConfig "lt" "3" false []) in
  r.1 = None
  ∧ rowsOf r.2 "products"
    ≡ₚ rowsOfList [ [CInt 1; CText "Item 1"; CReal 100 (-1)];
                    [CInt 2; CText "Item 2"; CReal 200 (-1)];
                    [CInt 3; CText "Old Item 3"; CReal 290 (-1)] ].
Proof. vm_compute. split; [done|]. exact (Permutation_cons_append [_; _] _). Qed.

Example TestSync_general_filter_greater_or_equal :
  let r := runSync [] [] products_src_db products_tgt_db (testConfig "gte" "2" false []) in
  r.1 = None
  ∧ rowsOf r.2 "products"
    = rowsOfList [ [CInt 1; CText "Old Item 1"; CReal 90 (-1)];
                   [CInt 2; CText "Item 2"; CReal 200 (-1)];
                   [CInt 3; CText "Item 3"; CReal 300 (-1)] ].
Proof. vm_compute. done. Qed.

Example TestSync_general_filter_less_or_equal :
  let r := runSync [] [] products_src_db products_tgt_db (testConfig "lte" "2" false []) in
  r.1 = None
  ∧ rowsOf r.2 "products"
    ≡ₚ rowsOfList [ [CInt 1; CText "Item 1"; CReal 100 (-1)];
                    [CInt 2; CText "Item 2"; CReal 200 (-1)];
                    [CInt 3; CText "Old Item 3"; CReal 290 (-1)] ].
Proof. vm_compute. split; [done|]. exact (Permutation_cons_append [_; _] _). Qed.

Example TestSync_general_no_delete :
  let r := runSync [] [] categories_src_db categories_tgt_db (testConfig "" "" true []) in
  r.1 = None
  ∧ rowsOf r.2 "categories"
    ≡ₚ rowsOfList [ [CInt 1; CText "Category 1"];
                    [CInt 2; CText "Category 2"];
                    [CInt 3; CText "Category 3"] ].
Proof. vm_compute. split; [done|]. exact (Permutation_cons_append [_; _] _). Qed.

Example TestSync_general_filter_with_no_delete :
  let r := runSync [] [] products_src_db
             (plainDb [ ("products", products_info, products_tgt4) ])
             (testConfig "gte" "2" true []) in
  r.1 = None
  ∧ rowsOf r.2 "products"
    ≡ₚ rowsOfList [ [CInt 1; CText "Old Item 1"; CReal 90 (-1)];
                    [CInt 2; CText "Item 2"; CReal 200 (-1)];
                    [CInt 3; CText "Item 3"; CReal 300 (-1)];
                    [CInt 4; CText "Old Item 4"; CReal 390 (-1)] ].
Proof.
  vm_compute. split; [done|]. apply Permutation_skip.
  exact (Permutation_cons_append [_; _] _).
Qed.

Example TestSync_general_specific_tables_only :
  let r := runSync [] [] shop_src shop_tgt (testConfig "" "" false ["users"]) in
  r.1 = None
  ∧ rowsOf r.2 "users" = rowsOfList users_src
  ∧ rowsOf r.2 "orders" = rowsOfList orders_tgt.
Proof. vm_compute. done. Qed.

(** How the engine of the examples reads names. *)
Example parseName_examples :
  parseName "users" = Some "users" ∧ parseName "main.orders" = Some "orders"
  ∧ parseName "order items" = None.
Proof. vm_compute. done. Qed.

(** ** C5: a cursor that stops early *)

(** C5. The select of [users] delivers its first row and then fails
    ([rows.Next()] returns false, [rows.Err()] is not consulted):
    [syncTable] returns nil and commits, the target holds Alice from the
    source but not Bob, and Charlie is deleted.  When instead the cursor over
    the source keys fails after the first key, [syncTable] returns nil and
    commits a target from which Bob, a row of the source copied a moment
    earlier, has been deleted. *)
Theorem syncTable_commits_after_cursor_error :
  let cfg := testConfig "" "" false [] in
  let alice := (CInt 1, [CInt 1; CText "Alice"; CText "alice@test.com"]) in
  let select_stops := syncTable sqlite3 shop_src users_table cfg
                        (mkState [] [Some 1%nat] shop_tgt None) in
  let keys_stop := syncTable sqlite3 shop_src users_table cfg
                     (mkState [] [None; Some 1%nat] shop_tgt None) in
  rowsOf shop_src "users" = rowsOfList users_src
  ∧ select_stops.1 = inr tt
  ∧ rowsOf (target select_stops.2) "users" = [alice]
  ∧ target select_stops.2 ≠ shop_tgt
  ∧ keys_stop.1 = inr tt
  ∧ rowsOf (target keys_stop.2) "users" = [alice].
Proof.
  intros cfg alice select_stops keys_stop.
  split; [vm_compute; reflexivity|]. split; [vm_compute; reflexivity|].
  assert (rowsOf (target select_stops.2) "users" = [alice]) as Hrows
    by (vm_compute; reflexivity).
  split; [exact Hrows|]. split.
  - intros Heq. rewrite Heq in Hrows. vm_compute in Hrows. discriminate Hrows.
  - split; vm_compute; reflexivity.
Qed.

(** ** Instances of the claims *)

(** C1 as stated fails, in four ways.  The source table has no rows: the
    delete is skipped and the target keeps its rows.  A source key is NULL:
    [NOT IN] is true of no row and the orphan [z] survives.  The cursor over
    the source keys breaks before its first row: no key is collected, the
    delete is skipped, and Charlie survives.  The primary key is [(a, b)]:
    the delete compares [b] alone, and the target row with the primary key
    (9, 5) survives next to a source that has the primary key (1, 5) only. *)
Lemma orphans_survive :
  let cfg := testConfig "" "" false [] in
  let empty := syncTable sqlite3 categories_empty_db categories_table cfg
                 (quiet categories_tgt_db) in
  let nulls := syncTable sqlite3 tags_src_db tags_table cfg (quiet tags_tgt_db) in
  let stops := syncTable sqlite3 shop_src users_table cfg
                 (mkState [] [None; Some 0%nat] shop_tgt None) in
  let pairs := syncTable sqlite3 (pairsDb pairs_src) pairs_table cfg
                 (quiet (pairsDb pairs_tgt)) in
  NoDelete cfg = false
  ∧ (pairs.1 = inr tt
     ∧ rowsOf (pairsDb pairs_src) "pairs" = [ (CInt 5, [CInt 1; CInt 5; CText "new"]) ]
     ∧ rowsOf (target pairs.2) "pairs"
       = [ (CInt 5, [CInt 9; CInt 5; CText "stale"]); (CInt 5, [CInt 1; CInt 5; CText "new"]) ])
  ∧ (empty.1 = inr tt
     ∧ rowsOf categories_empty_db "categories" = []
     ∧ rowsOf (target empty.2) "categories" = rowsOfList categories_tgt)
  ∧ (nulls.1 = inr tt
     ∧ (rowsOf tags_src_db "tags").*1 = [CNull; CText "x"]
     ∧ (CText "z", [CText "z"; CText "c"]) ∈ rowsOf (target nulls.2) "tags"
     ∧ CText "z" ∉ (rowsOf tags_src_db "tags").*1)
  ∧ (stops.1 = inr tt
     ∧ (rowsOf shop_src "users").*1 = [CInt 1; CInt 2]
     ∧ (CInt 3, [CInt 3; CText "Charlie"; CText "charlie@test.com"])
         ∈ rowsOf (target stops.2) "users"
     ∧ CInt 3 ∉ (rowsOf shop_src "users").*1).
Proof.
  intros cfg empty nulls stops pairs. split; [reflexivity|].
  split; [repeat split; vm_compute; reflexivity|]. split; [|split].
  - split; [vm_compute; reflexivity|]. split; vm_compute; reflexivity.
  - split; [vm_compute; reflexivity|]. split; [vm_compute; reflexivity|]. split.
    + assert (rowsOf (target nulls.2) "tags"
              = [ (CText "z", [CText "z"; CText "c"]); (CNull, [CNull; CText "a"]);
                  (CText "x", [CText "x"; CText "b"]) ]) as -> by (vm_compute; reflexivity).
      left.
    + assert ((rowsOf tags_src_db "tags").*1 = [CNull; CText "x"]) as ->
        by (vm_compute; reflexivity).
      intros Hin. repeat (apply elem_of_cons in Hin as [Heq|Hin]; [discriminate Heq|]).
      by apply elem_of_nil in Hin.
  - split; [vm_compute; reflexivity|]. split; [vm_compute; reflexivity|]. split.
    + assert (rowsOf (target stops.2) "users"
              = [ (CInt 3, [CInt 3; CText "Charlie"; CText "charlie@test.com"]);
                  (CInt 1, [CInt 1; CText "Alice"; CText "alice@test.com"]);
                  (CInt 2, [CInt 2; CText "Bob"; CText "bob@test.com"]) ]) as ->
        by (vm_compute; reflexivity).
      left.
    + assert ((rowsOf shop_src "users").*1 = [CInt 1; CInt 2]) as ->
        by (vm_compute; reflexivity).
      intros Hin. repeat (apply elem_of_cons in Hin as [Heq|Hin]; [discriminate Heq|]).
      by apply elem_of_nil in Hin.
Qed.


Lemma plainDb_noHooks tables : noHooks (plainDb tables).
Proof. by intros s args before d. Qed.

Lemma syncTable_orphans_deleted_witness :
  let cfg := testConfig "gt" "1" false [] in
  let w := quiet shop_tgt in
  let run := syncTable sqlite3 shop_src users_table cfg w in
  NoDelete cfg = false
  ∧ run.1 = inr tt
  ∧ parse_name sqlite3 (name users_table) = Some "users"
  ∧ cursors w = []
  ∧ keysNotNull sqlite3 (rowsOf shop_src "users") = true
  ∧ keysNotNull sqlite3 (rowsOf (target w) "users") = true
  ∧ rowsOf shop_src "users" ≠ []
  ∧ forall row, row ∈ rowsOf (target run.2) "users" -> row.1 ∈ (rowsOf shop_src "users").*1.
Proof.
  intros cfg w run.
  assert (run.1 = inr tt) as Hok by (vm_compute; reflexivity).
  assert (keysNotNull sqlite3 (rowsOf shop_src "users") = true) as Hsrc
    by (vm_compute; reflexivity).
  assert (keysNotNull sqlite3 (rowsOf (target w) "users") = true) as Htgt
    by (vm_compute; reflexivity).
  assert (rowsOf shop_src "users" ≠ []) as Hne by (vm_compute; discriminate).
  split; [reflexivity|]. split; [exact Hok|]. split; [reflexivity|]. split; [reflexivity|].
  split; [exact Hsrc|]. split; [exact Htgt|]. split; [exact Hne|].
  refine (proj1 (syncTable_orphans_deleted sqlite3 shop_src users_table cfg w "users"
                   eq_refl Hok eq_refl eq_refl _ Hsrc Htgt) Hne).
  apply noHooks_untouched, plainDb_noHooks.
Defined.





(** C8 as stated fails: [users] is declared AUTOINCREMENT in the target;
    with only [users] allowlisted, the upsert of the user with key 2 raises
    the counter kept in [sqlite_sequence], a table that is not listed. *)
Lemma upsert_writes_sqlite_sequence :
  let cfg := testConfig "" "" false ["users"] in
  let run := Sync sqlite3 shop_src cfg (quiet counted_tgt_db) in
  Tables cfg = ["users"]
  ∧ run.1 = inr tt
  ∧ data counted_tgt_db !! "sqlite_sequence" = Some [ (CInt 1, [CText "users"; CInt 1]) ]
  ∧ data (target run.2) !! "sqlite_sequence" = Some [ (CInt 1, [CText "users"; CInt 2]) ]
  ∧ data (target run.2) !! "sqlite_sequence" ≠ data counted_tgt_db !! "sqlite_sequence".
Proof.
  intros cfg run.
  assert (data counted_tgt_db !! "sqlite_sequence" = Some [ (CInt 1, [CText "users"; CInt 1]) ])
    as H1 by (vm_compute; reflexivity).
  assert (data (target run.2) !! "sqlite_sequence"
          = Some [ (CInt 1, [CText "users"; CInt 2]) ]) as H2 by (vm_compute; reflexivity).
  split; [reflexivity|]. split; [vm_compute; reflexivity|]. split; [exact H1|].
  split; [exact H2|]. rewrite H1, H2. discriminate.
Qed.

Lemma Sync_allowlist_witness :
  let cfg := testConfig "" "" false ["users"] in
  let w := quiet shop_tgt in
  Tables cfg ≠ []
  ∧ parse_name sqlite3 "users" = Some "users"
  ∧ ("orders" ∉ Tables cfg)
  ∧ data (target (Sync sqlite3 shop_src cfg w).2) !! "orders" = data shop_tgt !! "orders"
  ∧ Sync sqlite3 shop_src (withTables cfg ["users"; "invoices"]) w
    = Sync sqlite3 shop_src cfg w.
Proof.
  intros cfg w.
  assert (Tables cfg ≠ []) as Hne by done.
  assert ("orders" ∉ Tables cfg) as Hnot.
  { cbn. intros Hin. apply list_elem_of_singleton in Hin. discriminate Hin. }
  assert (forall n t, n ∈ Tables cfg -> parse_name sqlite3 n = Some t -> t ∈ Tables cfg)
    as Hread.
  { intros n t Hin. cbn in Hin. apply list_elem_of_singleton in Hin as ->.
    intros [= <-]. left. }
  destruct (Sync_allowlist sqlite3 shop_src cfg w Hne Hread) as (Hframe & _ & Hextra & _).
  { intros s args before d t _ _. reflexivity. }
  split; [exact Hne|]. split; [reflexivity|]. split; [exact Hnot|].
  split; [exact (Hframe _ Hnot)|].
  apply (Hextra ["invoices"]). intros n Hin. apply list_elem_of_singleton in Hin as ->.
  cbn. intros Hcat. apply elem_of_cons in Hcat as [Heq|Hcat]; [discriminate Heq|].
  apply list_elem_of_singleton in Hcat. discriminate Hcat.
Defined.

(** ** Instances of the further properties *)

(** The second upsert of [users] fails: the first row, already written in the
    transaction, is not in the target afterwards. *)
Lemma syncTable_error_leaves_target_witness :
  let w := mkState second_upsert_fails [] shop_tgt None in
  let run := syncTable sqlite3 shop_src users_table (testConfig "" "" false []) w in
  run.1 = inl (EngineError "exec")
  ∧ target run.2 = shop_tgt
  ∧ txn run.2 = None.
Proof.
  intros w run.
  assert (run.1 = inl (EngineError "exec")) as Herr by (vm_compute; reflexivity).
  destruct (syncTable_error_leaves_target sqlite3 shop_src users_table
              (testConfig "" "" false []) w _ Herr) as [Htg Htx].
  split; [exact Herr|]. split; [exact Htg|]. exact (Htx eq_refl).
Defined.

Lemma syncTable_copies_rows_in_scope_witness :
  let cfg := testConfig "gt" "1" false [] in
  let table := mkTable "products" ["id"; "name"; "price"] "id" in
  let w := quiet products_tgt_db in
  let run := syncTable sqlite3 products_src_db table cfg w in
  let row := (CInt 2, [CInt 2; CText "Item 2"; CReal 200 (-1)]) in
  run.1 = inr tt
  ∧ keyed sqlite3 (rowsOf products_src_db "products") = true
  ∧ row ∈ copyScope sqlite3 table cfg (rowsOf products_src_db "products")
  ∧ row ∈ rowsOf (target run.2) "products".
Proof.
  intros cfg table w run row.
  assert (run.1 = inr tt) as Hok by (vm_compute; reflexivity).
  assert (keyed sqlite3 (rowsOf products_src_db "products") = true) as Hk
    by (vm_compute; reflexivity).
  assert (row ∈ copyScope sqlite3 table cfg (rowsOf products_src_db "products")) as Hin.
  { assert (copyScope sqlite3 table cfg (rowsOf products_src_db "products")
            = [ row; (CInt 3, [CInt 3; CText "Item 3"; CReal 300 (-1)]) ]) as ->
      by (vm_compute; reflexivity).
    left. }
  split; [exact Hok|]. split; [exact Hk|]. split; [exact Hin|].
  apply (syncTable_copies_rows_in_scope sqlite3 products_src_db table cfg w "products" row
           Hok eq_refl eq_refl); [|reflexivity|exact Hk|exact Hin].
  apply noHooks_untouched, plainDb_noHooks.
Defined.

Lemma syncTable_filtered_out_untouched_witness :
  let cfg := testConfig "gt" "1" false [] in
  let table := mkTable "products" ["id"; "name"; "price"] "id" in
  let w := quiet products_tgt_db in
  let run := syncTable sqlite3 products_src_db table cfg w in
  let row := (CInt 1, [CInt 1; CText "Old Item 1"; CReal 90 (-1)]) in
  run.1 = inr tt
  ∧ row ∈ rowsOf (target w) "products"
  ∧ row.1 ∈ (rowsOf products_src_db "products").*1
  ∧ (row.1 ∉ (copyScope sqlite3 table cfg (rowsOf products_src_db "products")).*1)
  ∧ row ∈ rowsOf (target run.2) "products".
Proof.
  intros cfg table w run row.
  assert (run.1 = inr tt) as Hok by (vm_compute; reflexivity).
  assert (row ∈ rowsOf (target w) "products") as Hin.
  { assert (rowsOf (target w) "products"
            = [ row; (CInt 2, [CInt 2; CText "Old Item 2"; CReal 190 (-1)]);
                (CInt 3, [CInt 3; CText "Old Item 3"; CReal 290 (-1)]) ]) as ->
      by (vm_compute; reflexivity).
    left. }
  assert (row.1 ∈ (rowsOf products_src_db "products").*1) as Hkey.
  { assert ((rowsOf products_src_db "products").*1 = [CInt 1; CInt 2; CInt 3]) as ->
      by (vm_compute; reflexivity).
    left. }
  assert (row.1 ∉ (copyScope sqlite3 table cfg (rowsOf products_src_db "products")).*1)
    as Hout.
  { assert ((copyScope sqlite3 table cfg (rowsOf products_src_db "products")).*1
            = [CInt 2; CInt 3]) as -> by (vm_compute; reflexivity).
    intros Hk. repeat (apply elem_of_cons in Hk as [Heq|Hk]; [discriminate Heq|]).
    by apply elem_of_nil in Hk. }
  split; [exact Hok|]. split; [exact Hin|]. split; [exact Hkey|]. split; [exact Hout|].
  apply (syncTable_filtered_out_untouched sqlite3 products_src_db table cfg w "products" row
           Hok eq_refl eq_refl); [|reflexivity|exact Hin|exact Hkey|exact Hout].
  apply noHooks_untouched, plainDb_noHooks.
Defined.

Lemma syncTable_touches_own_table_witness :
  let cfg := testConfig "" "" false [] in
  let w := quiet shop_tgt in
  parse_name sqlite3 (name users_table) ≠ Some "orders"
  ∧ data (target (syncTable sqlite3 shop_src users_table cfg w).2) !! "orders"
    = data shop_tgt !! "orders".
Proof.
  intros cfg w.
  assert (parse_name sqlite3 (name users_table) ≠ Some "orders") as Hp
    by (vm_compute; discriminate).
  split; [exact Hp|].
  apply (syncTable_touches_own_table sqlite3 shop_src users_table cfg w "orders" Hp).
  intros s args before d _. reflexivity.
Defined.

Lemma syncTable_parity_witness :
  let cfg := testConfig "" "" false [] in
  let w := quiet shop_tgt in
  let run := syncTable sqlite3 shop_src orders_table cfg w in
  run.1 = inr tt
  ∧ keyed sqlite3 (rowsOf shop_src "orders") = true
  ∧ keysNotNull sqlite3 (rowsOf (target w) "orders") = true
  ∧ rowsOf shop_src "orders" ≠ []
  ∧ rowsOf (target run.2) "orders" = rowsOf shop_src "orders".
Proof.
  intros cfg w run.
  assert (run.1 = inr tt) as Hok by (vm_compute; reflexivity).
  assert (keyed sqlite3 (rowsOf shop_src "orders") = true) as Hk by (vm_compute; reflexivity).
  assert (keysNotNull sqlite3 (rowsOf (target w) "orders") = true) as Hnull
    by (vm_compute; reflexivity).
  assert (rowsOf shop_src "orders" ≠ []) as Hne by (vm_compute; discriminate).
  split; [exact Hok|]. split; [exact Hk|]. split; [exact Hnull|]. split; [exact Hne|].
  apply (syncTable_parity sqlite3 shop_src orders_table cfg w "orders" Hok eq_refl
           (or_introl eq_refl) eq_refl eq_refl); [|reflexivity|exact Hk|exact Hnull|exact Hne].
  apply noHooks_untouched, plainDb_noHooks.
Defined.

(** The cursor over [sqlite_master] breaks after the first name: [getTables]
    returns the descriptor of [users] alone, and no error. *)
Lemma getTables_descriptors_witness :
  let w := mkState [] [Some 1%nat] shop_tgt None in
  getTables sqlite3 shop_src w = (inr [users_table], mkState [] [] shop_tgt None)
  ∧ map fst (catalog shop_src) = ["users"; "orders"]
  ∧ map name [users_table] `prefix_of` map fst (catalog shop_src).
Proof.
  intros w.
  assert (getTables sqlite3 shop_src w = (inr [users_table], mkState [] [] shop_tgt None))
    as Hg by (vm_compute; reflexivity).
  split; [exact Hg|]. split; [reflexivity|].
  exact (proj1 (getTables_descriptors sqlite3 shop_src w _ _ Hg)).
Defined.

End GeneralFacts.
